(** * SnapOpinion backend: a shallow embedding of the route handlers

    The repository is a set of Express route handlers (routes/auth.js,
    routes/posts.js) over two Mongoose collections (models/User.js,
    models/Post.js).  Each handler is embedded as a function from the
    store and the request to the new store and the HTTP response.  The
    store holds the two collections and the names of the files in the
    upload directory.

    Conventions.
    - An [ObjectId] is a natural number ([N]); a collection is a finite map
      from [_id] to document, so [findById] is a lookup.
    - Strings are Rocq strings; [toLowerCase] and [trim] act on the ASCII
      letters and the ASCII white space.
    - Numbers that the handlers compute with are integers ([Z]).  The one
      number read with [parseFloat] and [Number] ([durationSec]) is a
      double: the value of the decimal literal rounded to the nearest
      binary64 number, a tie going to the even one, as V8 reads it.  A
      finite double is kept as the rational it is.
    - A field of a JSON body that a handler passes on without a check of
      its type (the password of a login) is a JSON value; the other fields
      are texts.
    - The external collaborators ([validator.isEmail], [bcrypt], [jwt]) are
      fields of an environment record; what the run time supplies on a call
      (the clock, the salt, the name [multer] gives a file) is an argument
      of the handler.  The environment is a configured one: the secret of
      [jwt.sign] is set, so signing succeeds.  The [auth] middleware is not
      part of the embedding: a handler behind it takes the identifier of
      the caller ([req.user._id]) as an argument.
    - [populate] only changes how the author of a post or comment is
      rendered in a response; the responses carry the stored documents.
    - Only [createdAt] of the Mongoose time stamps is stored: no handler
      reads [updatedAt]. *)

From Stdlib Require Import Ascii QArith Qround Qabs Qpower Lqa.
From stdpp Require Import base gmap sets list strings pretty sorting.

#[local] Set Warnings "-clear-no-such-hyp".
#[local] Open Scope string_scope.
#[local] Open Scope list_scope.
#[local] Open Scope stdpp_scope.
#[local] Open Scope Z_scope.

(** ** Strings as JavaScript sees them *)

Module JsString.

Fixpoint to_list (s : string) : list ascii :=
  match s with
  | EmptyString => []
  | String c r => c :: to_list r
  end.

Fixpoint of_list (l : list ascii) : string :=
  match l with
  | [] => EmptyString
  | c :: r => String c (of_list r)
  end.

(** [String.prototype.toLowerCase], on ASCII. *)
Definition lower_char (c : ascii) : ascii :=
  let n := nat_of_ascii c in
  if (65 <=? n)%nat && (n <=? 90)%nat then ascii_of_nat (n + 32) else c.

Fixpoint toLowerCase (s : string) : string :=
  match s with
  | EmptyString => EmptyString
  | String c r => String (lower_char c) (toLowerCase r)
  end.

(** White space removed by [String.prototype.trim]: tab, line feed,
    vertical tab, form feed, carriage return and space. *)
Definition is_space (c : ascii) : bool :=
  let n := nat_of_ascii c in
  ((9 <=? n)%nat && (n <=? 13)%nat) || (n =? 32)%nat.

Fixpoint trimStart (s : string) : string :=
  match s with
  | EmptyString => EmptyString
  | String c r => if is_space c then trimStart r else s
  end.

(** [trimEnd] drops the trailing white space: a character is kept when
    something that is not white space follows it or it is not white
    space itself. *)
Fixpoint trimEnd (s : string) : string :=
  match s with
  | EmptyString => EmptyString
  | String c r =>
      match trimEnd r with
      | EmptyString => if is_space c then EmptyString else String c EmptyString
      | r' => String c r'
      end
  end.

Definition trim (s : string) : string := trimEnd (trimStart s).

(** JavaScript truthiness of a string. *)
Definition truthy (s : string) : bool :=
  match s with EmptyString => false | _ => true end.

End JsString.

(** ** Data model (models/User.js, models/Post.js) *)

Abbreviation ObjectId := N.

(** [UserSchema].  [version] is Mongoose's version key [__v]. *)
Record User := mkUser {
  username : string;
  email : string;
  passwordHash : string;
  displayName : option string;
  bio : option string;
  avatarUrl : option string;
  followers : list ObjectId;
  following : list ObjectId;
  version : N
}.

(** An element of [CommentSchema.replies]. *)
Record Reply := mkReply {
  reply_id : ObjectId;
  reply_author : ObjectId;
  reply_text : string;
  reply_createdAt : Z
}.

(** [CommentSchema]. *)
Record Comment := mkComment {
  comment_id : ObjectId;
  comment_author : ObjectId;
  comment_text : string;
  comment_createdAt : Z;
  comment_replies : list Reply
}.

(** [PostSchema]. *)
Record Post := mkPost {
  author : ObjectId;
  videoUrl : string;
  caption : string;
  hashtags : list string;
  durationSec : Q;
  likes : list ObjectId;
  comments : list Comment;
  views : Z;
  isPromoted : bool;
  createdAt : Z
}.

(** What the service stores: the two collections, and the names of the
    files in the upload directory, which [multer] writes. *)
Record Db := mkDb {
  users : gmap ObjectId User;
  posts : gmap ObjectId Post;
  uploads : gset string
}.

Definition empty_db : Db := mkDb ∅ ∅ ∅.

Definition set_users (us : gmap ObjectId User) (db : Db) : Db :=
  mkDb us (posts db) (uploads db).

Definition set_posts (ps : gmap ObjectId Post) (db : Db) : Db :=
  mkDb (users db) ps (uploads db).

Definition set_uploads (fs : gset string) (db : Db) : Db :=
  mkDb (users db) (posts db) fs.

Definition set_likes (l : list ObjectId) (p : Post) : Post :=
  mkPost (author p) (videoUrl p) (caption p) (hashtags p) (durationSec p)
         l (comments p) (views p) (isPromoted p) (createdAt p).

Definition set_comments (cs : list Comment) (p : Post) : Post :=
  mkPost (author p) (videoUrl p) (caption p) (hashtags p) (durationSec p)
         (likes p) cs (views p) (isPromoted p) (createdAt p).

Definition set_views (v : Z) (p : Post) : Post :=
  mkPost (author p) (videoUrl p) (caption p) (hashtags p) (durationSec p)
         (likes p) (comments p) v (isPromoted p) (createdAt p).

Definition set_replies (rs : list Reply) (c : Comment) : Comment :=
  mkComment (comment_id c) (comment_author c) (comment_text c)
            (comment_createdAt c) rs.

(** ** Responses

    [Json a] is [res.json(a)] (status 200); [ValidationErrors fields] is
    [res.status(400).json({ errors })], with the offending fields;
    [Error status msg] is [res.status(status).json({ error: msg })]. *)
Inductive Response (A : Type) : Type :=
| Json (a : A)
| ValidationErrors (fields : list string)
| Error (status : Z) (msg : string).
Arguments Json {A} a.
Arguments ValidationErrors {A} fields.
Arguments Error {A} status msg.

Definition is_json {A} (r : Response A) : bool :=
  match r with Json _ => true | _ => false end.


(** The error taxonomy of the specification, read off the responses. *)
Definition NotFound {A} (r : Response A) : Prop :=
  ∃ msg, r = Error 404 msg.
Definition Conflict {A} (r : Response A) : Prop :=
  r = Error 400 "Username or email already in use".
Definition InvalidCredentials {A} (r : Response A) : Prop :=
  r = Error 400 "Invalid credentials".

(** ** Identifiers

    Mongoose gives every new document and sub-document an [ObjectId] that
    no other document has.  The allocator picks an identifier that does
    not occur in the stored collections. *)
Definition comment_oids (c : Comment) : list ObjectId :=
  comment_id c :: (reply_id <$> comment_replies c).

Definition post_oids (p : Post) : list ObjectId :=
  comments p ≫= comment_oids.

Definition db_oids (db : Db) : gset ObjectId :=
  dom (users db) ∪ dom (posts db)
  ∪ list_to_set ((map_to_list (posts db)).*2 ≫= post_oids).

Definition newObjectId (db : Db) : ObjectId := fresh (db_oids db).

(** ** External collaborators *)
Record Env := mkEnv {
  isEmail : string → bool;                  (* validator.isEmail *)
  bcrypt_hash : string → string → string;   (* bcrypt.hash(password, salt) *)
  bcrypt_compare : string → string → bool;  (* bcrypt.compare(password, hash) *)
  jwt_sign : ObjectId → Z → string;
    (* jwt.sign({ id }, secret, { expiresIn }) at a clock time: the token
       carries the time of issue and the expiry computed from it *)
  upload_dir : option string                (* process.env.UPLOAD_DIR *)
}.

(** A body field as the validators read it: a missing field is the empty
    string. *)
Definition field_text (f : option string) : string := default "" f.

(** [validator.isLength(str, { min, max })]. *)
Definition isLength (lo : nat) (hi : option nat) (s : string) : bool :=
  (lo <=? String.length s)%nat
  && match hi with Some h => (String.length s <=? h)%nat | None => true end.

(** [Model.findOne(filter)]: a stored document that satisfies the filter. *)
Definition findOne {A} (P : A → bool) (m : gmap ObjectId A)
  : option (ObjectId * A) :=
  List.find (λ kv, P kv.2) (map_to_list m).

(** ** routes/auth.js *)

Record RegisterBody := mkRegisterBody {
  reg_username : option string;
  reg_email : option string;
  reg_password : option string;
  reg_displayName : option string
}.

(** A value of a JSON request body, as [express.json()] parses it.  No
    handler reads what an array or an object holds. *)
Inductive JsonValue :=
| JString (s : string)
| JNumber (n : Q)
| JBool (b : bool)
| JNull
| JArray
| JObject.

Record LoginBody := mkLoginBody {
  login_email : option string;
  login_password : option JsonValue
}.

(** The [user] object of the register and login responses. *)
Record Identity := mkIdentity {
  id_id : ObjectId;
  id_username : string;
  id_email : string;
  id_displayName : option string
}.

Record AuthReply := mkAuthReply {
  token : string;
  user : Identity
}.

(** The setters of [UserSchema], which Mongoose runs on a value that is
    stored and on a value that is used in a query filter. *)
Definition cast_username (s : string) : string := JsString.trim s.
Definition cast_email (s : string) : string :=
  JsString.toLowerCase (JsString.trim s).

(** The fields refused by the validation chain of a route, in order. *)
Definition failing (checks : list (string * bool)) : list string :=
  (filter (λ c, c.2 = false) checks).*1.

Definition register_errors (env : Env) (b : RegisterBody) : list string :=
  failing [ ("username", isLength 3 None (field_text (reg_username b)));
            ("email", isEmail env (field_text (reg_email b)));
            ("password", isLength 6 None (field_text (reg_password b))) ].

(** The filter [{ $or: [{ username }, { email }] }] after casting. *)
Definition username_or_email (uname mail : string) (u : User) : bool :=
  bool_decide (username u = cast_username uname)
  || bool_decide (email u = cast_email mail).

(** Schema validation of a new user: the required paths are not empty and
    the user name has at least three characters. *)
Definition user_schema_ok (u : User) : bool :=
  JsString.truthy (username u) && (3 <=? String.length (username u))%nat
  && JsString.truthy (email u) && JsString.truthy (passwordHash u).

Definition identity_of (i : ObjectId) (u : User) : Identity :=
  mkIdentity i (username u) (email u) (displayName u).

(** The document that [User.create] builds: the schema setters trim the
    user name and trim and lower-case the address. *)
Definition new_user (env : Env) (salt : string) (b : RegisterBody) : User :=
  mkUser (cast_username (field_text (reg_username b)))
         (cast_email (field_text (reg_email b)))
         (bcrypt_hash env (field_text (reg_password b)) salt)
         (reg_displayName b) None None [] [] 0%N.

(** POST /register.  [salt] is the result of [bcrypt.genSalt(10)], [now]
    the clock at [jwt.sign]. *)
Definition register (env : Env) (salt : string) (now : Z) (b : RegisterBody)
    (db : Db) : Db * Response AuthReply :=
  match register_errors env b with
  | (_ :: _) as errs => (db, ValidationErrors errs)
  | [] =>
      let uname := field_text (reg_username b) in
      let mail := field_text (reg_email b) in
      match findOne (username_or_email uname mail) (users db) with
      | Some _ => (db, Error 400 "Username or email already in use")
      | None =>
          let u := new_user env salt b in
          if user_schema_ok u then
            let i := newObjectId db in
            (set_users (<[i := u]> (users db)) db,
             Json (mkAuthReply (jwt_sign env i now) (identity_of i u)))
          else (db, Error 500 "Server error")
      end
  end.

(** [body('password').exists()] accepts every value of the field that is
    not [undefined], of any JSON type. *)
Definition login_errors (env : Env) (b : LoginBody) : list string :=
  failing [ ("email", isEmail env (field_text (login_email b)));
            ("password", bool_decide (is_Some (login_password b))) ].

(** POST /login.  [now] is the clock at [jwt.sign].  [bcrypt.compare]
    rejects with [Illegal arguments] when the password is not a string;
    the [catch] of the handler answers 500 then. *)
Definition login (env : Env) (now : Z) (b : LoginBody) (db : Db)
  : Db * Response AuthReply :=
  match login_errors env b with
  | (_ :: _) as errs => (db, ValidationErrors errs)
  | [] =>
      let mail := field_text (login_email b) in
      match findOne (λ u, bool_decide (email u = cast_email mail)) (users db) with
      | None => (db, Error 400 "Invalid credentials")
      | Some (i, u) =>
          match login_password b with
          | Some (JString password) =>
              if bcrypt_compare env password (passwordHash u) then
                (db, Json (mkAuthReply (jwt_sign env i now) (identity_of i u)))
              else (db, Error 400 "Invalid credentials")
          | _ => (db, Error 500 "Server error")
          end
      end
  end.

(** ** Numbers in request fields *)

Module JsNumber.

Definition is_digit (c : ascii) : bool :=
  let n := nat_of_ascii c in (48 <=? n)%nat && (n <=? 57)%nat.

Definition digit_val (c : ascii) : Z := Z.of_nat (nat_of_ascii c) - 48.

(** The longest prefix of digits, and what follows it. *)
Fixpoint span_digits (l : list ascii) : list ascii * list ascii :=
  match l with
  | c :: r =>
      if is_digit c then let '(ds, rest) := span_digits r in (c :: ds, rest)
      else ([], l)
  | [] => ([], [])
  end.

Definition digits_val (ds : list ascii) : Z :=
  fold_left (λ acc c, 10 * acc + digit_val c) ds 0.

Definition take_sign (l : list ascii) : bool * list ascii :=
  match l with
  | "-"%char :: r => (true, r)
  | "+"%char :: r => (false, r)
  | _ => (false, l)
  end.

(** A string cut along validator's float pattern: an optional sign,
    digits (maybe none), optionally a dot and digits (maybe none),
    optionally [e] or [E] with an optional sign and at least one digit,
    and nothing else. *)
Record FloatParts := mkFloatParts {
  negative : bool;
  int_digits : list ascii;
  frac_digits : list ascii;
  exponent : Z
}.

Definition match_float (s : string) : option FloatParts :=
  let '(neg, l) := take_sign (JsString.to_list s) in
  let '(ip, l) := span_digits l in
  let '(fp, l) := match l with
                  | "."%char :: r => span_digits r
                  | _ => ([], l)
                  end in
  match l with
  | [] => Some (mkFloatParts neg ip fp 0)
  | c :: r =>
      if bool_decide (c = "e"%char ∨ c = "E"%char) then
        let '(eneg, r) := take_sign r in
        match span_digits r with
        | (d :: ds, []) =>
            let e := digits_val (d :: ds) in
            Some (mkFloatParts neg ip fp (if eneg then - e else e))
        | _ => None
        end
      else None
  end.

(** The mathematical value of a string that matches the pattern, as a
    decimal literal; there is none when no digit comes before the
    exponent. *)
Definition literal_value (p : FloatParts) : option Q :=
  match int_digits p ++ frac_digits p with
  | [] => None
  | ds =>
      let m := digits_val ds in
      let m := if negative p then - m else m in
      let e := exponent p - Z.of_nat (length (frac_digits p)) in
      Some (if 0 <=? e then (m * 10 ^ e) # 1
            else m # (Z.to_pos (10 ^ (- e))))
  end.

(** A JavaScript number: a double.  A finite double is written as the
    rational it is, in lowest terms; the two zeros are not told apart. *)
Inductive Number :=
| Finite (q : Q)
| Infinity (negative : bool)
| NaN.

Definition pow2 (e : Z) : Q := (2 ^ e)%Q.

(** The binade of a positive rational [q]: the [e] with
    [2 ^ e <= q < 2 ^ (e + 1)]. *)
Definition binade (q : Q) : Z :=
  let a := Z.log2 (Qnum q) - Z.log2 (Z.pos (Qden q)) in
  if Qle_bool (pow2 a) q then a else a - 1.

(** The nearest integer, a tie going to the even one. *)
Definition round_half_even (t : Q) : Z :=
  let f := Qfloor t in
  match (t - inject_Z f ?= 1 # 2)%Q with
  | Lt => f
  | Gt => f + 1
  | Eq => if Z.even f then f else f + 1
  end.

(** The double that a positive rational is rounded to (binary64, round
    to nearest, ties to even): 53 significant bits, the last of them no
    finer than [2 ^ -1074], and infinity from [2 ^ 1024] on. *)
Definition nearest_double (q : Q) : Number :=
  let u := Z.max (binade q - 52) (-1074) in
  let m := round_half_even (q / pow2 u) in
  let x := (inject_Z m * pow2 u)%Q in
  if Qle_bool (pow2 1024) x then Infinity false else Finite (Qred x).

Definition opp (n : Number) : Number :=
  match n with
  | Finite q => Finite (- q)
  | Infinity negative => Infinity (negb negative)
  | NaN => NaN
  end.

Definition to_double (q : Q) : Number :=
  match (q ?= 0)%Q with
  | Eq => Finite 0
  | Gt => nearest_double q
  | Lt => opp (nearest_double (- q))
  end.

(** The number that [parseFloat] and [Number] read from a string that
    matches the pattern: the double nearest to the value of the literal,
    [NaN] when no digit comes before the exponent. *)
Definition number_value (p : FloatParts) : Number :=
  match literal_value p with
  | Some q => to_double q
  | None => NaN
  end.

Definition Qlt_bool (a b : Q) : bool :=
  Qnum a * Z.pos (Qden b) <? Qnum b * Z.pos (Qden a).

(** [a < b] on numbers; a comparison with [NaN] is false. *)
Definition lt (a b : Number) : bool :=
  match a, b with
  | Finite x, Finite y => Qlt_bool x y
  | Finite _, Infinity negative => negb negative
  | Infinity negative, Finite _ => negative
  | Infinity n1, Infinity n2 => n1 && negb n2
  | _, _ => false
  end.

(** [validator.isFloat(str, { gt, lt })]. *)
Definition isFloat (gt_bound lt_bound : Q) (s : string) : bool :=
  negb (bool_decide (s ∈ [""; "."; ","; "-"; "+"]))
  && match match_float s with
     | Some p =>
         let value := number_value p in
         lt value (Finite lt_bound) && lt (Finite gt_bound) value
     | None => false
     end.

(** [Number(str)] on a string that matches the pattern. *)
Definition toNumber (s : string) : Number :=
  match match_float s with
  | Some p => number_value p
  | None => NaN
  end.

End JsNumber.


(** ** routes/posts.js: creating a post *)

(** The [hashtags] field of a multipart body: a string, an array of
    strings (the field repeated), or something else. *)
Inductive HashtagsField :=
| TagString (s : string)
| TagArray (l : list string)
| TagOther.

Record CreatePostReq := mkCreatePostReq {
  cp_file : option string;          (* req.file.filename, set by multer *)
  cp_caption : option string;
  cp_durationSec : option string;
  cp_hashtags : option HashtagsField;
  cp_protocol : string;             (* req.protocol *)
  cp_host : string                  (* req.get('host') *)
}.

Definition is_separator (c : ascii) : bool :=
  bool_decide (c = ","%char ∨ c = " "%char).

(** [str.split(/[, ]+/)] on the characters of [str]: the pieces between
    the maximal runs of commas and spaces, the empty ones at both ends
    included.  [prev] tells that the previous character was a separator. *)
Fixpoint split_run (prev : bool) (l : list ascii) : list (list ascii) :=
  match l with
  | [] => [[]]
  | c :: r =>
      if is_separator c then
        if prev then split_run true r else [] :: split_run true r
      else
        match split_run false r with
        | p :: ps => (c :: p) :: ps
        | [] => [[c]]
        end
  end.

Definition split_tags (s : string) : list string :=
  JsString.of_list <$> split_run false (JsString.to_list s).

(** The [tags] constant of the handler. *)
Definition parse_hashtags (h : HashtagsField) : list string :=
  match h with
  | TagString s =>
      List.filter JsString.truthy (JsString.trim <$> split_tags s)
  | TagArray l => l
  | TagOther => []
  end.

(** The setters of [PostSchema.hashtags] ([lowercase], [trim]). *)
Definition cast_hashtag (s : string) : string :=
  JsString.toLowerCase (JsString.trim s).

Definition create_errors (r : CreatePostReq) : list string :=
  failing [ ("durationSec",
             JsNumber.isFloat 0 (300 # 1) (field_text (cp_durationSec r))) ].

Definition video_url (env : Env) (r : CreatePostReq) (filename : string)
  : string :=
  cp_protocol r +:+ "://" +:+ cp_host r +:+ "/"
  +:+ default "uploads" (upload_dir env) +:+ "/" +:+ filename.

(** Schema validation of a new post: [videoUrl] is required and the
    caption has at most 280 characters. *)
Definition post_schema_ok (p : Post) : bool :=
  JsString.truthy (videoUrl p) && (String.length (caption p) <=? 280)%nat.

(** [upload.single('video')], which runs before the validation and the
    handler: when the request carries a video, [multer] writes it to the
    upload directory under the name it hands on as [req.file.filename]. *)
Definition store_upload (file : option string) (db : Db) : Db :=
  match file with
  | Some filename => set_uploads ({[ filename ]} ∪ uploads db) db
  | None => db
  end.

(** POST /.  [uid] is [req.user._id], resolved by the [auth] middleware;
    [now] is the clock at [Post.create].  No path of the handler removes
    the uploaded file.  After the validation [Number(durationSec)] is a
    finite number; the schema would refuse [NaN], and the handler
    answers 500 then. *)
Definition createPost (env : Env) (now : Z) (uid : ObjectId)
    (r : CreatePostReq) (db : Db) : Db * Response (ObjectId * Post) :=
  let db := store_upload (cp_file r) db in
  match create_errors r with
  | (_ :: _) as errs => (db, ValidationErrors errs)
  | [] =>
      match cp_file r with
      | None => (db, Error 400 "Video file required")
      | Some filename =>
          let tags := parse_hashtags
                        (default (TagString "") (cp_hashtags r)) in
          match JsNumber.toNumber (field_text (cp_durationSec r)) with
          | JsNumber.Finite duration =>
              let p := mkPost uid (video_url env r filename)
                              (field_text (cp_caption r))
                              (cast_hashtag <$> tags) duration
                              [] [] 0 false now in
              if post_schema_ok p then
                let i := newObjectId db in
                (set_posts (<[i := p]> (posts db)) db, Json (i, p))
              else (db, Error 500 "Failed to create post")
          | _ => (db, Error 500 "Failed to create post")
          end
      end
  end.



(** ** routes/posts.js: the feed *)

Record FeedQuery := mkFeedQuery {
  q_page : option Z;       (* req.query.page, when it is a number *)
  q_limit : option Z;      (* req.query.limit, when it is a number *)
  q_hashtag : option string
}.

Record FeedReply := mkFeedReply {
  feed_posts : list (ObjectId * Post);
  feed_page : Z;
  feed_limit : Z
}.

(** MongoDB cursor modifiers.  [skip] refuses a negative count.  [limit 0]
    is no limit, and a negative limit is read as its absolute value. *)
Definition cursor_skip {A} (n : Z) (l : list A) : option (list A) :=
  if n <? 0 then None else Some (drop (Z.to_nat n) l).

Definition cursor_limit {A} (n : Z) (l : list A) : list A :=
  if n =? 0 then l else take (Z.to_nat (Z.abs n)) l.

(** [sort({ createdAt: -1 })]. *)
Definition newer_first (a b : ObjectId * Post) : Prop :=
  createdAt b.2 ≤ createdAt a.2.

#[local] Instance newer_first_dec a b : Decision (newer_first a b).
Proof. unfold newer_first. apply _. Defined.

Definition sort_newest (l : list (ObjectId * Post)) : list (ObjectId * Post) :=
  merge_sort newer_first l.

Definition feed_page_of (q : FeedQuery) : Z := Z.max 0 (default 0 (q_page q)).
Definition feed_limit_of (q : FeedQuery) : Z := Z.min 50 (default 12 (q_limit q)).

(** The query filter: with a non-empty [hashtag], the handler puts its
    lower-case form in the filter, Mongoose casts that value with the
    setters of [PostSchema.hashtags], and the filter selects the posts
    whose [hashtags] array holds the cast value. *)
Definition feed_filter (q : FeedQuery) (kv : ObjectId * Post) : bool :=
  match q_hashtag q with
  | Some h =>
      if JsString.truthy h
      then bool_decide (cast_hashtag (JsString.toLowerCase h) ∈ hashtags kv.2)
      else true
  | None => true
  end.

(** GET /. *)
Definition listFeed (q : FeedQuery) (db : Db) : Db * Response FeedReply :=
  let page := feed_page_of q in
  let limit := feed_limit_of q in
  let found := sort_newest (List.filter (feed_filter q) (map_to_list (posts db))) in
  match cursor_skip (page * limit) found with
  | None => (db, Error 500 "Failed to fetch feed")
  | Some rest =>
      (db, Json (mkFeedReply (cursor_limit limit rest) page limit))
  end.

(** ** routes/posts.js: reading and engaging with a post *)

(** GET /:id.  [findByIdAndUpdate(id, { $inc: { views: 1 } }, { new: true })]
    answers the updated document, or [null] when there is none. *)
Definition getPost (i : ObjectId) (db : Db) : Db * Response Post :=
  match posts db !! i with
  | None => (db, Error 404 "Not found")
  | Some p =>
      let p' := set_views (views p + 1) p in
      (set_posts (<[i := p']> (posts db)) db, Json p')
  end.

Record LikeReply := mkLikeReply {
  likesCount : nat;
  liked : bool
}.

(** POST /:id/like. *)
Definition toggleLike (uid i : ObjectId) (db : Db) : Db * Response LikeReply :=
  match posts db !! i with
  | None => (db, Error 404 "Not found")
  | Some p =>
      let was_liked := existsb (N.eqb uid) (likes p) in
      let likes' := if was_liked
                    then filter (λ x, x ≠ uid) (likes p)
                    else likes p ++ [uid] in
      (set_posts (<[i := set_likes likes' p]> (posts db)) db,
       Json (mkLikeReply (length likes') (negb was_liked)))
  end.

Definition text_errors (text : option string) : list string :=
  failing [ ("text", isLength 1 (Some 500%nat) (field_text text)) ].

(** POST /:id/comment.  [now] is the clock when the comment is pushed. *)
Definition addComment (now : Z) (uid i : ObjectId) (text : option string)
    (db : Db) : Db * Response Comment :=
  match text_errors text with
  | (_ :: _) as errs => (db, ValidationErrors errs)
  | [] =>
      match posts db !! i with
      | None => (db, Error 404 "Not found")
      | Some p =>
          let c := mkComment (newObjectId db) uid (field_text text) now [] in
          let cs := comments p ++ [c] in
          match last cs with
          | Some c' =>
              (set_posts (<[i := set_comments cs p]> (posts db)) db, Json c')
          | None => (db, Error 500 "Failed to add comment")
          end
      end
  end.

(** [post.comments.id(commentId)]: the position and the value of the first
    comment with that [_id]. *)
Definition comment_by_id (cid : ObjectId) (cs : list Comment)
  : option (nat * Comment) :=
  list_find (λ c, comment_id c = cid) cs.

(** POST /:id/comment/:commentId/reply. *)
Definition addReply (now : Z) (uid i cid : ObjectId) (text : option string)
    (db : Db) : Db * Response Reply :=
  match text_errors text with
  | (_ :: _) as errs => (db, ValidationErrors errs)
  | [] =>
      match posts db !! i with
      | None => (db, Error 404 "Not found")
      | Some p =>
          match comment_by_id cid (comments p) with
          | None => (db, Error 404 "Comment not found")
          | Some (k, c) =>
              let r := mkReply (newObjectId db) uid (field_text text) now in
              let rs := comment_replies c ++ [r] in
              let cs := <[k := set_replies rs c]> (comments p) in
              match last rs with
              | Some r' =>
                  (set_posts (<[i := set_comments cs p]> (posts db)) db,
                   Json r')
              | None => (db, Error 500 "Failed to add reply")
              end
          end
      end
  end.

(** ** routes/posts.js: following a user

    The handler loads two documents, [toFollow] and [me], changes one array
    of each and saves both.  A Mongoose document remembers what was done to
    each of its paths, and [save] sends only that: a [push] becomes a
    [$push] on the stored array, and an assignment of a different array
    becomes a [$set] of the whole array, which is sent with the version the
    document was loaded at and is refused ([VersionError]) when the stored
    version has moved.  Every update of an array increments the stored
    version. *)
Inductive ArrayChange :=
| Unmodified
| Pushed (x : ObjectId)
| Assigned (l : list ObjectId).

Record UserDoc := mkUserDoc {
  doc_id : ObjectId;
  doc_loaded : User;
  doc_followers : ArrayChange;
  doc_following : ArrayChange
}.

(** [doc.path = value]: nothing is recorded when the value is the same. *)
Definition assign (old new : list ObjectId) : ArrayChange :=
  if decide (new = old) then Unmodified else Assigned new.

(** The array after a change: in memory (on the loaded array) and in the
    store (on the stored array). *)
Definition changed (c : ArrayChange) (l : list ObjectId) : list ObjectId :=
  match c with
  | Unmodified => l
  | Pushed x => l ++ [x]
  | Assigned l' => l'
  end.

Definition is_assigned (c : ArrayChange) : bool :=
  match c with Assigned _ => true | _ => false end.

Definition is_modified (c : ArrayChange) : bool :=
  match c with Unmodified => false | _ => true end.

(** [doc.save()]; [None] is a rejected save. *)
Definition save (d : UserDoc) (us : gmap ObjectId User)
  : option (gmap ObjectId User) :=
  if is_modified (doc_followers d) || is_modified (doc_following d) then
    match us !! doc_id d with
    | None => None
    | Some stored =>
        if (is_assigned (doc_followers d) || is_assigned (doc_following d))
           && negb (version stored =? version (doc_loaded d))%N
        then None
        else
          Some (<[doc_id d :=
                   mkUser (username stored) (email stored) (passwordHash stored)
                          (displayName stored) (bio stored) (avatarUrl stored)
                          (changed (doc_followers d) (followers stored))
                          (changed (doc_following d) (following stored))
                          (version stored + 1)%N]> us)
    end
  else Some us.

Record FollowReply := mkFollowReply {
  followingCount : nat;
  followersCount : nat;
  fr_following : bool
}.

(** POST /user/:userId/follow.  [uid] is [req.user._id], [target] is
    [req.params.userId]. *)
Definition toggleFollow (uid target : ObjectId) (db : Db)
  : Db * Response FollowReply :=
  match users db !! target with
  | None => (db, Error 404 "User not found")
  | Some toFollow =>
      match users db !! uid with
      | None => (db, Error 500 "Failed to follow/unfollow")
      | Some me =>
          let alreadyFollowing := existsb (N.eqb target) (following me) in
          let me_following :=
            if alreadyFollowing
            then assign (following me) (filter (λ x, x ≠ target) (following me))
            else Pushed target in
          let to_followers :=
            if alreadyFollowing
            then assign (followers toFollow)
                        (filter (λ x, x ≠ uid) (followers toFollow))
            else Pushed uid in
          let me_doc := mkUserDoc uid me Unmodified me_following in
          let to_doc := mkUserDoc target toFollow to_followers Unmodified in
          match save me_doc (users db) with
          | None => (db, Error 500 "Failed to follow/unfollow")
          | Some us1 =>
              match save to_doc us1 with
              | None =>
                  (set_users us1 db, Error 500 "Failed to follow/unfollow")
              | Some us2 =>
                  (set_users us2 db,
                   Json (mkFollowReply
                           (length (changed me_following (following me)))
                           (length (changed to_followers (followers toFollow)))
                           (negb alreadyFollowing)))
              end
          end
      end
  end.

(** ** Sample data for the concrete checks *)

(** Stand-ins for the external collaborators: an address needs an [@], the
    hash of a password is the password behind a prefix. *)
Definition sample_env : Env :=
  mkEnv (λ s, bool_decide ("@"%char ∈ JsString.to_list s))
        (λ password salt, "h:" +:+ password)
        (λ password hash, bool_decide (hash = "h:" +:+ password))
        (λ i now, "jwt." +:+ pretty i +:+ "." +:+ pretty now)
        None.

Definition sample_post (l : list ObjectId) (cs : list Comment) (t : Z) : Post :=
  mkPost 1%N "http://host/uploads/a.mp4" "" ["fun"] (45 # 1) l cs 0 false t.

Definition sample_user (name mail : string) : User :=
  mkUser name mail "h:secret1" None None None [] [] 0%N.

(** One user (id 1) and one post (id 2) liked by the users 5 and 7. *)
Definition sample_db : Db :=
  mkDb {[ 1%N := sample_user "alice" "alice@x.com" ]}
       {[ 2%N := sample_post [5%N; 7%N] [] 1000 ]}
       {[ "a.mp4" ]}.

(** ** Vocabulary of the claims *)

(** Decimal numerals, as they are written: the digits and what they stand
    for, a digit string and the integer it writes, a sign, a fraction
    part, an exponent part. *)
Module Numeral.

Inductive digit : ascii → Z → Prop :=
| digit_0 : digit "0" 0
| digit_1 : digit "1" 1
| digit_2 : digit "2" 2
| digit_3 : digit "3" 3
| digit_4 : digit "4" 4
| digit_5 : digit "5" 5
| digit_6 : digit "6" 6
| digit_7 : digit "7" 7
| digit_8 : digit "8" 8
| digit_9 : digit "9" 9.

Inductive digits : list ascii → Z → Prop :=
| digits_nil : digits [] 0
| digits_snoc ds n c d :
    digits ds n → digit c d → digits (ds ++ [c]) (10 * n + d).

Inductive sign : list ascii → Z → Prop :=
| sign_none : sign [] 1
| sign_plus : sign ["+"%char] 1
| sign_minus : sign ["-"%char] (-1).

Inductive fraction : list ascii → list ascii → Prop :=
| fraction_none : fraction [] []
| fraction_some fp : fraction ("."%char :: fp) fp.

Inductive exponent_part : list ascii → Z → Prop :=
| exponent_none : exponent_part [] 0
| exponent_some c sg s ds n :
    c = "e"%char ∨ c = "E"%char → sign sg s → ds ≠ [] → digits ds n →
    exponent_part (c :: sg ++ ds) (s * n).

(** The text [s] is a numeral for the rational [q]: a sign or none, digits,
    maybe a dot and digits, with a digit on at least one side of the dot,
    and maybe an exponent of ten. *)
Definition denotes (s : string) (q : Q) : Prop :=
  ∃ sg sv ip dot fp m ex ev,
    JsString.to_list s = sg ++ ip ++ dot ++ ex
    ∧ sign sg sv
    ∧ fraction dot fp
    ∧ digits (ip ++ fp) m
    ∧ ip ++ fp ≠ []
    ∧ exponent_part ex ev
    ∧ (q == inject_Z (sv * m) * 10 ^ (ev - Z.of_nat (length fp)))%Q.

End Numeral.

(** Double precision numbers (binary64), as rationals: 53 significant
    bits, with a last bit between [2 ^ -1074] and [2 ^ 971]. *)
Module Double.

Definition representable (x : Q) : Prop :=
  ∃ m u : Z, Z.abs m < 2 ^ 53 ∧ -1074 ≤ u ≤ 971
             ∧ (x == inject_Z m * 2 ^ u)%Q.

(** [x] is the finite double nearest to [q], which is what [q] is rounded
    to unless it lies beyond the finite doubles: no double is nearer to
    [q], and when another double is as near, [x] is the even one of the
    two, an even multiple of their distance. *)
Definition rounds_to (q x : Q) : Prop :=
  representable x
  ∧ (∀ y, representable y → (Qabs (q - x) <= Qabs (q - y))%Q)
  ∧ (∀ y, representable y → ¬ (y == x)%Q →
          (Qabs (q - x) == Qabs (q - y))%Q →
          ∃ k : Z, (x == inject_Z (2 * k) * Qabs (x - y))%Q).

End Double.

(** The text is a numeral and [x] is the finite double nearest to its
    value: the number the text is read as, when that number is finite. *)
Definition reads_as (s : string) (x : Q) : Prop :=
  ∃ q, Numeral.denotes s q ∧ Double.rounds_to q x.

(** The [durationSec] field is a numeral that is read as a number above 0
    and below 300. *)
Definition is_duration (d : option string) : Prop :=
  ∃ x, reads_as (field_text d) x ∧ (0 < x)%Q ∧ (x < 300 # 1)%Q.


Definition sample_create (duration : string) : CreatePostReq :=
  mkCreatePostReq (Some "a.mp4") (Some "hello") (Some duration)
                  (Some (TagString "Fun, Cats")) "http" "host".

(** A stored hashtag in normal form: lower case, no white space at either
    end, not empty. *)
Definition lowercase (s : string) : Prop := JsString.toLowerCase s = s.
Definition trimmed (s : string) : Prop := JsString.trim s = s.
Definition normalized_hashtag (s : string) : Prop :=
  lowercase s ∧ trimmed s ∧ s ≠ "".

(** A request that gives its hashtags as an array (the field repeated). *)
Definition sample_create_array (tags : list string) : CreatePostReq :=
  mkCreatePostReq (Some "a.mp4") (Some "hello") (Some "45")
                  (Some (TagArray tags)) "http" "host".

(** A comment or reply text that the validation chain accepts. *)
Definition valid_text (t : string) : Prop :=
  (1 ≤ String.length t ≤ 500)%nat.

(** The password of a login request is a JSON string. *)
Definition string_password (b : LoginBody) : Prop :=
  ∀ v, login_password b = Some v → ∃ password, v = JString password.

(** The ways in which the credentials of a login request fail: no user has
    the address; a user has it and the password, a string, does not match
    the stored hash; a user has it and the password is not a string. *)
Definition no_account (b : LoginBody) (db : Db) : Prop :=
  findOne (λ u, bool_decide (email u = cast_email (field_text (login_email b))))
          (users db) = None.

Definition wrong_password (env : Env) (b : LoginBody) (db : Db) : Prop :=
  ∃ i u password,
    findOne (λ u, bool_decide (email u = cast_email (field_text (login_email b))))
            (users db) = Some (i, u)
    ∧ login_password b = Some (JString password)
    ∧ bcrypt_compare env password (passwordHash u) = false.

Definition unusable_password (b : LoginBody) (db : Db) : Prop :=
  (∃ i u,
    findOne (λ u, bool_decide (email u = cast_email (field_text (login_email b))))
            (users db) = Some (i, u))
  ∧ ¬ string_password b.

(** Some stored user has the requested user name or the requested address,
    compared as the schema stores them: the user name trimmed, the address
    trimmed and in lower case. *)
Definition taken (b : RegisterBody) (db : Db) : Prop :=
  ∃ i u, users db !! i = Some u
         ∧ (username u = cast_username (field_text (reg_username b))
            ∨ email u = cast_email (field_text (reg_email b))).

(** A register request that passes the validation chain of the route and
    whose new user passes the validation of the schema. *)
Definition register_valid (env : Env) (salt : string) (b : RegisterBody) : Prop :=
  register_errors env b = [] ∧ user_schema_ok (new_user env salt b) = true.

Definition sample_register (name mail password : string) : RegisterBody :=
  mkRegisterBody (Some name) (Some mail) (Some password) None.

(** A store of [n] posts, created at the times 0, 1, ..., n-1. *)
Definition feed_db (n : nat) : Db :=
  mkDb ∅ (list_to_map
            ((λ k, (N.of_nat k, sample_post [] [] (Z.of_nat k))) <$> seq 0 n))
       {[ "a.mp4" ]}.

(** What [GET /] answers for a page and a limit. *)
Definition feed_of (page limit : Z) (db : Db) : Response FeedReply :=
  (listFeed (mkFeedQuery (Some page) (Some limit) None) db).2.

(** The posts that match the filter, newest first: the list of which the
    handler answers a slice. *)
Definition feed_all (q : FeedQuery) (db : Db) : list (ObjectId * Post) :=
  sort_newest (List.filter (feed_filter q) (map_to_list (posts db))).

(** ** The service as a whole *)

(** A request to one of the routes, with what the run time supplies. *)
Inductive Request :=
| Register (salt : string) (now : Z) (b : RegisterBody)
| Login (now : Z) (b : LoginBody)
| CreatePost (now : Z) (uid : ObjectId) (r : CreatePostReq)
| ListFeed (q : FeedQuery)
| GetPost (i : ObjectId)
| ToggleLike (uid i : ObjectId)
| AddComment (now : Z) (uid i : ObjectId) (text : option string)
| AddReply (now : Z) (uid i cid : ObjectId) (text : option string)
| ToggleFollow (uid target : ObjectId).

(** The store after a request. *)
Definition step (env : Env) (db : Db) (r : Request) : Db :=
  match r with
  | Register salt now b => (register env salt now b db).1
  | Login now b => (login env now b db).1
  | CreatePost now uid r => (createPost env now uid r db).1
  | ListFeed q => (listFeed q db).1
  | GetPost i => (getPost i db).1
  | ToggleLike uid i => (toggleLike uid i db).1
  | AddComment now uid i text => (addComment now uid i text db).1
  | AddReply now uid i cid text => (addReply now uid i cid text db).1
  | ToggleFollow uid target => (toggleFollow uid target db).1
  end.

(** The store after a sequence of requests, one after the other. *)
Definition run (env : Env) (rs : list Request) (db : Db) : Db :=
  foldl (step env) db rs.

Definition is_toggleFollow (r : Request) : Prop :=
  match r with ToggleFollow _ _ => True | _ => False end.

(** A user asks to follow (or unfollow) themself. *)
Definition self_follow (r : Request) : Prop :=
  match r with ToggleFollow uid target => uid = target | _ => False end.

(** The follow arrays of a user, empty for an identifier without user. *)
Definition followers_of (us : gmap ObjectId User) (a : ObjectId) : list ObjectId :=
  match us !! a with Some u => followers u | None => [] end.

Definition following_of (us : gmap ObjectId User) (a : ObjectId) : list ObjectId :=
  match us !! a with Some u => following u | None => [] end.

Definition no_follow_edges (us : gmap ObjectId User) : Prop :=
  ∀ a u, us !! a = Some u → followers u = [] ∧ following u = [].

(** [a] is in the followers of [b] exactly when [b] is in the following
    of [a]. *)
Definition follow_symmetric (us : gmap ObjectId User) : Prop :=
  ∀ a b ua ub, us !! a = Some ua → us !! b = Some ub →
               (a ∈ followers ub ↔ b ∈ following ua).

(** The follower count of a user is the number of users whose following
    array holds that user. *)
Definition follower_count_consistent (us : gmap ObjectId User) : Prop :=
  ∀ b ub, us !! b = Some ub →
          length (followers ub)
          = length (filter (λ kv, b ∈ following kv.2) (map_to_list us)).

Definition no_self_follow (us : gmap ObjectId User) : Prop :=
  ∀ a ua, us !! a = Some ua → (a ∉ followers ua) ∧ (a ∉ following ua).

(** The invariant of the follow arrays. *)
Record follow_inv (us : gmap ObjectId User) : Prop := mkFollowInv {
  inv_symmetric : ∀ a b, a ∈ followers_of us b ↔ b ∈ following_of us a;
  inv_followers_NoDup : ∀ a, NoDup (followers_of us a);
  inv_following_NoDup : ∀ a, NoDup (following_of us a);
  inv_not_self : ∀ a, a ∉ following_of us a
}.

(** Two users (ids 1 and 2) who follow nobody. *)
Definition sample_pair : Db :=
  mkDb {[ 1%N := sample_user "alice" "alice@x.com";
          2%N := sample_user "bob" "bob@x.com" ]} ∅ ∅.

Definition sample_follows : list Request :=
  [ToggleFollow 1%N 2%N; ToggleFollow 2%N 1%N; ToggleLike 1%N 7%N;
   ToggleFollow 1%N 2%N; ToggleFollow 1%N 9%N; ToggleFollow 1%N 2%N].

(** No stored post is liked twice by one user. *)
Definition likes_are_sets (db : Db) : Prop :=
  ∀ i p, posts db !! i = Some p → NoDup (likes p).

(** A post is created, liked by the users 5 and 7 and read once. *)
Definition sample_history : list Request :=
  [CreatePost 1000 1%N (sample_create "45");
   ToggleLike 5%N 0%N; ToggleLike 7%N 0%N; GetPost 0%N].

(** ** Vocabulary of the further properties *)

(** The request is answered with [res.json] of its result. *)
Definition succeeds (env : Env) (db : Db) (r : Request) : bool :=
  match r with
  | Register salt now b => is_json (register env salt now b db).2
  | Login now b => is_json (login env now b db).2
  | CreatePost now uid r => is_json (createPost env now uid r db).2
  | ListFeed q => is_json (listFeed q db).2
  | GetPost i => is_json (getPost i db).2
  | ToggleLike uid i => is_json (toggleLike uid i db).2
  | AddComment now uid i text => is_json (addComment now uid i text db).2
  | AddReply now uid i cid text => is_json (addReply now uid i cid text db).2
  | ToggleFollow uid target => is_json (toggleFollow uid target db).2
  end.

(** What no route writes on a stored user. *)
Definition user_kept (u u' : User) : Prop :=
  username u' = username u ∧ email u' = email u
  ∧ passwordHash u' = passwordHash u ∧ displayName u' = displayName u
  ∧ bio u' = bio u ∧ avatarUrl u' = avatarUrl u.

(** A reply list that only grew at its end; a comment that kept its
    identity and whose replies only grew; a comment list whose entries kept
    their places and that only grew at its end. *)
Definition comment_grew (c c' : Comment) : Prop :=
  comment_id c' = comment_id c ∧ comment_author c' = comment_author c
  ∧ comment_text c' = comment_text c
  ∧ comment_createdAt c' = comment_createdAt c
  ∧ comment_replies c `prefix_of` comment_replies c'.

Definition comments_grew (cs cs' : list Comment) : Prop :=
  ∃ old new, cs' = old ++ new ∧ Forall2 comment_grew cs old.

(** What the routes may do to a stored post: raise [views], append to the
    comments and their replies, and change the likes. *)
Definition post_grew (p p' : Post) : Prop :=
  author p' = author p ∧ videoUrl p' = videoUrl p ∧ caption p' = caption p
  ∧ hashtags p' = hashtags p ∧ durationSec p' = durationSec p
  ∧ isPromoted p' = isPromoted p ∧ createdAt p' = createdAt p
  ∧ views p ≤ views p'
  ∧ comments_grew (comments p) (comments p').

(** What the schema and the validation of [POST /] let into the store. *)
Definition post_well_formed (p : Post) : Prop :=
  (0 < durationSec p)%Q ∧ (durationSec p < 300 # 1)%Q
  ∧ (String.length (caption p) ≤ 280)%nat
  ∧ videoUrl p ≠ ""
  ∧ Forall (λ s, lowercase s ∧ trimmed s) (hashtags p).

(** What the schema and the duplicate check of [POST /register] keep of the
    stored users: names and addresses in stored form, each used once. *)
Record users_well_formed (us : gmap ObjectId User) : Prop := mkUsersWf {
  wf_username : ∀ i u, us !! i = Some u →
                       trimmed (username u) ∧ (3 ≤ String.length (username u))%nat;
  wf_email : ∀ i u, us !! i = Some u → lowercase (email u) ∧ trimmed (email u);
  wf_unique : ∀ i j u v, us !! i = Some u → us !! j = Some v →
                         username u = username v ∨ email u = email v → i = j
}.

(** [k] reads of one post, one after the other. *)
Definition read_times (k : nat) (i : ObjectId) (db : Db) : Db :=
  Nat.iter k (λ d, (getPost i d).1) db.

(** The sample store after one comment on its post, and requests that
    reply to the comment, comment again and read the post. *)
Definition sample_comment : Comment := mkComment 3%N 5%N "nice" 10 [].

Definition sample_commented : Db :=
  mkDb (users sample_db) {[ 2%N := sample_post [5%N; 7%N] [sample_comment] 1000 ]}
       (uploads sample_db).

Definition sample_thread : list Request :=
  [AddReply 20 7%N 2%N 3%N (Some "thanks");
   AddComment 30 7%N 2%N (Some "again"); GetPost 2%N].

Definition all_posts_well_formed (db : Db) : Prop :=
  ∀ i p, posts db !! i = Some p → post_well_formed p.

(** Two user collections with the same identifiers, whose users differ in
    nothing that [user_kept] lists. *)
Definition users_kept (us us' : gmap ObjectId User) : Prop :=
  ∀ i, match us !! i, us' !! i with
       | Some u, Some u' => user_kept u u'
       | None, None => True
       | _, _ => False
       end.

(** Three registrations: two accounts and a refused reuse of an address. *)
Definition sample_signups : list Request :=
  [Register "salt" 100 (sample_register " alice " "Alice@X.com" "secret1");
   Register "salt" 100 (sample_register "bob" "bob@x.com" "secret2");
   Register "salt" 100 (sample_register "carol" "ALICE@x.com" "secret3")].

(** A string without comma and without space. *)
Definition no_separator (s : string) : Prop :=
  Forall (λ c, is_separator c = false) (JsString.to_list s).

(** What [GET /] answers for a hashtag, on the first page. *)
Definition feed_of_tag (h : string) (db : Db) : Response FeedReply :=
  (listFeed (mkFeedQuery None None (Some h)) db).2.

(** Two login requests with the JSON number 12345 as password: one with
    the address of the stored user of [sample_db], one with an address that
    no user has. *)
Definition known_address_login : LoginBody :=
  mkLoginBody (Some "alice@x.com") (Some (JNumber (12345 # 1))).

Definition unknown_address_login : LoginBody :=
  mkLoginBody (Some "bob@x.com") (Some (JNumber (12345 # 1))).

(** The result that a response carries, if it is [res.json] of one. *)
Definition reply_of {A} (r : Response A) : option A :=
  match r with Json a => Some a | _ => None end.

(** The first character of a list, if there is one, is in the class. *)
Definition head_in (P : ascii → Prop) (l : list ascii) : Prop :=
  match l with c :: _ => P c | [] => True end.

(** The file that comes with a request: the video of a request to create
    a post. *)
Definition uploaded_with (r : Request) : option string :=
  match r with
  | CreatePost _ _ cr => cp_file cr
  | _ => None
  end.

(** A request to create a post without a video, and one with a video and
    a caption of 281 characters. *)
Definition sample_no_video : CreatePostReq :=
  mkCreatePostReq None None (Some "45") None "http" "host".

Definition long_caption : string :=
  JsString.of_list (replicate 281 "a"%char).

Definition sample_long_caption : CreatePostReq :=
  mkCreatePostReq (Some "a.mp4") (Some long_caption) (Some "45") None
                  "http" "host".

(** * Properties *)

(** Follow every branch of a handler. *)
Ltac handler_cases :=
  repeat match goal with
         | |- context [match ?x with _ => _ end] => destruct x eqn:?
         end;
  simpl; try done.

(** ** The embedding evaluated on small inputs *)

Example trim_example : JsString.trim "  Fun Tag	 " = "Fun Tag".
Proof. reflexivity. Qed.
Example lower_example : JsString.toLowerCase "Fun#Tag9" = "fun#tag9".
Proof. reflexivity. Qed.
Example isFloat_45 : JsNumber.isFloat 0 (300 # 1) "45" = true.
Proof. reflexivity. Qed.
Example isFloat_400 : JsNumber.isFloat 0 (300 # 1) "400" = false.
Proof. reflexivity. Qed.
Example isFloat_frac : JsNumber.isFloat 0 (300 # 1) "+2.5e1" = true.
Proof. reflexivity. Qed.
Example isFloat_300 : JsNumber.isFloat 0 (300 # 1) "3e2" = false.
Proof. reflexivity. Qed.
Example isFloat_nan : JsNumber.isFloat 0 (300 # 1) ".e1" = false.
Proof. reflexivity. Qed.
Example isFloat_text : JsNumber.isFloat 0 (300 # 1) "4 5" = false.
Proof. reflexivity. Qed.
Example toNumber_frac : JsNumber.toNumber "12.50" = JsNumber.Finite (25 # 2).
Proof. vm_compute. reflexivity. Qed.
Example toNumber_tenth :
  JsNumber.toNumber "0.1"
  = JsNumber.Finite (3602879701896397 # 36028797018963968).
Proof. vm_compute. reflexivity. Qed.
Example toNumber_nearly_300 :
  JsNumber.toNumber "299.99999999999999999" = JsNumber.Finite (300 # 1).
Proof. vm_compute. reflexivity. Qed.
Example toNumber_tiny : JsNumber.toNumber "1e-400" = JsNumber.Finite 0.
Proof. vm_compute. reflexivity. Qed.
Example toNumber_huge : JsNumber.toNumber "1e400" = JsNumber.Infinity false.
Proof. vm_compute. reflexivity. Qed.
Example toNumber_negative : JsNumber.toNumber "-4.5" = JsNumber.Finite (-9 # 2).
Proof. vm_compute. reflexivity. Qed.
Example split_example :
  split_tags "Fun, cats,,dogs " = ["Fun"; "cats"; "dogs"; ""].
Proof. reflexivity. Qed.
Example parse_example :
  parse_hashtags (TagString " Fun,  Cats ") = ["Fun"; "Cats"].
Proof. reflexivity. Qed.

(** ** Arrays of identifiers used as sets *)

Section IdArrays.
Implicit Types (l : list ObjectId) (x y : ObjectId).

Lemma some_equals x l : existsb (N.eqb x) l = true ↔ x ∈ l.
Proof.
  rewrite existsb_exists. split.
  - intros (y & Hy & Heq). apply N.eqb_eq in Heq. subst. by apply list_elem_of_In.
  - intros Hx. exists x. split; [by apply list_elem_of_In | apply N.eqb_refl].
Qed.

Lemma some_equals_false x l : existsb (N.eqb x) l = false ↔ x ∉ l.
Proof.
  rewrite <- some_equals. destruct (existsb (N.eqb x) l); naive_solver.
Qed.

Lemma without_absent x l : x ∉ l → filter (λ y, y ≠ x) l = l.
Proof.
  induction l as [|y l IH]; [done |].
  rewrite not_elem_of_cons. intros [Hne Hl].
  rewrite filter_cons_True; [by rewrite IH | done].
Qed.

Lemma without_not_elem x l : x ∉ filter (λ y, y ≠ x) l.
Proof. rewrite list_elem_of_filter. naive_solver. Qed.

Lemma without_push x l : x ∉ l → filter (λ y, y ≠ x) (l ++ [x]) = l.
Proof.
  intros Hx. rewrite filter_app, (without_absent x l Hx).
  rewrite filter_cons_False; [| naive_solver].
  by rewrite filter_nil, app_nil_r.
Qed.

(** Removing the one occurrence of [x] and pushing [x] again gives the
    same elements, each once. *)
Lemma push_without_perm x l :
  NoDup l → x ∈ l → filter (λ y, y ≠ x) l ++ [x] ≡ₚ l.
Proof.
  intros Hnd Hx. apply NoDup_Permutation; [| done |].
  - apply NoDup_app. split; [by apply NoDup_filter |].
    split; [| apply NoDup_singleton].
    intros y Hy Hy'. apply list_elem_of_singleton in Hy'. subst.
    by apply without_not_elem in Hy.
  - intros y. rewrite elem_of_app, list_elem_of_filter, list_elem_of_singleton.
    destruct (decide (y = x)); naive_solver.
Qed.

Lemma NoDup_push x l : NoDup l → x ∉ l → NoDup (l ++ [x]).
Proof.
  intros Hnd Hx. apply NoDup_app. split; [done |].
  split; [| apply NoDup_singleton].
  intros y Hy Hy'. apply list_elem_of_singleton in Hy'. by subst.
Qed.

End IdArrays.

(** ** Likes *)

Section Likes.
Implicit Types (db : Db) (p : Post) (uid i : ObjectId).

(** What one call does to the stored post. *)
Lemma toggleLike_found uid i db p :
  posts db !! i = Some p →
  let l' := if existsb (N.eqb uid) (likes p)
            then filter (λ x, x ≠ uid) (likes p) else likes p ++ [uid] in
  toggleLike uid i db
  = (set_posts (<[i := set_likes l' p]> (posts db)) db,
     Json (mkLikeReply (length l') (negb (existsb (N.eqb uid) (likes p))))).
Proof. intros Hp. unfold toggleLike. by rewrite Hp. Qed.

Lemma toggleLike_absent uid i db :
  posts db !! i = None → toggleLike uid i db = (db, Error 404 "Not found").
Proof. intros Hp. unfold toggleLike. by rewrite Hp. Qed.

(** The like array never holds a user twice. *)
Lemma toggleLike_NoDup uid i db p p' :
  posts db !! i = Some p → NoDup (likes p) →
  posts (toggleLike uid i db).1 !! i = Some p' → NoDup (likes p').
Proof.
  intros Hp Hnd. rewrite (toggleLike_found uid i db p Hp). simpl.
  rewrite lookup_insert_eq. intros [= <-]. simpl.
  destruct (existsb (N.eqb uid) (likes p)) eqn:E.
  - by apply NoDup_filter.
  - apply NoDup_push; [done | by apply some_equals_false].
Qed.

Lemma set_likes_twice l l' p : set_likes l (set_likes l' p) = set_likes l p.
Proof. done. Qed.

End Likes.

(** On a stored post whose like array holds no user twice, two calls of
    [toggleLike] for the same post and user both succeed and leave the post
    with the same set of likes, the same number of likes and the same
    membership of every user as before the first call; the second call
    reports that number and the original membership of the user, the first
    call reports the opposite membership; nothing else in the store
    changes. *)
Lemma toggleLike_twice (uid i : ObjectId) (db : Db) (p : Post) :
  posts db !! i = Some p →
  NoDup (likes p) →
  ∃ db1 r1 db2 r2 l2,
    toggleLike uid i db = (db1, Json r1)
    ∧ toggleLike uid i db1 = (db2, Json r2)
    ∧ db2 = set_posts (<[i := set_likes l2 p]> (posts db)) db
    ∧ l2 ≡ₚ likes p
    ∧ list_to_set l2 =@{gset ObjectId} list_to_set (likes p)
    ∧ length l2 = length (likes p)
    ∧ (∀ x, x ∈ l2 ↔ x ∈ likes p)
    ∧ likesCount r2 = length (likes p)
    ∧ liked r2 = bool_decide (uid ∈ likes p)
    ∧ liked r1 = negb (liked r2).
Proof.
  intros Hp Hnd.
  pose proof (toggleLike_found uid i db p Hp) as H1. simpl in H1.
  set (l1 := if existsb (N.eqb uid) (likes p)
             then filter (λ x, x ≠ uid) (likes p) else likes p ++ [uid]) in *.
  set (db1 := set_posts (<[i := set_likes l1 p]> (posts db)) db) in *.
  assert (Hp1 : posts db1 !! i = Some (set_likes l1 p))
    by (unfold db1; simpl; apply lookup_insert_eq).
  pose proof (toggleLike_found uid i db1 _ Hp1) as H2. simpl in H2.
  set (l2 := if existsb (N.eqb uid) l1
             then filter (λ x, x ≠ uid) l1 else l1 ++ [uid]) in *.
  assert (Hperm : l2 ≡ₚ likes p ∧ existsb (N.eqb uid) l1
                  = negb (existsb (N.eqb uid) (likes p))).
  { unfold l2, l1. destruct (existsb (N.eqb uid) (likes p)) eqn:E.
    - apply some_equals in E.
      assert (E1 : existsb (N.eqb uid) (filter (λ x, x ≠ uid) (likes p)) = false)
        by (apply some_equals_false, without_not_elem).
      rewrite E1. split; [by apply push_without_perm | done].
    - apply some_equals_false in E.
      assert (E1 : existsb (N.eqb uid) (likes p ++ [uid]) = true).
      { apply some_equals, elem_of_app. right. apply list_elem_of_singleton.
        done. }
      rewrite E1. split; [by rewrite without_push | done]. }
  destruct Hperm as [Hperm Hflip].
  eexists db1, _, _, _, l2. split; [exact H1 |]. split; [exact H2 |].
  split.
  { unfold db1, set_posts. simpl. by rewrite insert_insert_eq. }
  split; [done |]. split.
  { apply set_eq. intros x. rewrite !elem_of_list_to_set. by rewrite Hperm. }
  split; [by rewrite Hperm |]. split; [intros x; by rewrite Hperm |].
  simpl. split; [by rewrite Hperm |]. split.
  - rewrite Hflip, negb_involutive.
    destruct (existsb (N.eqb uid) (likes p)) eqn:E.
    + apply some_equals in E. by rewrite bool_decide_eq_true_2.
    + apply some_equals_false in E. by rewrite bool_decide_eq_false_2.
  - by rewrite Hflip, negb_involutive.
Qed.

(** ** Reading one post *)

(** C4. [getPost] on an identifier that no post has answers [NotFound] and
    leaves the store as it is; on a stored post it stores and answers that
    post with [views] one higher and every other field as before, and
    changes no other post and no user. *)
Theorem getPost_effect (i : ObjectId) (db : Db) :
  match posts db !! i with
  | None =>
      NotFound (getPost i db).2 ∧ (getPost i db).1 = db
  | Some p =>
      ∃ p', getPost i db = (set_posts (<[i := p']> (posts db)) db, Json p')
            ∧ posts (getPost i db).1 !! i = Some p'
            ∧ views p' = views p + 1
            ∧ author p' = author p ∧ videoUrl p' = videoUrl p
            ∧ caption p' = caption p ∧ hashtags p' = hashtags p
            ∧ likes p' = likes p ∧ comments p' = comments p
            ∧ durationSec p' = durationSec p ∧ isPromoted p' = isPromoted p
            ∧ createdAt p' = createdAt p
            ∧ (∀ j, j ≠ i → posts (getPost i db).1 !! j = posts db !! j)
            ∧ users (getPost i db).1 = users db
  end.
Proof.
  unfold getPost. destruct (posts db !! i) as [p|] eqn:Hp.
  - exists (set_views (views p + 1) p). simpl.
    rewrite lookup_insert_eq. repeat split; try done.
    intros j Hj. by rewrite lookup_insert_ne.
  - split; [by exists "Not found" | done].
Qed.

(** ** Fresh identifiers *)

Section Fresh.
Implicit Types (db : Db) (p : Post) (i : ObjectId).

Lemma newObjectId_fresh db : newObjectId db ∉ db_oids db.
Proof. unfold newObjectId. apply is_fresh. Qed.

Lemma newObjectId_no_post db : posts db !! newObjectId db = None.
Proof.
  apply not_elem_of_dom. pose proof (newObjectId_fresh db) as H.
  unfold db_oids in H. set_solver.
Qed.

Lemma newObjectId_no_user db : users db !! newObjectId db = None.
Proof.
  apply not_elem_of_dom. pose proof (newObjectId_fresh db) as H.
  unfold db_oids in H. set_solver.
Qed.

(** The identifiers inside a stored post are in use. *)
Lemma post_oids_used db i p x :
  posts db !! i = Some p → x ∈ post_oids p → x ∈ db_oids db.
Proof.
  intros Hp Hx. unfold db_oids. apply elem_of_union. right.
  apply elem_of_list_to_set, list_elem_of_bind. exists p. split; [done |].
  apply list_elem_of_fmap. exists (i, p). split; [done |].
  by apply elem_of_map_to_list.
Qed.

Lemma newObjectId_no_comment db i p c :
  posts db !! i = Some p → c ∈ comments p → comment_id c ≠ newObjectId db.
Proof.
  intros Hp Hc Heq. apply (newObjectId_fresh db). rewrite <- Heq.
  apply (post_oids_used db i p); [done |].
  unfold post_oids. apply list_elem_of_bind. exists c. split; [| done].
  unfold comment_oids. apply list_elem_of_here.
Qed.

End Fresh.

(** ** Numbers: rounding to a double *)

Section Doubles.
Import JsNumber Double.
Local Open Scope Q_scope.

Lemma pow2_pos e : 0 < pow2 e.
Proof. apply Qpower_0_lt. reflexivity. Qed.

Lemma pow2_add a b : pow2 (a + b) == pow2 a * pow2 b.
Proof. apply Qpower_plus. discriminate. Qed.

Lemma pow2_lt a b : (a < b)%Z → pow2 a < pow2 b.
Proof. intros. apply Qpower_lt_compat_l; [done | reflexivity]. Qed.

Lemma pow2_le a b : (a <= b)%Z → pow2 a <= pow2 b.
Proof. intros. apply Qpower_le_compat_l; [done | discriminate]. Qed.

Lemma pow2_Z n : (0 <= n)%Z → pow2 n == inject_Z (2 ^ n).
Proof. intros. symmetry. by apply (Zpower_Qpower 2). Qed.

Lemma pow2_lt_inv a b : pow2 a < pow2 b → (a < b)%Z.
Proof. intros. by apply (Qpower_lt_compat_l_inv 2). Qed.


Lemma pow2_nonzero e : ¬ pow2 e == 0.
Proof. pose proof (pow2_pos e). intros E. lra. Qed.

Lemma Qabs_pow2 e : Qabs (pow2 e) == pow2 e.
Proof. apply Qabs_pos, Qlt_le_weak, pow2_pos. Qed.

(** The binade of a positive rational. *)
Lemma binade_spec q : 0 < q → pow2 (binade q) <= q ∧ q < pow2 (binade q + 1).
Proof.
  intros Hq. destruct q as [n d]. unfold binade. cbn [Qnum Qden].
  assert (Hn : (0 < n)%Z) by (unfold Qlt in Hq; simpl in Hq; lia).
  set (ln := Z.log2 n). set (ld := Z.log2 (Z.pos d)).
  destruct (Z.log2_spec n Hn) as [Hn1 Hn2].
  destruct (Z.log2_spec (Z.pos d) (Pos2Z.is_pos d)) as [Hd1 Hd2].
  fold ln in Hn1, Hn2. fold ld in Hd1, Hd2.
  assert (Hln : (0 <= ln)%Z) by apply Z.log2_nonneg.
  assert (Hld : (0 <= ld)%Z) by apply Z.log2_nonneg.
  set (q := n # d) in *.
  assert (HqD : q * inject_Z (Z.pos d) == inject_Z n).
  { unfold q. rewrite (Qmake_Qdiv n d). field. discriminate. }
  assert (Hup : q < pow2 (ln - ld + 1)).
  { apply (Qmult_lt_r _ _ (pow2 ld)); [apply pow2_pos |].
    rewrite <- pow2_add. replace (ln - ld + 1 + ld)%Z with (Z.succ ln) by lia.
    apply Qle_lt_trans with (q * inject_Z (Z.pos d)).
    - apply Qmult_le_l; [done |]. rewrite pow2_Z by done. by rewrite <- Zle_Qle.
    - rewrite HqD, pow2_Z by lia. by rewrite <- Zlt_Qlt. }
  assert (Hlo : pow2 (ln - ld - 1) < q).
  { apply (Qmult_lt_r _ _ (pow2 (Z.succ ld))); [apply pow2_pos |].
    rewrite <- pow2_add. replace (ln - ld - 1 + Z.succ ld)%Z with ln by lia.
    apply Qle_lt_trans with (q * inject_Z (Z.pos d)).
    - rewrite HqD, pow2_Z by lia. by rewrite <- Zle_Qle.
    - apply Qmult_lt_l; [done |]. rewrite pow2_Z by lia. by rewrite <- Zlt_Qlt. }
  destruct (Qle_bool (pow2 (ln - ld)) q) eqn:E.
  - apply Qle_bool_iff in E. done.
  - assert (Hlt : q < pow2 (ln - ld)).
    { apply Qnot_le_lt. intros H. apply Qle_bool_iff in H. congruence. }
    replace (ln - ld - 1 + 1)%Z with (ln - ld)%Z by lia.
    split; [by apply Qlt_le_weak | done].
Qed.

(** Rounding to the nearest integer, a tie going to the even one. *)
Lemma round_half_even_cases t :
  let m := round_half_even t in
  (inject_Z m <= t ∧ t - inject_Z m < 1 # 2)
  ∨ (t < inject_Z m ∧ inject_Z m - t < 1 # 2)
  ∨ ((t - inject_Z m == 1 # 2 ∨ inject_Z m - t == 1 # 2) ∧ Z.even m = true).
Proof.
  unfold round_half_even. set (f := Qfloor t).
  pose proof (Qfloor_le t) as H1. pose proof (Qlt_floor t) as H2.
  fold f in H1, H2. rewrite inject_Z_plus in H2. change (inject_Z 1) with 1 in H2.
  destruct (Qcompare_spec (t - inject_Z f) (1 # 2)) as [E | E | E].
  - destruct (Z.even f) eqn:Ev.
    + right. right. split; [by left | done].
    + right. right. split.
      * right. rewrite inject_Z_plus. change (inject_Z 1) with 1. lra.
      * rewrite Z.even_add. rewrite Ev. reflexivity.
  - left. split; [done | lra].
  - right. left. rewrite inject_Z_plus. change (inject_Z 1) with 1. lra.
Qed.

Lemma round_half_even_near t :
  Qabs (t - inject_Z (round_half_even t)) <= 1 # 2.
Proof.
  apply Qabs_Qle_condition.
  destruct (round_half_even_cases t) as [H | [H | [[H | H] _]]]; lra.
Qed.

Lemma Z_le_or_ge (k m : Z) : (k <= m - 1)%Z ∨ k = m ∨ (m + 1 <= k)%Z.
Proof. lia. Qed.

Lemma inject_Z_le_minus1 k m : (k <= m - 1)%Z → inject_Z k <= inject_Z m - 1.
Proof.
  intros H. assert (H' : (k + 1 <= m)%Z) by lia.
  rewrite Zle_Qle, inject_Z_plus in H'. change (inject_Z 1) with 1 in H'. lra.
Qed.

Lemma inject_Z_ge_plus1 k m : (m + 1 <= k)%Z → inject_Z m + 1 <= inject_Z k.
Proof.
  intros H. rewrite Zle_Qle in H. rewrite inject_Z_plus in H.
  change (inject_Z 1) with 1 in H. lra.
Qed.

Lemma round_half_even_nearest t (k : Z) :
  Qabs (t - inject_Z (round_half_even t)) <= Qabs (t - inject_Z k).
Proof.
  pose proof (round_half_even_near t) as Hn.
  apply Qabs_Qle_condition in Hn.
  destruct (Z_le_or_ge k (round_half_even t)) as [H | [-> | H]].
  - apply inject_Z_le_minus1 in H.
    apply Qabs_case; intros; apply Qabs_case; intros; lra.
  - apply Qle_refl.
  - apply inject_Z_ge_plus1 in H.
    apply Qabs_case; intros; apply Qabs_case; intros; lra.
Qed.

Lemma round_half_even_tie t (k : Z) :
  k ≠ round_half_even t →
  Qabs (t - inject_Z (round_half_even t)) == Qabs (t - inject_Z k) →
  Z.even (round_half_even t) = true
  ∧ Qabs (inject_Z (round_half_even t) - inject_Z k) == 1.
Proof.
  intros Hne. pose proof (round_half_even_cases t) as Hc. simpl in Hc.
  set (m := round_half_even t) in *.
  destruct (Z_le_or_ge k m) as [H | [-> | H]]; [| done |].
  - apply inject_Z_le_minus1 in H. revert Hc.
    apply Qabs_case; intros; revert H1; apply Qabs_case; intros;
      (split; [destruct Hc as [Hc | [Hc | [_ Hc]]]; [lra | lra | done] |]);
      apply Qabs_case; intros; destruct Hc as [Hc | [Hc | [[Hc | Hc] _]]]; lra.
  - apply inject_Z_ge_plus1 in H. revert Hc.
    apply Qabs_case; intros; revert H1; apply Qabs_case; intros;
      (split; [destruct Hc as [Hc | [Hc | [_ Hc]]]; [lra | lra | done] |]);
      apply Qabs_case; intros; destruct Hc as [Hc | [Hc | [[Hc | Hc] _]]]; lra.
Qed.

Lemma round_half_even_ge t (k : Z) : inject_Z k <= t → (k <= round_half_even t)%Z.
Proof.
  intros H. pose proof (round_half_even_near t) as Hn.
  apply Qabs_Qle_condition in Hn.
  destruct (Z_le_or_ge (round_half_even t) k) as [Hk | [-> | Hk]]; [| lia | lia].
  apply inject_Z_le_minus1 in Hk. 
  destruct (round_half_even_cases t) as [Hc | [Hc | [[Hc | Hc] Hev]]]; try lra.
  (* tie below: t = m + 1/2 ... *)
  all: exfalso; lra.
Qed.


Lemma round_half_even_le t (k : Z) : t <= inject_Z k → (round_half_even t <= k)%Z.
Proof.
  intros H. pose proof (round_half_even_near t) as Hn.
  apply Qabs_Qle_condition in Hn.
  destruct (Z_le_or_ge k (round_half_even t)) as [Hk | [-> | Hk]]; [| lia | lia].
  apply inject_Z_le_minus1 in Hk.
  destruct (round_half_even_cases t) as [Hc | [Hc | [[Hc | Hc] Hev]]];
    exfalso; lra.
Qed.

Lemma representable_proper x x' : x == x' → representable x → representable x'.
Proof.
  intros E (m & u & Hm & Hu & Hx). exists m, u. by rewrite <- E.
Qed.

Lemma rounds_to_proper q x x' : x == x' → rounds_to q x → rounds_to q x'.
Proof.
  intros E (Hr & Hn & Ht). split; [by apply (representable_proper x) |].
  split.
  - intros y Hy. rewrite <- E. by apply Hn.
  - intros y Hy Hne Heq. rewrite <- E in Hne, Heq.
    destruct (Ht y Hy Hne Heq) as [k Hk]. exists k. by rewrite <- E.
Qed.

(** What the rounding of a positive rational computes. *)
Section Nearest.
Variable q : Q.
Hypothesis Hq : 0 < q.
Let e := binade q.
Let u := Z.max (e - 52) (-1074).
Let t := q / pow2 u.
Let m := round_half_even t.
Let x := inject_Z m * pow2 u.

Lemma scaled : q == t * pow2 u.
Proof.
  unfold t. field. pose proof (pow2_pos u). unfold pow2 in *. lra.
Qed.

Lemma scaled_pos : 0 < t.
Proof.
  unfold t. apply Qlt_shift_div_l; [apply pow2_pos |]. lra.
Qed.

Lemma mantissa_nonneg : (0 <= m)%Z.
Proof.
  apply round_half_even_ge. change (inject_Z 0) with 0.
  apply Qlt_le_weak, scaled_pos.
Qed.

Lemma mantissa_upper : (m <= 2 ^ 53)%Z.
Proof.
  apply round_half_even_le. rewrite <- pow2_Z by lia.
  unfold t. apply Qle_shift_div_r; [apply pow2_pos |].
  rewrite <- pow2_add. destruct (binade_spec q Hq) as [_ H]. fold e in H.
  apply Qlt_le_weak. apply Qlt_le_trans with (pow2 (e + 1)); [done |].
  apply pow2_le. lia.
Qed.

Lemma binade_on_grid : u = (e - 52)%Z → pow2 e == inject_Z (2 ^ 52) * pow2 u.
Proof.
  intros Hu. rewrite <- pow2_Z by lia. rewrite <- pow2_add. 
  replace (52 + u)%Z with e by lia. reflexivity.
Qed.

Lemma mantissa_normal : u = (e - 52)%Z → (2 ^ 52 <= m)%Z.
Proof.
  intros Hu. apply round_half_even_ge. unfold t.
  apply Qle_shift_div_l; [apply pow2_pos |].
  rewrite <- binade_on_grid by done. apply (binade_spec q Hq).
Qed.

(** A double is on the grid of the binade of [q], or below the binade. *)
Lemma double_on_grid y :
  representable y →
  (∃ k : Z, y == inject_Z k * pow2 u) ∨ (y < pow2 e ∧ u = (e - 52)%Z).
Proof.
  intros (m' & u' & Hm' & Hu' & Hy).
  destruct (Z.le_gt_cases u u') as [Hle | Hgt].
  - left. exists (m' * 2 ^ (u' - u))%Z. rewrite Hy, inject_Z_mult.
    rewrite <- pow2_Z by lia. rewrite <- Qmult_assoc, <- pow2_add.
    replace (u' - u + u)%Z with u' by lia. reflexivity.
  - right. assert (Hu : u = (e - 52)%Z) by lia. split; [| done].
    rewrite Hy. apply Qlt_le_trans with (pow2 53 * pow2 u').
    + apply Qmult_lt_r; [apply pow2_pos |]. rewrite pow2_Z by lia.
      rewrite <- Zlt_Qlt. lia.
    + rewrite <- pow2_add. apply pow2_le. lia.
Qed.

Lemma error_scaled (k : Z) :
  Qabs (q - inject_Z k * pow2 u) == Qabs (t - inject_Z k) * pow2 u.
Proof.
  rewrite <- (Qabs_pow2 u) at 2. rewrite <- Qabs_Qmult.
  apply Qabs_wd. rewrite scaled at 1. ring.
Qed.

Lemma nearest_on_grid (k : Z) :
  Qabs (q - x) <= Qabs (q - inject_Z k * pow2 u).
Proof.
  unfold x. rewrite !error_scaled.
  apply Qmult_le_compat_r; [| apply Qlt_le_weak, pow2_pos].
  apply round_half_even_nearest.
Qed.

Lemma nearer_than_below y :
  y < pow2 e → u = (e - 52)%Z → Qabs (q - x) < Qabs (q - y).
Proof.
  intros Hy Hu. destruct (binade_spec q Hq) as [Hlo _]. fold e in Hlo.
  pose proof (nearest_on_grid (2 ^ 52)) as Hg.
  rewrite <- binade_on_grid in Hg by done.
  apply Qle_lt_trans with (Qabs (q - pow2 e)); [done |].
  apply Qabs_case; intros; apply Qabs_case; intros; lra.
Qed.

Lemma nearest_of_all y : representable y → Qabs (q - x) <= Qabs (q - y).
Proof.
  intros Hy. destruct (double_on_grid y Hy) as [[k Hk] | [Hlt Hu]].
  - rewrite Hk. apply nearest_on_grid.
  - by apply Qlt_le_weak, nearer_than_below.
Qed.

Lemma tie_to_even y :
  representable y → ¬ y == x → Qabs (q - x) == Qabs (q - y) →
  ∃ k : Z, x == inject_Z (2 * k) * Qabs (x - y).
Proof.
  intros Hy Hne Heq. destruct (double_on_grid y Hy) as [[k Hk] | [Hlt Hu]].
  - assert (Hkm : k ≠ m).
    { intros ->. by destruct Hne. }
    rewrite Hk in Heq. unfold x in Heq. rewrite !error_scaled in Heq.
    apply Qmult_inj_r in Heq; [| apply pow2_nonzero].
    destruct (round_half_even_tie t k Hkm Heq) as [Hev Hone]. fold m in Hev, Hone.
    apply Z.even_spec in Hev as [k' Hk']. exists k'.
    assert (Hd : Qabs (x - y) == pow2 u).
    { rewrite Hk. unfold x. rewrite <- (Qabs_pow2 u) at 3.
      rewrite <- (Qmult_1_l (Qabs (pow2 u))), <- Hone, <- Qabs_Qmult.
      apply Qabs_wd. ring. }
    rewrite Hd. unfold x. by rewrite Hk'.
  - pose proof (nearer_than_below y Hlt Hu). lra.
Qed.

Lemma rounded_representable : x < pow2 1024 → representable x.
Proof.
  intros Hx. pose proof mantissa_nonneg as H0. pose proof mantissa_upper as H1.
  assert (Hu : (u + 52 < 1024)%Z ∧ (m = (2 ^ 53)%Z → (u + 53 < 1024)%Z)).
  { destruct (Z.max_spec (e - 52) (-1074)) as [[_ Hmax] | [_ Hmax]];
      fold u in Hmax; [lia |].
    pose proof (mantissa_normal Hmax) as H2. split.
    - apply pow2_lt_inv. apply Qle_lt_trans with x; [| done].
      rewrite Z.add_comm, pow2_add. unfold x.
      apply Qmult_le_compat_r; [| apply Qlt_le_weak, pow2_pos].
      rewrite pow2_Z by lia. by rewrite <- Zle_Qle.
    - intros Hm. apply pow2_lt_inv. apply Qle_lt_trans with x; [| done].
      rewrite Z.add_comm, pow2_add. unfold x. rewrite Hm.
      rewrite pow2_Z by lia. apply Qle_refl. }
  assert (Hlow : (-1074 <= u)%Z) by lia.
  destruct (decide (m = 2 ^ 53)%Z) as [Hm | Hm].
  - exists (2 ^ 52)%Z, (u + 1)%Z. split; [lia |]. split; [lia |].
    unfold x. rewrite Hm. fold (pow2 (u + 1)). rewrite Z.add_comm, pow2_add.
    rewrite Qmult_assoc. apply Qmult_comp; [| reflexivity].
    change (pow2 1) with (inject_Z 2). by rewrite <- inject_Z_mult.
  - exists m, u. split; [lia |]. split; [lia | reflexivity].
Qed.

Lemma rounded_rounds_to : x < pow2 1024 → rounds_to q x.
Proof.
  intros Hx. split; [by apply rounded_representable |].
  split; [apply nearest_of_all | apply tie_to_even].
Qed.

Lemma rounded_nonneg : 0 <= x.
Proof.
  unfold x. apply Qmult_le_0_compat; [| apply Qlt_le_weak, pow2_pos].
  change 0 with (inject_Z 0). rewrite <- Zle_Qle. apply mantissa_nonneg.
Qed.

Lemma rounded_bound (b : Z) : q < pow2 b → x <= pow2 (Z.max b (-1021)).
Proof.
  intros Hb. unfold x.
  assert (He : (e < b)%Z).
  { apply pow2_lt_inv. apply Qle_lt_trans with q; [| done].
    apply (binade_spec q Hq). }
  apply Qle_trans with (pow2 53 * pow2 u).
  - apply Qmult_le_compat_r; [| apply Qlt_le_weak, pow2_pos].
    rewrite pow2_Z by lia. rewrite <- Zle_Qle. apply mantissa_upper.
  - rewrite <- pow2_add. apply pow2_le. lia.
Qed.

End Nearest.

Lemma nearest_double_finite q x :
  0 < q → nearest_double q = Finite x → rounds_to q x ∧ 0 <= x.
Proof.
  intros Hq. unfold nearest_double.
  destruct (Qle_bool _ _) eqn:E; [done |]. intros [= <-].
  assert (Hlt : inject_Z (round_half_even (q / pow2 (Z.max (binade q - 52) (-1074))))
                * pow2 (Z.max (binade q - 52) (-1074)) < pow2 1024).
  { apply Qnot_le_lt. intros H. apply Qle_bool_iff in H. congruence. }
  split.
  - apply (rounds_to_proper _ _ _ (Qeq_sym _ _ (Qred_correct _))).
    by apply rounded_rounds_to.
  - rewrite Qred_correct. by apply rounded_nonneg.
Qed.

Lemma nearest_double_in_range q :
  0 < q → q < pow2 1023 → ∃ x, nearest_double q = Finite x.
Proof.
  intros Hq Hb. unfold nearest_double.
  destruct (Qle_bool _ _) eqn:E; [| by eexists].
  apply Qle_bool_iff in E. pose proof (rounded_bound q Hq 1023 Hb) as H.
  change (Z.max 1023 (-1021)) with 1023%Z in H.
  pose proof (pow2_lt 1023 1024 eq_refl). cbv zeta in H. lra.
Qed.


(** ** The doubles around 0 and around 300 *)

Lemma representable_0 : representable 0.
Proof. exists 0%Z, 0%Z. split; [done |]. split; [lia | reflexivity]. Qed.

Lemma representable_300 : representable 300.
Proof. exists 75%Z, 2%Z. split; [done |]. split; [lia | reflexivity]. Qed.

Lemma representable_below_300 : representable (300 - pow2 (-44)).
Proof.
  exists (300 * 2 ^ 44 - 1)%Z, (-44)%Z. split; [done |]. split; [lia |].
  vm_compute. reflexivity.
Qed.

Lemma representable_least : representable (pow2 (-1074)).
Proof.
  exists 1%Z, (-1074)%Z. split; [done |]. split; [lia |].
  unfold pow2. ring.
Qed.

Lemma no_double_just_below_300 y :
  representable y → y < 300 → y <= 300 - pow2 (-44).
Proof.
  intros (m & u & Hm & Hu & Hy) Hlt.
  destruct (Z.le_gt_cases (-44) u) as [Hle | Hgt].
  - assert (Hgrid : y == inject_Z (m * 2 ^ (u + 44)) * pow2 (-44)).
    { rewrite Hy, inject_Z_mult. rewrite <- pow2_Z by lia.
      rewrite <- Qmult_assoc, <- pow2_add.
      replace (u + 44 + -44)%Z with u by lia. reflexivity. }
    assert (H300 : 300 == inject_Z (300 * 2 ^ 44) * pow2 (-44))
      by (vm_compute; reflexivity).
    rewrite Hgrid, H300 in Hlt.
    apply Qmult_lt_r in Hlt; [| apply pow2_pos]. rewrite <- Zlt_Qlt in Hlt.
    assert (Hk : (m * 2 ^ (u + 44) + 1 <= 300 * 2 ^ 44)%Z) by lia.
    rewrite Zle_Qle, inject_Z_plus in Hk. change (inject_Z 1) with 1 in Hk.
    rewrite Hgrid, H300. pose proof (pow2_pos (-44)) as Hg. nra.
  - apply Qle_trans with 256; [| vm_compute; discriminate].
    rewrite Hy. apply Qle_trans with (pow2 53 * pow2 (-45)); [| vm_compute; discriminate].
    apply Qle_trans with (pow2 53 * 2 ^ u).
    + apply Qmult_le_compat_r; [| apply Qlt_le_weak, pow2_pos].
      rewrite pow2_Z by lia. rewrite <- Zle_Qle. lia.
    + apply Qmult_le_l; [apply pow2_pos |]. apply pow2_le. lia.
Qed.

Lemma no_double_just_above_0 y : representable y → 0 < y → pow2 (-1074) <= y.
Proof.
  intros (m & u & Hm & Hu & Hy) Hlt. rewrite Hy in Hlt |- *.
  assert (Hm1 : (1 <= m)%Z).
  { destruct (Z.le_gt_cases m 0) as [H | H]; [| lia].
    rewrite Zle_Qle in H. change (inject_Z 0) with 0 in H.
    pose proof (pow2_pos u) as Hp. unfold pow2 in Hp. nra. }
  rewrite Zle_Qle in Hm1. change (inject_Z 1) with 1 in Hm1.
  pose proof (pow2_le (-1074) u (proj1 Hu)) as Hp.
  pose proof (pow2_pos (-1074)) as Hp'. unfold pow2 in *. nra.
Qed.

(** A rational rounds to a double above 0 and below 300 exactly when it is
    above half the least positive double and below the point half-way
    between 300 and the double before it. *)
Lemma rounds_to_duration q x :
  rounds_to q x →
  (0 < x ∧ x < 300) ↔ (pow2 (-1075) < q ∧ q < 300 - pow2 (-45)).
Proof.
  intros (Hr & Hn & Ht).
  pose proof (pow2_pos (-1075)) as Hlo.
  pose proof (pow2_pos (-45)) as Hg.
  assert (Hs : pow2 (-1074) == 2 * pow2 (-1075)).
  { change (-1074)%Z with (1 + -1075)%Z. rewrite pow2_add. reflexivity. }
  assert (Hp : pow2 (-44) == 2 * pow2 (-45)).
  { change (-44)%Z with (1 + -45)%Z. rewrite pow2_add. reflexivity. }
  pose proof (Hn 0 representable_0) as N0.
  pose proof (Hn 300 representable_300) as N300.
  pose proof (Hn _ representable_below_300) as NP.
  pose proof (Hn _ representable_least) as NS.
  pose proof (no_double_just_below_300 x Hr) as G1.
  pose proof (no_double_just_above_0 x Hr) as G2.
  split.
  - intros [H0 H300]. specialize (G1 H300). specialize (G2 H0). split.
    + apply Qnot_le_lt. intros Hq.
      assert (Hx : x == pow2 (-1074) ∧ q == pow2 (-1075)).
      { revert N0. apply Qabs_case; intros; revert N0; apply Qabs_case; intros;
          split; lra. }
      destruct Hx as [Hx Hq'].
      destruct (Ht 0 representable_0) as [k Hk].
      * intros E. lra.
      * rewrite Hx, Hq'. apply Qabs_case; intros; apply Qabs_case; intros; lra.
      * rewrite Hx in Hk. unfold Qminus in Hk. rewrite Qplus_0_r, Qabs_pow2 in Hk.
        assert (Hk' : inject_Z 1 * pow2 (-1074) == inject_Z (2 * k) * pow2 (-1074))
          by (rewrite <- Hk; ring).
        apply Qmult_inj_r in Hk'; [| apply pow2_nonzero].
        apply (proj1 (inject_Z_injective _ _)) in Hk'. lia.
    + apply Qnot_le_lt. intros Hq.
      assert (Hx : x == 300 - pow2 (-44) ∧ q == 300 - pow2 (-45)).
      { revert N300. apply Qabs_case; intros; revert N300; apply Qabs_case; intros;
          split; lra. }
      destruct Hx as [Hx Hq'].
      destruct (Ht 300 representable_300) as [k Hk].
      * intros E. lra.
      * rewrite Hx, Hq'. apply Qabs_case; intros; apply Qabs_case; intros; lra.
      * rewrite Hx in Hk.
        assert (Hd : Qabs (300 - pow2 (-44) - 300) == pow2 (-44)).
        { apply Qabs_case; intros; lra. }
        rewrite Hd in Hk.
        assert (Hk' : inject_Z (300 * 2 ^ 44 - 1) * pow2 (-44)
                      == inject_Z (2 * k) * pow2 (-44)).
        { rewrite <- Hk. vm_compute. reflexivity. }
        apply Qmult_inj_r in Hk'; [| apply pow2_nonzero].
        apply (proj1 (inject_Z_injective _ _)) in Hk'. lia.
  - intros [Hq1 Hq2]. split.
    + apply Qnot_le_lt. intros Hx. revert NS.
      apply Qabs_case; intros; revert NS; apply Qabs_case; intros; lra.
    + apply Qnot_le_lt. intros Hx. revert NP.
      apply Qabs_case; intros; revert NP; apply Qabs_case; intros; lra.
Qed.

End Doubles.

(** ** The number pattern and the numerals *)

Section Numerals.
Import JsNumber Numeral.
Implicit Types (c : ascii) (l ds rest : list ascii).

Lemma head_in_app (P : ascii → Prop) l1 l2 :
  head_in P l1 → head_in P l2 → head_in P (l1 ++ l2).
Proof. by destruct l1. Qed.

Lemma is_digit_digit c : is_digit c = true → digit c (digit_val c).
Proof.
  destruct c as [[] [] [] [] [] [] [] []]; try discriminate; intros _; constructor.
Qed.

Lemma digit_is_digit c d : digit c d → is_digit c = true ∧ digit_val c = d.
Proof. by intros []. Qed.

Lemma digits_val_snoc ds c :
  digits_val (ds ++ [c]) = 10 * digits_val ds + digit_val c.
Proof. unfold digits_val. by rewrite fold_left_app. Qed.

Lemma digits_spec ds n :
  digits ds n ↔ Forall (λ c, is_digit c = true) ds ∧ digits_val ds = n.
Proof.
  split.
  - induction 1 as [|ds n c d _ [IH1 IH2] Hd]; [done |].
    apply digit_is_digit in Hd as [Hd1 Hd2]. split.
    + apply Forall_app. split; [done | by constructor].
    + by rewrite digits_val_snoc, IH2, Hd2.
  - revert n. induction ds as [|c ds IH] using rev_ind; intros n [Hall <-].
    + constructor.
    + apply Forall_app in Hall as [Hall Hc]. apply Forall_cons in Hc as [Hc _].
      rewrite digits_val_snoc. constructor; [by apply IH | by apply is_digit_digit].
Qed.

Lemma span_digits_spec l ds rest :
  span_digits l = (ds, rest) →
  l = ds ++ rest ∧ Forall (λ c, is_digit c = true) ds.
Proof.
  revert ds rest. induction l as [|c l IH]; intros ds rest; simpl.
  - by intros [= <- <-].
  - destruct (is_digit c) eqn:Hc.
    + destruct (span_digits l) as [ds' rest'] eqn:E. intros [= <- <-].
      destruct (IH ds' rest' eq_refl) as [-> Hall]. split; [done |].
      by constructor.
    + by intros [= <- <-].
Qed.

Lemma span_digits_app ds rest :
  Forall (λ c, is_digit c = true) ds →
  head_in (λ c, is_digit c = false) rest →
  span_digits (ds ++ rest) = (ds, rest).
Proof.
  intros Hall Hrest. induction Hall as [|c ds Hc _ IH]; simpl.
  - destruct rest as [|c r]; [done |]. simpl in *. by rewrite Hrest.
  - by rewrite Hc, IH.
Qed.

Lemma take_sign_spec l neg rest :
  take_sign l = (neg, rest) →
  ∃ sg, l = sg ++ rest ∧ sign sg (if neg then -1 else 1).
Proof.
  unfold take_sign. destruct l as [|c r].
  - intros [= <- <-]. exists []. split; [done | constructor].
  - destruct (decide (c = "-"%char)) as [-> | Hm].
    { intros [= <- <-]. exists ["-"%char]. split; [done | constructor]. }
    destruct (decide (c = "+"%char)) as [-> | Hp].
    { intros [= <- <-]. exists ["+"%char]. split; [done | constructor]. }
    destruct c as [[] [] [] [] [] [] [] []]; try congruence;
      intros [= <- <-]; exists []; (split; [done | constructor]).
Qed.

Lemma take_sign_app sg sv rest :
  sign sg sv →
  head_in (λ c, c ≠ "-"%char ∧ c ≠ "+"%char) rest →
  take_sign (sg ++ rest) = (bool_decide (sv = -1), rest).
Proof.
  intros [] Hrest; [| done | done]. simpl. destruct rest as [|c r]; [done |].
  destruct Hrest as [Hm Hp].
  destruct c as [[] [] [] [] [] [] [] []]; try congruence; done.
Qed.

Lemma read_fraction_dot rest :
  match "."%char :: rest with
  | "."%char :: r => span_digits r
  | _ => ([], "."%char :: rest)
  end = span_digits rest.
Proof. done. Qed.

Lemma read_fraction_other l :
  head_in (λ c, c ≠ "."%char) l →
  match l with
  | "."%char :: r => span_digits r
  | _ => ([], l)
  end = ([], l).
Proof.
  destruct l as [|c r]; [done |]. simpl. intros Hc.
  destruct c as [[] [] [] [] [] [] [] []]; try congruence; done.
Qed.

Lemma literal_scale (m e : Z) :
  ((if 0 <=? e then (m * 10 ^ e) # 1 else m # Z.to_pos (10 ^ (- e)))
   == inject_Z m * 10 ^ e)%Q.
Proof.
  destruct (Z.leb_spec 0 e) as [He | He].
  - change ((m * 10 ^ e) # 1) with (inject_Z (m * 10 ^ e)).
    rewrite inject_Z_mult. by rewrite (Zpower_Qpower 10).
  - rewrite Qmake_Qdiv. rewrite Z2Pos.id by (apply Z.pow_pos_nonneg; lia).
    rewrite (Zpower_Qpower 10) by lia. rewrite Qpower_opp.
    change (inject_Z 10) with 10%Q. field. apply Qpower_not_0. discriminate.
Qed.

Lemma dot_or_not l :
  (∃ r, l = "."%char :: r) ∨ head_in (λ c, c ≠ "."%char) l.
Proof.
  destruct l as [|c r]; [by right |].
  destruct (decide (c = "."%char)) as [-> | Hc]; [left; by eexists | by right].
Qed.

Lemma literal_value_spec (p : FloatParts) (q : Q) :
  literal_value p = Some q
  ↔ int_digits p ++ frac_digits p ≠ []
    ∧ q = (let m := digits_val (int_digits p ++ frac_digits p) in
           let m := if negative p then - m else m in
           let e := exponent p - Z.of_nat (length (frac_digits p)) in
           if 0 <=? e then (m * 10 ^ e) # 1 else m # Z.to_pos (10 ^ (- e))).
Proof.
  unfold literal_value. destruct (int_digits p ++ frac_digits p); [naive_solver |].
  split; [by intros [= <-] | by intros [_ ->]].
Qed.

Lemma match_float_denotes s p q :
  match_float s = Some p → literal_value p = Some q → denotes s q.
Proof.
  unfold match_float.
  destruct (take_sign (JsString.to_list s)) as [neg l1] eqn:E1.
  destruct (span_digits l1) as [ip l2] eqn:E2.
  destruct (match l2 with
            | "."%char :: r => span_digits r
            | _ => ([], l2)
            end) as [fp l3] eqn:E3.
  apply take_sign_spec in E1 as (sg & Hs & Hsg).
  apply span_digits_spec in E2 as [-> Hip].
  assert (Hdot : ∃ dot, l2 = dot ++ l3 ∧ fraction dot fp
                        ∧ Forall (λ c, is_digit c = true) fp).
  { destruct (dot_or_not l2) as [[r ->] | Hc].
    - change (span_digits r = (fp, l3)) in E3.
      apply span_digits_spec in E3 as [-> H].
      exists ("."%char :: fp). split; [done |]. split; [constructor | done].
    - rewrite read_fraction_other in E3 by done. injection E3 as <- <-.
      exists []. split; [done |]. split; constructor. }
  destruct Hdot as (dot & -> & Hdot & Hfp). intros Hp Hv.
  assert (Hex : ∃ ev, exponent_part l3 ev ∧ p = mkFloatParts neg ip fp ev).
  { destruct l3 as [|c r].
    - injection Hp as <-. exists 0. split; [constructor | done].
    - destruct (bool_decide (c = "e"%char ∨ c = "E"%char)) eqn:Hc; [| done].
      apply bool_decide_eq_true in Hc.
      destruct (take_sign r) as [eneg r'] eqn:E4.
      destruct (span_digits r') as [[|d ds] [|]] eqn:E5; try done.
      injection Hp as <-. apply take_sign_spec in E4 as (sg' & -> & Hsg').
      apply span_digits_spec in E5 as [-> Hds]. rewrite app_nil_r.
      exists ((if eneg then -1 else 1) * digits_val (d :: ds)). split.
      + constructor; [done | done | done | by apply digits_spec].
      + by destruct eneg; f_equal; lia. }
  destruct Hex as (ev & Hex & ->).
  apply literal_value_spec in Hv as [Hne ->]. cbn [int_digits frac_digits] in *.
  exists sg, (if neg then -1 else 1), ip, dot, fp, (digits_val (ip ++ fp)), l3, ev.
  split; [done |]. split; [done |]. split; [done |].
  split; [apply digits_spec; split; [by apply Forall_app | done] |].
  split; [done |]. split; [done |]. cbn -[Z.pow Z.mul Qpower].
  rewrite literal_scale.
  replace ((if neg then -1 else 1) * digits_val (ip ++ fp))
    with (if neg then - digits_val (ip ++ fp) else digits_val (ip ++ fp))
    by (destruct neg; lia).
  reflexivity.
Qed.

Lemma head_in_impl (P R : ascii → Prop) l :
  (∀ c, P c → R c) → head_in P l → head_in R l.
Proof. destruct l; simpl; auto. Qed.

Lemma head_digits ds :
  Forall (λ c, is_digit c = true) ds → head_in (λ c, is_digit c = true) ds.
Proof. by intros []. Qed.

Lemma head_fraction dot fp :
  fraction dot fp → head_in (λ c, c = "."%char) dot.
Proof. by intros []. Qed.

Lemma head_exponent ex ev :
  exponent_part ex ev → head_in (λ c, c = "e"%char ∨ c = "E"%char) ex.
Proof. by intros []. Qed.

Lemma sign_value sg sv (n : Z) :
  sign sg sv → (if bool_decide (sv = -1) then - n else n) = sv * n.
Proof. intros []; simpl; lia. Qed.

Lemma denotes_match_float s q :
  denotes s q →
  ∃ p q', match_float s = Some p ∧ literal_value p = Some q' ∧ (q' == q)%Q.
Proof.
  intros (sg & sv & ip & dot & fp & m & ex & ev
          & Hs & Hsg & Hdot & Hm & Hne & Hex & Hq).
  apply digits_spec in Hm as [Hall <-].
  pose proof Hall as Hall'. apply Forall_app in Hall' as [Hip Hfp].
  pose proof (head_digits ip Hip) as Hh1.
  pose proof (head_fraction dot fp Hdot) as Hh2.
  pose proof (head_exponent ex ev Hex) as Hh3.
  assert (Hmatch : match_float s
                   = Some (mkFloatParts (bool_decide (sv = -1)) ip fp ev)).
  { assert (Hsign : head_in (λ c, c ≠ "-"%char ∧ c ≠ "+"%char) (ip ++ dot ++ ex)).
    { repeat apply head_in_app; [revert Hh1 | revert Hh2 | revert Hh3];
        apply head_in_impl.
      - intros c Hc; split; intros ->; discriminate Hc.
      - intros c ->; split; discriminate.
      - intros c [-> | ->]; split; discriminate. }
    assert (Hnodigit : head_in (λ c, is_digit c = false) (dot ++ ex)).
    { apply head_in_app; [revert Hh2 | revert Hh3]; apply head_in_impl.
      - by intros c ->.
      - by intros c [-> | ->]. }
    unfold match_float. rewrite Hs.
    rewrite (take_sign_app sg sv _ Hsg Hsign).
    rewrite (span_digits_app ip _ Hip Hnodigit).
    assert (Hfrac : match dot ++ ex with
                    | "."%char :: r => span_digits r
                    | _ => ([], dot ++ ex)
                    end = (fp, ex)).
    { destruct Hdot as [|fp].
      - rewrite read_fraction_other; [done |]. revert Hh3. apply head_in_impl.
        intros c [-> | ->]; discriminate.
      - change (span_digits (fp ++ ex) = (fp, ex)). apply span_digits_app; [done |].
        revert Hh3. apply head_in_impl. by intros c [-> | ->]. }
    rewrite Hfrac. destruct Hex as [|c sg' sv' ds n Hc Hsg' Hds Hn]; [done |].
    rewrite bool_decide_eq_true_2 by done.
    apply digits_spec in Hn as [Hds' <-].
    assert (Hsign' : head_in (λ c, c ≠ "-"%char ∧ c ≠ "+"%char) ds).
    { generalize (head_digits ds Hds'). apply head_in_impl.
      intros c' Hc'; split; intros ->; discriminate Hc'. }
    rewrite (take_sign_app sg' sv' _ Hsg' Hsign').
    rewrite <- (app_nil_r ds) at 1. rewrite span_digits_app by done.
    destruct ds as [|d ds]; [done |]. by rewrite (sign_value sg' sv'). }
  rewrite Hmatch.
  destruct (literal_value (mkFloatParts (bool_decide (sv = -1)) ip fp ev))
    as [q'|] eqn:Hv.
  - eexists _, q'. split; [done |]. split; [done |].
    apply literal_value_spec in Hv as [_ ->]. cbn [int_digits frac_digits negative exponent].
    cbv zeta. rewrite literal_scale, Hq. by rewrite (sign_value sg sv).
  - exfalso. unfold literal_value in Hv. cbn [int_digits frac_digits] in Hv.
    by destruct (ip ++ fp).
Qed.

End Numerals.

(** ** The validator and the numerals *)

Section Validator.
Import JsNumber Numeral Double.
Local Open Scope Q_scope.

Lemma Qlt_bool_iff a b : Qlt_bool a b = true ↔ a < b.
Proof. unfold Qlt_bool, Qlt. apply Z.ltb_lt. Qed.

Lemma rounds_to_proper_l q q' x : q == q' → rounds_to q x → rounds_to q' x.
Proof.
  intros E (Hr & Hn & Ht). split; [done |]. split.
  - intros y Hy. rewrite <- E. by apply Hn.
  - intros y Hy Hne Heq. rewrite <- E in Heq. by apply Ht.
Qed.

Lemma to_double_positive q x :
  to_double q = Finite x → 0 < x → 0 < q ∧ rounds_to q x.
Proof.
  unfold to_double. destruct (Qcompare_spec q 0) as [E | E | E].
  - intros [= <-] H. lra.
  - destruct (nearest_double (- q)) as [x'| |] eqn:Hn; try done.
    intros [= <-] H. apply nearest_double_finite in Hn as [_ Hx']; lra.
  - intros Hn H. split; [done |]. by apply nearest_double_finite in Hn as [Hn _].
Qed.

Lemma to_double_duration q x :
  rounds_to q x → 0 < x → x < 300 →
  ∃ x', to_double q = Finite x' ∧ 0 < x' ∧ x' < 300.
Proof.
  intros Hr H0 H300.
  destruct (proj1 (rounds_to_duration q x Hr) (conj H0 H300)) as [Hlo Hhi].
  pose proof (pow2_pos (-1075)) as Hp. pose proof (pow2_pos (-45)) as Hp'.
  assert (Hq : 0 < q) by lra.
  assert (Hb : q < pow2 1023).
  { apply Qlt_trans with 300; [lra |]. vm_compute. reflexivity. }
  destruct (nearest_double_in_range q Hq Hb) as [x' Hx'].
  exists x'. unfold to_double.
  destruct (Qcompare_spec q 0) as [E | E | E]; [lra | lra |].
  split; [done |]. apply nearest_double_finite in Hx' as [Hr' _]; [| done].
  by apply (rounds_to_duration q x' Hr').
Qed.

Lemma denotes_has_digit s q :
  denotes s q → ∃ c, c ∈ JsString.to_list s ∧ is_digit c = true.
Proof.
  intros (sg & sv & ip & dot & fp & m & ex & ev
          & Hs & Hsg & Hdot & Hm & Hne & Hex & Hq).
  apply digits_spec in Hm as [Hall _]. rewrite Hs.
  destruct ip as [|c ip].
  - destruct fp as [|c fp]; [done |]. inversion Hdot; subst.
    apply Forall_cons in Hall as [Hc _]. exists c. split; [| done].
    rewrite !elem_of_app. right. right. left. set_solver.
  - apply Forall_cons in Hall as [Hc _]. exists c. split; [| done].
    rewrite !elem_of_app. right. left. set_solver.
Qed.

Lemma denotes_not_special s q :
  denotes s q → s ∉ [""; "."; ","; "-"; "+"]%string.
Proof.
  intros (c & Hin & Hc)%denotes_has_digit Hs.
  repeat (apply elem_of_cons in Hs as [-> | Hs]);
    [..| by apply elem_of_nil in Hs]; simpl in Hin;
    try (by apply elem_of_nil in Hin);
    apply list_elem_of_singleton in Hin as ->; discriminate Hc.
Qed.

(** The validator accepts a text exactly when it is a numeral that is read
    as a number above 0 and below 300, and then [Number] gives that
    number. *)
Lemma isFloat_reads s :
  isFloat 0 300 s = true →
  ∃ x, toNumber s = Finite x ∧ reads_as s x ∧ 0 < x ∧ x < 300.
Proof.
  unfold isFloat, toNumber. intros [_ H]%andb_true_iff.
  destruct (match_float s) as [p|] eqn:Hp; [| done]. unfold number_value in *.
  destruct (literal_value p) as [q|] eqn:Hv; [| done].
  destruct (to_double q) as [x|neg|] eqn:Hx; [| by destruct neg | done].
  apply andb_true_iff in H as [H300 H0]. simpl in H0, H300.
  apply Qlt_bool_iff in H0, H300.
  destruct (to_double_positive q x Hx H0) as [Hq Hr].
  exists x. split; [done |]. split; [| done].
  exists q. split; [by apply (match_float_denotes s p) | done].
Qed.

Lemma reads_isFloat s x :
  reads_as s x → 0 < x → x < 300 → isFloat 0 300 s = true.
Proof.
  intros (q & Hd & Hr) H0 H300. unfold isFloat.
  rewrite bool_decide_eq_false_2 by (by apply (denotes_not_special s q)).
  destruct (denotes_match_float s q Hd) as (p & q' & -> & Hv & E).
  unfold number_value. rewrite Hv.
  apply (rounds_to_proper_l _ q') in Hr; [| by symmetry].
  destruct (to_double_duration q' x Hr H0 H300) as (x' & -> & H0' & H300').
  simpl. apply andb_true_iff. by split; apply Qlt_bool_iff.
Qed.

Lemma isFloat_duration (f : option string) :
  isFloat 0 300 (field_text f) = true ↔ is_duration f.
Proof.
  split.
  - intros (x & _ & Hr & H0 & H300)%isFloat_reads. by exists x.
  - intros (x & Hr & H0 & H300). by apply (reads_isFloat _ x).
Qed.

End Validator.


(** A numeral is a duration exactly when its value is above half the least
    positive double and below the point half-way between 300 and the
    double before it. *)
Lemma is_duration_exact (f : option string) :
  is_duration f
  ↔ ∃ q, Numeral.denotes (field_text f) q
         ∧ (JsNumber.pow2 (-1075) < q)%Q ∧ (q < 300 - JsNumber.pow2 (-45))%Q.
Proof.
  split.
  - intros (x & (q & Hd & Hr) & H0 & H300). exists q. split; [done |].
    by apply (rounds_to_duration q x Hr).
  - intros (q & Hd & Hlo & Hhi).
    pose proof (pow2_pos (-1075)) as Hp. pose proof (pow2_pos (-45)) as Hp'.
    assert (Hq : (0 < q)%Q) by lra.
    assert (Hb : (q < JsNumber.pow2 1023)%Q).
    { apply Qlt_trans with 300%Q; [lra |]. vm_compute. reflexivity. }
    destruct (nearest_double_in_range q Hq Hb) as [x Hx].
    apply nearest_double_finite in Hx as [Hr _]; [| done].
    exists x. split; [by exists q |]. by apply (rounds_to_duration q x Hr).
Qed.

(** ** Creating a post *)

Section CreatePost.
Implicit Types (r : CreatePostReq) (db : Db) (s : string).

Lemma create_errors_nil r :
  create_errors r = [] ↔ is_duration (cp_durationSec r).
Proof.
  rewrite <- isFloat_duration. unfold create_errors, failing.
  destruct (JsNumber.isFloat 0 (300 # 1) (field_text (cp_durationSec r))).
  - by rewrite filter_cons_False by (simpl; congruence).
  - by rewrite filter_cons_True by done.
Qed.

Lemma truthy_app_r (a b : string) :
  JsString.truthy b = true → JsString.truthy (a +:+ b) = true.
Proof. destruct a; [done | by intros _]. Qed.

Lemma video_url_truthy env r f : JsString.truthy (video_url env r f) = true.
Proof.
  unfold video_url. apply truthy_app_r. reflexivity.
Qed.

Lemma store_upload_none db : store_upload None db = db.
Proof. done. Qed.

Lemma store_upload_users file db : users (store_upload file db) = users db.
Proof. by destruct file. Qed.

Lemma store_upload_posts file db : posts (store_upload file db) = posts db.
Proof. by destruct file. Qed.

End CreatePost.

(** The store after [upload.single], as a store of its own with the same
    collections. *)
Ltac upload_stored db' Hus Hps :=
  cbv zeta;
  match goal with
  | |- context [store_upload ?f ?db] =>
      pose proof (store_upload_users f db) as Hus;
      pose proof (store_upload_posts f db) as Hps;
      set (db' := store_upload f db) in *; clearbody db'
  end.





Example createPost_45 :
  (createPost sample_env 2000 1%N (sample_create "45") sample_db).2
  = Json (3%N, mkPost 1%N "http://host/uploads/a.mp4" "hello"
                      ["fun"; "cats"] (45 # 1) [] [] 0 false 2000).
Proof. vm_compute. reflexivity. Qed.

(** Texts at the two ends of the range: the double nearest to
    299.99999999999999999 is 300 and the double nearest to 1e-400 is 0, so
    neither is a duration; 299.99999999999997 and 5e-324 are. *)
Example durations_at_the_ends :
  ¬ is_duration (Some "299.99999999999999999")
  ∧ ¬ is_duration (Some "1e-400")
  ∧ ¬ is_duration (Some "-4.5")
  ∧ ¬ is_duration (Some "2.4e-324")
  ∧ is_duration (Some "299.99999999999997")
  ∧ is_duration (Some "5e-324")
  ∧ is_duration (Some ".5e1").
Proof.
  repeat split;
    first [ by apply isFloat_duration; vm_compute
          | intros Hd; apply isFloat_duration in Hd; vm_compute in Hd;
            discriminate Hd ].
Qed.

Example createPost_rounds_to_300 :
  createPost sample_env 2000 1%N (sample_create "299.99999999999999999") sample_db
  = (sample_db, ValidationErrors ["durationSec"]).
Proof. vm_compute. reflexivity. Qed.

(** ** Hashtags *)

Section Hashtags.
Import JsString.
Implicit Types (s t : string) (c : ascii).

Lemma lower_char_idemp c : lower_char (lower_char c) = lower_char c.
Proof. by destruct c as [[] [] [] [] [] [] [] []]. Qed.

Lemma is_space_lower_char c : is_space (lower_char c) = is_space c.
Proof. by destruct c as [[] [] [] [] [] [] [] []]. Qed.

Lemma toLowerCase_idemp s : toLowerCase (toLowerCase s) = toLowerCase s.
Proof.
  induction s as [|c s IH]; [done |]. simpl. by rewrite lower_char_idemp, IH.
Qed.

Lemma toLowerCase_empty s : toLowerCase s = "" ↔ s = "".
Proof. by destruct s. Qed.

Lemma trimStart_lower s : trimStart (toLowerCase s) = toLowerCase (trimStart s).
Proof.
  induction s as [|c s IH]; [done |]. simpl.
  rewrite is_space_lower_char. by destruct (is_space c).
Qed.

Lemma trimEnd_lower s : trimEnd (toLowerCase s) = toLowerCase (trimEnd s).
Proof.
  induction s as [|c s IH]; [done |]. simpl. rewrite IH.
  destruct (trimEnd s) as [|d r]; simpl.
  - rewrite is_space_lower_char. by destruct (is_space c).
  - done.
Qed.

Lemma trim_lower s : trim (toLowerCase s) = toLowerCase (trim s).
Proof. unfold trim. by rewrite trimStart_lower, trimEnd_lower. Qed.

Lemma trimEnd_cons c s :
  trimEnd (String c s)
  = match trimEnd s with
    | EmptyString => if is_space c then EmptyString else String c EmptyString
    | r => String c r
    end.
Proof. done. Qed.

Lemma trimEnd_idemp s : trimEnd (trimEnd s) = trimEnd s.
Proof.
  induction s as [|c s IH]; [done |]. rewrite trimEnd_cons.
  destruct (trimEnd s) as [|d r] eqn:E.
  - destruct (is_space c) eqn:Ec; simpl; [done | by rewrite Ec].
  - by rewrite trimEnd_cons, IH.
Qed.

(** What [trimStart] leaves is empty or starts with a visible character. *)
Lemma trimStart_head s :
  trimStart s = "" ∨ ∃ c r, trimStart s = String c r ∧ is_space c = false.
Proof.
  induction s as [|c s IH]; [by left |]. simpl.
  destruct (is_space c) eqn:Ec; [done |]. right. by exists c, s.
Qed.

Lemma trimEnd_head c r :
  is_space c = false → ∃ r', trimEnd (String c r) = String c r'.
Proof.
  intros Ec. simpl. destruct (trimEnd r); [rewrite Ec |]; by eexists.
Qed.

Lemma trim_idemp s : trim (trim s) = trim s.
Proof.
  unfold trim. destruct (trimStart_head s) as [E | (c & r & E & Ec)].
  - by rewrite E.
  - rewrite E. destruct (trimEnd_head c r Ec) as [r' Er].
    assert (Hs : trimStart (trimEnd (String c r)) = trimEnd (String c r)).
    { rewrite Er. simpl. by rewrite Ec. }
    by rewrite Hs, trimEnd_idemp.
Qed.

(** The schema setters put every hashtag in lower case and trim it. *)
Lemma cast_hashtag_lower_trimmed s :
  lowercase (cast_hashtag s) ∧ trimmed (cast_hashtag s).
Proof.
  unfold lowercase, trimmed, cast_hashtag. split.
  - apply toLowerCase_idemp.
  - by rewrite trim_lower, trim_idemp.
Qed.

(** A tag that the string branch keeps stays non-empty in the store. *)
Lemma cast_hashtag_kept s :
  truthy (trim s) = true → cast_hashtag (trim s) ≠ "".
Proof.
  unfold cast_hashtag. rewrite trim_idemp, toLowerCase_empty.
  by destruct (trim s).
Qed.

Lemma parse_string_normalized s :
  Forall normalized_hashtag (cast_hashtag <$> parse_hashtags (TagString s)).
Proof.
  apply Forall_fmap, Forall_forall. intros t Ht. simpl in Ht.
  apply list_elem_of_In, filter_In in Ht as [Ht Htruthy].
  apply list_elem_of_In, list_elem_of_fmap in Ht as (piece & -> & _).
  destruct (cast_hashtag_lower_trimmed (trim piece)) as [Hl Ht].
  split; [done |]. split; [done |]. by apply cast_hashtag_kept.
Qed.

End Hashtags.

(** X23. When the hashtags come as one string (or are missing), every
    hashtag of the created post is lower case, trimmed and not empty; when
    they come as an array, every stored hashtag is lower case and
    trimmed. *)
Lemma createPost_hashtags env now uid r db db' i p :
  createPost env now uid r db = (db', Json (i, p)) →
  Forall (λ s, lowercase s ∧ trimmed s) (hashtags p)
  ∧ (match cp_hashtags r with
     | Some (TagArray _) => True
     | _ => Forall normalized_hashtag (hashtags p)
     end).
Proof.
  unfold createPost. destruct (create_errors r); [| done].
  destruct (cp_file r) as [f|]; [| done].
  destruct (JsNumber.toNumber _) as [v| |]; [| done | done].
  destruct (post_schema_ok _); [| done].
  intros [= <- <- <-]. simpl. split.
  - apply Forall_fmap, Forall_forall. intros s _.
    apply cast_hashtag_lower_trimmed.
  - destruct (cp_hashtags r) as [[s | l |]|]; simpl; try done.
    apply parse_string_normalized.
Qed.

(** C8 (the code departs from it). A request that gives its hashtags as an
    array with an empty entry succeeds and stores an empty hashtag: the
    array branch of the handler does not drop empty entries, as the string
    branch does. *)
Theorem createPost_array_keeps_empty_hashtag :
  ∃ db' i p,
    createPost sample_env 2000 1%N (sample_create_array [""; " Fun "]) sample_db
    = (db', Json (i, p))
    ∧ posts db' !! i = Some p
    ∧ hashtags p = [""; "fun"]
    ∧ ¬ Forall normalized_hashtag (hashtags p).
Proof.
  eexists _, _, _. split; [vm_compute; reflexivity |].
  split; [vm_compute; reflexivity |]. split; [reflexivity |].
  intros H. apply Forall_cons in H as [(_ & _ & Hne) _]. by apply Hne.
Qed.

(** ** Comments and replies *)

Section Comments.
Implicit Types (db : Db) (p : Post) (c : Comment) (t : string).

Lemma text_errors_valid t : valid_text t → text_errors (Some t) = [].
Proof.
  intros [H1 H500]. unfold text_errors, failing, isLength, field_text.
  cbn [default id]. apply Nat.leb_le in H1, H500. rewrite H1, H500.
  by rewrite filter_cons_False by (simpl; congruence).
Qed.

Lemma addComment_found now uid i t db p :
  valid_text t → posts db !! i = Some p →
  let c := mkComment (newObjectId db) uid t now [] in
  addComment now uid i (Some t) db
  = (set_posts (<[i := set_comments (comments p ++ [c]) p]> (posts db)) db,
     Json c).
Proof.
  intros Ht Hp c. unfold addComment.
  rewrite (text_errors_valid t Ht), Hp. fold c. by rewrite last_snoc.
Qed.

(** A comment pushed with a new identifier is the one [comments.id] finds. *)
Lemma comment_by_id_pushed c (cs : list Comment) :
  Forall (λ c', comment_id c' ≠ comment_id c) cs →
  comment_by_id (comment_id c) (cs ++ [c]) = Some (length cs, c).
Proof.
  intros Hcs. unfold comment_by_id.
  rewrite list_find_app_r by (by apply list_find_None).
  simpl. by rewrite decide_True.
Qed.

Lemma addReply_found now uid i cid t db p k c :
  valid_text t → posts db !! i = Some p →
  comment_by_id cid (comments p) = Some (k, c) →
  let r := mkReply (newObjectId db) uid t now in
  addReply now uid i cid (Some t) db
  = (set_posts
       (<[i := set_comments
                 (<[k := set_replies (comment_replies c ++ [r]) c]> (comments p))
                 p]> (posts db)) db,
     Json r).
Proof.
  intros Ht Hp Hc r. unfold addReply.
  rewrite (text_errors_valid t Ht), Hp, Hc. fold r. by rewrite last_snoc.
Qed.

End Comments.

(** C9. On a stored post, [addComment] with a valid text followed by
    [addReply] with a valid text on the identifier of the comment that
    [addComment] answered both succeed.  The comment is appended with no
    reply; after the reply the post has the same comments in the same
    places (so as many as after [addComment]), except that this comment now
    has exactly the one reply that [addReply] answered; no other field of
    the post, no other post and no user changes. *)
Theorem addComment_then_addReply (now1 now2 : Z) (uid1 uid2 i : ObjectId)
    (t1 t2 : string) (db : Db) (p : Post) :
  posts db !! i = Some p →
  valid_text t1 → valid_text t2 →
  ∃ db1 c db2 r,
    addComment now1 uid1 i (Some t1) db = (db1, Json c)
    ∧ addReply now2 uid2 i (comment_id c) (Some t2) db1 = (db2, Json r)
    ∧ comment_replies c = []
    ∧ posts db1 !! i = Some (set_comments (comments p ++ [c]) p)
    ∧ posts db2 !! i
      = Some (set_comments (comments p ++ [set_replies [r] c]) p)
    ∧ length (comments p ++ [set_replies [r] c]) = length (comments p ++ [c])
    ∧ length (comment_replies (set_replies [r] c))
      = S (length (comment_replies c))
    ∧ (∀ j, j ≠ i → posts db2 !! j = posts db !! j)
    ∧ users db2 = users db.
Proof.
  intros Hp Ht1 Ht2.
  pose proof (addComment_found now1 uid1 i t1 db p Ht1 Hp) as H1. simpl in H1.
  set (c := mkComment (newObjectId db) uid1 t1 now1 []) in *.
  set (db1 := set_posts (<[i := set_comments (comments p ++ [c]) p]> (posts db)) db)
    in *.
  assert (Hp1 : posts db1 !! i = Some (set_comments (comments p ++ [c]) p))
    by apply lookup_insert_eq.
  assert (Hc : comment_by_id (comment_id c) (comments p ++ [c])
               = Some (length (comments p), c)).
  { apply comment_by_id_pushed, Forall_forall. intros c' Hc'.
    by apply (newObjectId_no_comment db i p). }
  pose proof (addReply_found now2 uid2 i (comment_id c) t2 db1 _ _ _ Ht2 Hp1 Hc)
    as H2.
  simpl in H2. set (r := mkReply (newObjectId db1) uid2 t2 now2) in *.
  rewrite insert_app_r_alt in H2 by done.
  rewrite Nat.sub_diag in H2. simpl in H2.
  eexists db1, c, _, r. split; [exact H1 |]. split; [exact H2 |].
  split; [done |]. split; [done |]. simpl.
  split; [by rewrite lookup_insert_eq |].
  split; [by rewrite !length_app |]. split; [done |].
  split; [| done].
  intros j Hj. by rewrite !lookup_insert_ne.
Qed.

Lemma addComment_then_addReply_witness :
  ∃ db1 c db2 r,
    addComment 10 5%N 2%N (Some "nice") sample_db = (db1, Json c)
    ∧ addReply 20 7%N 2%N (comment_id c) (Some "thanks") db1 = (db2, Json r)
    ∧ comment_replies c = []
    ∧ posts db1 !! 2%N
      = Some (set_comments
                (comments (sample_post [5%N; 7%N] [] 1000) ++ [c])
                (sample_post [5%N; 7%N] [] 1000))
    ∧ posts db2 !! 2%N
      = Some (set_comments
                (comments (sample_post [5%N; 7%N] [] 1000) ++ [set_replies [r] c])
                (sample_post [5%N; 7%N] [] 1000))
    ∧ length (comments (sample_post [5%N; 7%N] [] 1000) ++ [set_replies [r] c])
      = length (comments (sample_post [5%N; 7%N] [] 1000) ++ [c])
    ∧ length (comment_replies (set_replies [r] c))
      = S (length (comment_replies c))
    ∧ (∀ j, j ≠ 2%N → posts db2 !! j = posts sample_db !! j)
    ∧ users db2 = users sample_db.
Proof.
  apply (addComment_then_addReply 10 20 5%N 7%N 2%N "nice" "thanks" sample_db
           (sample_post [5%N; 7%N] [] 1000)).
  - reflexivity.
  - unfold valid_text. simpl. lia.
  - unfold valid_text. simpl. lia.
Defined.

Example addReply_unknown_comment :
  (addReply 20 7%N 2%N 9%N (Some "thanks") sample_db).2
  = Error 404 "Comment not found".
Proof. vm_compute. reflexivity. Qed.

(** ** Logging in *)

Section Login.
Context (env : Env).
Implicit Types (now : Z) (b : LoginBody) (db : Db).

Lemma failing_nil (checks : list (string * bool)) :
  failing checks = [] ↔ Forall (λ c, c.2 = true) checks.
Proof.
  unfold failing. induction checks as [|[f []] cs IH].
  - done.
  - rewrite filter_cons_False by (simpl; congruence).
    rewrite Forall_cons. naive_solver.
  - rewrite filter_cons_True by done. rewrite Forall_cons. naive_solver.
Qed.

(** The validation chain looks at the request only. *)
Lemma login_refused now b db errs :
  login_errors env b = errs → errs ≠ [] →
  login env now b db = (db, ValidationErrors errs).
Proof.
  intros <- Hne. unfold login. by destruct (login_errors env b).
Qed.

End Login.

Section LoginFailures.
Context (env : Env).
Implicit Types (now : Z) (b : LoginBody) (db : Db).

Lemma login_bad_credentials now b db :
  login_errors env b = [] →
  no_account b db ∨ wrong_password env b db →
  login env now b db = (db, Error 400 "Invalid credentials").
Proof.
  intros Hv Hfail. unfold login. rewrite Hv.
  destruct Hfail as [Hno | (i & u & password & Hfound & Hpw & Hcmp)].
  - unfold no_account in Hno. by rewrite Hno.
  - by rewrite Hfound, Hpw, Hcmp.
Qed.

Lemma login_unusable_password now b db :
  login_errors env b = [] →
  unusable_password b db →
  login env now b db = (db, Error 500 "Server error").
Proof.
  intros Hv [(i & u & Hfound) Hpw]. unfold login. rewrite Hv, Hfound.
  destruct (login_password b) as [[password| | | | |]|] eqn:E; try done.
  destruct Hpw. intros v Hv'. rewrite E in Hv'. injection Hv' as <-.
  by exists password.
Qed.

(** A login that passes validation fails in exactly these three ways. *)
Lemma login_fails_iff now b db :
  login_errors env b = [] →
  is_json (login env now b db).2 = false
  ↔ no_account b db ∨ wrong_password env b db ∨ unusable_password b db.
Proof.
  intros Hv. split.
  - unfold login, no_account, wrong_password, unusable_password. rewrite Hv.
    destruct (findOne _ (users db)) as [[i u]|] eqn:E; [| by left].
    destruct (login_password b) as [v|] eqn:Epw.
    + destruct v as [password| | | | |];
        [| intros _; right; right; (split; [by exists i, u |]);
           intros Hs; by destruct (Hs _ Epw) ..].
      destruct (bcrypt_compare env password (passwordHash u)) eqn:Ec; [done |].
      intros _. right. left. by exists i, u, password.
    + intros _. right. right. split; [by exists i, u |].
      apply failing_nil in Hv. apply Forall_cons in Hv as [_ Hv].
      apply Forall_cons in Hv as [Hv _]. simpl in Hv.
      apply bool_decide_eq_true in Hv as [v Hv]. congruence.
  - intros [Hfail | [Hfail | Hfail]].
    + rewrite login_bad_credentials; auto.
    + rewrite login_bad_credentials; auto.
    + by rewrite login_unusable_password.
Qed.

(** X11. When the password of the request is a string, the answer to a
    failing login does not depend on the stored users or on the time: the
    same request fails with the same answer against any two stores, whether
    it is refused by the validation, meets no account or meets an account
    with another password. *)
Lemma login_failure_hides_store now1 now2 b db1 db2 :
  string_password b →
  is_json (login env now1 b db1).2 = false →
  is_json (login env now2 b db2).2 = false →
  (login env now1 b db1).2 = (login env now2 b db2).2.
Proof.
  intros Hs. destruct (login_errors env b) as [|e es] eqn:Hv.
  - intros H1 H2. apply login_fails_iff in H1, H2; [| done..].
    assert (Hno : ∀ db, ¬ unusable_password b db) by (by intros db [_ []]).
    rewrite !login_bad_credentials; naive_solver.
  - intros _ _. unfold login. by rewrite Hv.
Qed.

End LoginFailures.

(** Two login attempts that pass the validation of the request and fail,
    each because no user has the address or because the password, a string,
    does not match the stored hash, get the same answer: status 400 with the
    error [Invalid credentials]; neither changes the store. *)
Lemma login_failures_identical (env : Env) (now1 now2 : Z)
    (b1 b2 : LoginBody) (db1 db2 : Db) :
  login_errors env b1 = [] → login_errors env b2 = [] →
  no_account b1 db1 ∨ wrong_password env b1 db1 →
  no_account b2 db2 ∨ wrong_password env b2 db2 →
  (login env now1 b1 db1).2 = (login env now2 b2 db2).2
  ∧ InvalidCredentials (login env now1 b1 db1).2
  ∧ InvalidCredentials (login env now2 b2 db2).2
  ∧ (login env now1 b1 db1).1 = db1 ∧ (login env now2 b2 db2).1 = db2.
Proof.
  intros Hv1 Hv2 H1 H2.
  rewrite (login_bad_credentials env now1 b1 db1 Hv1 H1).
  rewrite (login_bad_credentials env now2 b2 db2 Hv2 H2).
  by unfold InvalidCredentials.
Qed.

Example login_failures_identical_sample :
  (login sample_env 100 (mkLoginBody (Some "bob@x.com") (Some (JString "secret1")))
         sample_db).2
  = (login sample_env 200 (mkLoginBody (Some "Alice@X.com") (Some (JString "guess")))
           sample_db).2.
Proof.
  apply (login_failures_identical sample_env 100 200
           (mkLoginBody (Some "bob@x.com") (Some (JString "secret1")))
           (mkLoginBody (Some "Alice@X.com") (Some (JString "guess")))
           sample_db sample_db).
  - reflexivity.
  - reflexivity.
  - left. reflexivity.
  - right. exists 1%N, (sample_user "alice" "alice@x.com"), "guess".
    repeat split; reflexivity.
Qed.

(** C10 (the code departs from it). A login whose password is the JSON
    number 12345 passes the validation of the request, since [exists()]
    accepts every value of the field.  With the address of a stored user [bcrypt.compare] then rejects
    its argument and the handler answers status 500, [Server error]; with
    an address that no user has, the same password is answered with status
    400, [Invalid credentials].  Both attempts fail, the answers differ,
    and the one request tells a store with the account from a store
    without it. *)
Theorem login_failure_reveals_account :
  login_errors sample_env known_address_login = []
  ∧ login_errors sample_env unknown_address_login = []
  ∧ login sample_env 100 known_address_login sample_db
    = (sample_db, Error 500 "Server error")
  ∧ login sample_env 100 unknown_address_login sample_db
    = (sample_db, Error 400 "Invalid credentials")
  ∧ login sample_env 100 known_address_login empty_db
    = (empty_db, Error 400 "Invalid credentials")
  ∧ ¬ InvalidCredentials (login sample_env 100 known_address_login sample_db).2
  ∧ (login sample_env 100 known_address_login sample_db).2
    ≠ (login sample_env 100 unknown_address_login sample_db).2.
Proof.
  assert (E1 : login sample_env 100 known_address_login sample_db
               = (sample_db, Error 500 "Server error"))
    by (vm_compute; reflexivity).
  assert (E2 : login sample_env 100 unknown_address_login sample_db
               = (sample_db, Error 400 "Invalid credentials"))
    by (vm_compute; reflexivity).
  rewrite E1, E2. unfold InvalidCredentials.
  repeat split; done.
Qed.

Example login_success :
  (login sample_env 100 (mkLoginBody (Some "Alice@X.com") (Some (JString "secret1")))
         sample_db).2
  = Json (mkAuthReply "jwt.1.100" (mkIdentity 1%N "alice" "alice@x.com" None)).
Proof. vm_compute. reflexivity. Qed.

Example login_null_password :
  (login sample_env 100 (mkLoginBody (Some "alice@x.com") (Some JNull)) sample_db).2
  = Error 500 "Server error".
Proof. vm_compute. reflexivity. Qed.

Example login_missing_password :
  (login sample_env 100 (mkLoginBody (Some "alice@x.com") None) sample_db).2
  = ValidationErrors ["password"].
Proof. vm_compute. reflexivity. Qed.

(** ** Registering *)

Section FindOne.
Context {A : Type} (P : A → bool).
Implicit Types (m : gmap ObjectId A).

Lemma findOne_Some m i a : findOne P m = Some (i, a) → m !! i = Some a ∧ P a = true.
Proof.
  unfold findOne. intros H. apply find_some in H as [Hin HP].
  split; [| done]. by apply elem_of_map_to_list, list_elem_of_In.
Qed.

Lemma findOne_None m : findOne P m = None ↔ ∀ i a, m !! i = Some a → P a = false.
Proof.
  unfold findOne. split.
  - intros H i a Hia.
    apply (find_none _ _ H (i, a)), list_elem_of_In. by apply elem_of_map_to_list.
  - intros H. destruct (List.find _ _) as [[i a]|] eqn:E; [| done].
    apply find_some in E as [Hin HP]. simpl in HP.
    apply list_elem_of_In, elem_of_map_to_list in Hin.
    rewrite (H i a Hin) in HP. done.
Qed.

Lemma findOne_is_Some m :
  is_Some (findOne P m) ↔ ∃ i a, m !! i = Some a ∧ P a = true.
Proof.
  split.
  - intros [[i a] H]. exists i, a. by apply findOne_Some.
  - intros (i & a & Hia & HP). apply not_eq_None_Some. intros Hnone.
    rewrite findOne_None in Hnone. rewrite (Hnone i a Hia) in HP. done.
Qed.

End FindOne.

Section Register.
Context (env : Env).
Implicit Types (b : RegisterBody) (db : Db) (salt : string) (now : Z).

Lemma username_or_email_spec b (u : User) :
  username_or_email (field_text (reg_username b)) (field_text (reg_email b)) u
  = true
  ↔ username u = cast_username (field_text (reg_username b))
    ∨ email u = cast_email (field_text (reg_email b)).
Proof.
  unfold username_or_email. by rewrite orb_true_iff, !bool_decide_eq_true.
Qed.

Lemma taken_found b db :
  taken b db
  ↔ is_Some (findOne (username_or_email (field_text (reg_username b))
                                        (field_text (reg_email b))) (users db)).
Proof.
  rewrite findOne_is_Some. unfold taken.
  by setoid_rewrite username_or_email_spec.
Qed.

Lemma register_taken salt now b db :
  register_errors env b = [] → taken b db →
  register env salt now b db = (db, Error 400 "Username or email already in use").
Proof.
  intros Hv [x Hx]%taken_found. unfold register. by rewrite Hv, Hx.
Qed.

Lemma register_free salt now b db :
  register_valid env salt b → ¬ taken b db →
  register env salt now b db
  = (set_users (<[newObjectId db := new_user env salt b]> (users db)) db,
     Json (mkAuthReply (jwt_sign env (newObjectId db) now)
                       (identity_of (newObjectId db) (new_user env salt b)))).
Proof.
  intros [Hv Hok] Hfree. unfold register. rewrite Hv.
  destruct (findOne _ (users db)) as [x|] eqn:E.
  - destruct Hfree. apply taken_found. by rewrite E.
  - by rewrite Hok.
Qed.

End Register.

Lemma same_address_any_case (e e' : string) :
  JsString.toLowerCase e' = JsString.toLowerCase e → cast_email e' = cast_email e.
Proof.
  intros H. unfold cast_email. by rewrite <- !trim_lower, H.
Qed.

(** C6 (as amended). For a register request that passes the validation
    chain of the route and the validation of the schema, the answer is
    [Conflict] exactly when some stored user has the requested user name or
    the requested address (trimmed, the address in lower case); then
    nothing is stored.  Otherwise the new user is stored under a new
    identifier and the answer carries a token for it and its identity; a
    later valid request with the same address in any letter case is
    answered [Conflict] and stores nothing. *)
Theorem register_conflict_iff_taken (env : Env) (salt : string) (now : Z)
    (b : RegisterBody) (db : Db) :
  register_valid env salt b →
  (Conflict (register env salt now b db).2 ↔ taken b db)
  ∧ (taken b db → (register env salt now b db).1 = db)
  ∧ (¬ taken b db →
     ∃ i, users db !! i = None
          ∧ register env salt now b db
            = (set_users (<[i := new_user env salt b]> (users db)) db,
               Json (mkAuthReply
                       (jwt_sign env i now)
                       (mkIdentity i
                          (JsString.trim (field_text (reg_username b)))
                          (JsString.toLowerCase
                             (JsString.trim (field_text (reg_email b))))
                          (reg_displayName b))))
          ∧ ∀ salt' now' b',
              register_errors env b' = [] →
              JsString.toLowerCase (field_text (reg_email b'))
              = JsString.toLowerCase (field_text (reg_email b)) →
              register env salt' now' b' (register env salt now b db).1
              = ((register env salt now b db).1,
                 Error 400 "Username or email already in use")).
Proof.
  intros Hvalid. split; [| split].
  - split.
    + intros Hc. destruct (findOne (username_or_email
                                      (field_text (reg_username b))
                                      (field_text (reg_email b))) (users db))
        as [x|] eqn:E.
      * apply taken_found. by rewrite E.
      * assert (Hfree : ¬ taken b db).
        { intros Ht%taken_found. rewrite E in Ht. by destruct Ht. }
        rewrite (register_free env salt now b db Hvalid Hfree) in Hc.
        discriminate Hc.
    + intros Ht. rewrite register_taken by (done || apply Hvalid). done.
  - intros Ht. by rewrite register_taken by (done || apply Hvalid).
  - intros Hfree. exists (newObjectId db).
    split; [apply newObjectId_no_user |].
    rewrite (register_free env salt now b db Hvalid Hfree).
    split; [done |]. intros salt' now' b' Hv' Hsame. simpl.
    apply register_taken; [done |].
    exists (newObjectId db), (new_user env salt b). simpl.
    split; [apply lookup_insert_eq |]. right.
    symmetry. by apply same_address_any_case.
Qed.

Lemma register_conflict_iff_taken_witness :
  ¬ taken (sample_register "bob" "Bob@X.com" "secret2") sample_db
  ∧ (∃ i, users sample_db !! i = None
     ∧ register sample_env "salt" 100 (sample_register "bob" "Bob@X.com" "secret2")
                sample_db
       = (set_users
            (<[i := new_user sample_env "salt"
                             (sample_register "bob" "Bob@X.com" "secret2")]>
               (users sample_db)) sample_db,
          Json (mkAuthReply (jwt_sign sample_env i 100)
                            (mkIdentity i "bob" "bob@x.com" None)))
     ∧ ∀ salt' now' b',
         register_errors sample_env b' = [] →
         JsString.toLowerCase (field_text (reg_email b'))
         = JsString.toLowerCase "Bob@X.com" →
         register sample_env salt' now' b'
           (register sample_env "salt" 100
              (sample_register "bob" "Bob@X.com" "secret2") sample_db).1
         = ((register sample_env "salt" 100
               (sample_register "bob" "Bob@X.com" "secret2") sample_db).1,
            Error 400 "Username or email already in use")).
Proof.
  assert (Hfree : ¬ taken (sample_register "bob" "Bob@X.com" "secret2") sample_db).
  { intros Ht%taken_found. vm_compute in Ht. by destruct Ht. }
  split; [exact Hfree |].
  apply (register_conflict_iff_taken sample_env "salt" 100
           (sample_register "bob" "Bob@X.com" "secret2") sample_db).
  - split; reflexivity.
  - exact Hfree.
Defined.

(** C6 (as stated) fails: a request with a password of five characters
    meets no stored user name or address, and yet no user is created; the
    answer is a validation error. *)
Lemma register_short_password_not_created :
  ¬ taken (sample_register "bob" "bob@x.com" "12345") empty_db
  ∧ register sample_env "salt" 100 (sample_register "bob" "bob@x.com" "12345") empty_db
    = (empty_db, ValidationErrors ["password"]).
Proof.
  split; [| reflexivity].
  intros (i & u & Hu & _). simpl in Hu. by rewrite lookup_empty in Hu.
Qed.

Example register_twice_any_case :
  (register sample_env "salt" 100 (sample_register "al" "ALICE@x.com" "secret1")
            sample_db).2
  = ValidationErrors ["username"]
  ∧ (register sample_env "salt" 100 (sample_register "alice2" "ALICE@x.com" "secret1")
              sample_db).2
    = Error 400 "Username or email already in use"
  ∧ (register sample_env "salt" 100 (sample_register "  a  " "a@x.com" "secret1")
              sample_db).2
    = Error 500 "Server error".
Proof. vm_compute. done. Qed.

(** ** The feed *)

#[local] Instance newer_first_total : Total newer_first.
Proof. intros a b. unfold newer_first. lia. Qed.

#[local] Instance newer_first_trans : Transitive newer_first.
Proof. intros a b c. unfold newer_first. lia. Qed.

Section Feed.
Implicit Types (q : FeedQuery) (db : Db) (l : list (ObjectId * Post)).

Lemma feed_all_sorted q db : StronglySorted newer_first (feed_all q db).
Proof. apply StronglySorted_merge_sort; apply _. Qed.

Lemma feed_all_NoDup q db : NoDup (feed_all q db).
Proof.
  unfold feed_all, sort_newest. rewrite merge_sort_Permutation.
  apply NoDup_ListNoDup, List.NoDup_filter, NoDup_ListNoDup, NoDup_map_to_list.
Qed.

Lemma feed_all_stored q db i p : (i, p) ∈ feed_all q db → posts db !! i = Some p.
Proof.
  unfold feed_all, sort_newest. rewrite merge_sort_Permutation.
  intros [H _]%list_elem_of_In%filter_In.
  by apply elem_of_map_to_list, list_elem_of_In.
Qed.

(** With a limit of at least one, the answer is the slice of [limit] posts
    that starts [page * limit] posts into the list, for the clamped page
    and limit. *)
Lemma listFeed_slice q db :
  1 ≤ default 12 (q_limit q) →
  listFeed q db
  = (db, Json (mkFeedReply
                 (take (Z.to_nat (feed_limit_of q))
                       (drop (Z.to_nat (feed_page_of q) * Z.to_nat (feed_limit_of q))
                             (feed_all q db)))
                 (feed_page_of q) (feed_limit_of q)))
  ∧ 1 ≤ feed_limit_of q ≤ 50 ∧ 0 ≤ feed_page_of q.
Proof.
  intros Hl. unfold listFeed. fold (feed_all q db).
  assert (Hlim : 1 ≤ feed_limit_of q ≤ 50) by (unfold feed_limit_of; lia).
  assert (Hpage : 0 ≤ feed_page_of q) by (unfold feed_page_of; lia).
  split; [| done]. unfold cursor_skip, cursor_limit.
  destruct (Z.ltb_spec (feed_page_of q * feed_limit_of q) 0) as [Hneg|_]; [nia |].
  destruct (Z.eqb_spec (feed_limit_of q) 0) as [H0|_]; [lia |].
  rewrite Z.abs_eq by lia. rewrite Z2Nat.inj_mul by lia. done.
Qed.

End Feed.


(** C7 (the code departs from it). With [limit=0] the limit is not an upper
    bound and the pages are not slices: on a store of 51 posts, page 0 and
    page 1 both answer all 51 posts, newest first. *)
Theorem listFeed_limit_zero_unbounded :
  ∃ l,
    feed_of 0 0 (feed_db 51) = Json (mkFeedReply l 0 0)
    ∧ feed_of 1 0 (feed_db 51) = Json (mkFeedReply l 1 0)
    ∧ length l = 51%nat
    ∧ l.*1 = N.of_nat <$> reverse (seq 0 51).
Proof.
  eexists. split; [vm_compute; reflexivity |].
  split; [vm_compute; reflexivity |]. split; reflexivity.
Qed.

Example listFeed_negative_limit :
  feed_of 1 (-5) (feed_db 3) = Error 500 "Failed to fetch feed".
Proof. reflexivity. Qed.

Example listFeed_pages_of_two :
  (∃ l, feed_of 0 2 (feed_db 5) = Json (mkFeedReply l 0 2) ∧ l.*1 = [4%N; 3%N])
  ∧ (∃ l, feed_of 1 2 (feed_db 5) = Json (mkFeedReply l 1 2) ∧ l.*1 = [2%N; 1%N]).
Proof. split; eexists; (split; [vm_compute; reflexivity | reflexivity]). Qed.

(** ** Following *)

Section Follow.
Implicit Types (db : Db) (us : gmap ObjectId User) (uid target a b : ObjectId).

Lemma changed_assign (old new : list ObjectId) :
  changed (assign old new) old = new.
Proof. unfold assign. by case_decide. Qed.

(** A save of a document that was loaded at the stored version goes
    through and writes the changed arrays. *)
Lemma save_current (d : UserDoc) us (stored : User) :
  us !! doc_id d = Some stored →
  version stored = version (doc_loaded d) →
  ∃ u', save d us = Some (<[doc_id d := u']> us)
        ∧ followers u' = changed (doc_followers d) (followers stored)
        ∧ following u' = changed (doc_following d) (following stored).
Proof.
  intros Hs Hv. unfold save. rewrite Hs, Hv, N.eqb_refl, andb_false_r.
  destruct (is_modified (doc_followers d) || is_modified (doc_following d))
    eqn:Em.
  - eexists. split; [reflexivity |]. done.
  - apply orb_false_elim in Em as [E1 E2].
    exists stored. rewrite insert_id by done.
    destruct (doc_followers d), (doc_following d); done.
Qed.

(** What a call between two different stored users writes: the following
    array of the caller and the followers array of the target, both toggled
    on what the caller's following array said. *)
Lemma toggleFollow_other uid target db me toFollow :
  uid ≠ target →
  users db !! uid = Some me → users db !! target = Some toFollow →
  ∃ me' to',
    (toggleFollow uid target db).1
    = set_users (<[target := to']> (<[uid := me']> (users db))) db
    ∧ is_json (toggleFollow uid target db).2 = true
    ∧ followers me' = followers me
    ∧ following to' = following toFollow
    ∧ following me'
      = (if existsb (N.eqb target) (following me)
         then filter (λ x, x ≠ target) (following me)
         else following me ++ [target])
    ∧ followers to'
      = (if existsb (N.eqb target) (following me)
         then filter (λ x, x ≠ uid) (followers toFollow)
         else followers toFollow ++ [uid]).
Proof.
  intros Hne Hme Hto. unfold toggleFollow. rewrite Hto, Hme. cbv zeta.
  set (me_following := if existsb (N.eqb target) (following me)
                       then assign (following me)
                              (filter (λ x, x ≠ target) (following me))
                       else Pushed target).
  set (to_followers := if existsb (N.eqb target) (following me)
                       then assign (followers toFollow)
                              (filter (λ x, x ≠ uid) (followers toFollow))
                       else Pushed uid).
  destruct (save_current (mkUserDoc uid me Unmodified me_following)
              (users db) me Hme eq_refl) as (me' & Hs1 & Hfrs1 & Hfng1).
  simpl in Hs1, Hfrs1, Hfng1. rewrite Hs1.
  assert (Hto1 : <[uid := me']> (users db) !! target = Some toFollow)
    by (by rewrite lookup_insert_ne).
  destruct (save_current (mkUserDoc target toFollow to_followers Unmodified)
              _ toFollow Hto1 eq_refl) as (to' & Hs2 & Hfrs2 & Hfng2).
  simpl in Hs2, Hfrs2, Hfng2. rewrite Hs2. exists me', to'.
  split; [done |]. split; [done |]. simpl in *.
  split; [done |]. split; [done |].
  rewrite Hfng1, Hfrs2. unfold me_following, to_followers.
  destruct (existsb (N.eqb target) (following me));
    by rewrite ?changed_assign.
Qed.

(** A call that finds no target or no caller changes nothing. *)
Lemma toggleFollow_missing uid target db :
  users db !! target = None ∨ users db !! uid = None →
  (toggleFollow uid target db).1 = db.
Proof.
  unfold toggleFollow. intros [H | H].
  - by rewrite H.
  - destruct (users db !! target); by rewrite ?H.
Qed.

End Follow.

Section FollowInvariant.
Implicit Types (db : Db) (us : gmap ObjectId User) (uid target a b : ObjectId).

Lemma following_of_lookup us a u : us !! a = Some u → following_of us a = following u.
Proof. unfold following_of. by intros ->. Qed.

Lemma followers_of_lookup us a u : us !! a = Some u → followers_of us a = followers u.
Proof. unfold followers_of. by intros ->. Qed.

(** The arrays after a call between two different stored users. *)
Lemma toggleFollow_arrays uid target db me toFollow :
  uid ≠ target →
  users db !! uid = Some me → users db !! target = Some toFollow →
  (∀ a, following_of (users (toggleFollow uid target db).1) a
        = if decide (a = uid)
          then (if existsb (N.eqb target) (following me)
                then filter (λ x, x ≠ target) (following me)
                else following me ++ [target])
          else following_of (users db) a)
  ∧ (∀ b, followers_of (users (toggleFollow uid target db).1) b
          = if decide (b = target)
            then (if existsb (N.eqb target) (following me)
                  then filter (λ x, x ≠ uid) (followers toFollow)
                  else followers toFollow ++ [uid])
            else followers_of (users db) b).
Proof.
  intros Hne Hme Hto.
  destruct (toggleFollow_other uid target db me toFollow Hne Hme Hto)
    as (me' & to' & -> & _ & Hfrs & Hfng & Hme' & Hto').
  simpl. split.
  - intros a. unfold following_of. case_decide as Ha.
    + subst a. rewrite lookup_insert_ne, lookup_insert_eq by done. done.
    + destruct (decide (a = target)) as [-> | Hat].
      * by rewrite lookup_insert_eq, Hto.
      * by rewrite !lookup_insert_ne.
  - intros b. unfold followers_of. case_decide as Hb.
    + subst b. by rewrite lookup_insert_eq.
    + rewrite lookup_insert_ne by done.
      destruct (decide (b = uid)) as [-> | Hbu].
      * by rewrite lookup_insert_eq, Hme.
      * by rewrite lookup_insert_ne.
Qed.

Lemma follow_inv_toggleFollow uid target db :
  uid ≠ target → follow_inv (users db) →
  follow_inv (users (toggleFollow uid target db).1).
Proof.
  intros Hne [HS HNfr HNfg HR].
  destruct (users db !! target) as [toFollow|] eqn:Hto;
    [| by rewrite toggleFollow_missing by auto].
  destruct (users db !! uid) as [me|] eqn:Hme;
    [| by rewrite toggleFollow_missing by auto].
  destruct (toggleFollow_arrays uid target db me toFollow Hne Hme Hto)
    as [HE HF].
  pose proof (following_of_lookup _ _ _ Hme) as Eme.
  pose proof (followers_of_lookup _ _ _ Hto) as Eto.
  rewrite <- Eme in HE, HF. rewrite <- Eto in HF.
  set (E := following_of (users db)) in *.
  set (F := followers_of (users db)) in *.
  assert (Halready : existsb (N.eqb target) (E uid) = true ↔ target ∈ E uid)
    by apply some_equals.
  assert (Hboth : target ∈ E uid ↔ uid ∈ F target) by (symmetry; apply HS).
  split.
  - intros a b. rewrite HE, HF.
    pose proof (HS a b) as Hab. pose proof (HS a target) as Hat.
    pose proof (HS uid b) as Hub.
    destruct (existsb (N.eqb target) (E uid)) eqn:Ex;
      repeat case_decide; subst;
      rewrite ?list_elem_of_filter, ?elem_of_app, ?list_elem_of_singleton;
      naive_solver.
  - intros b. rewrite HF. case_decide; [| apply HNfr]. subst.
    destruct (existsb (N.eqb target) (E uid)) eqn:Ex.
    + apply NoDup_filter, HNfr.
    + apply NoDup_push; [apply HNfr |].
      intros Hin. apply Hboth, Halready in Hin. congruence.
  - intros a. rewrite HE. case_decide; [| apply HNfg]. subst.
    destruct (existsb (N.eqb target) (E uid)) eqn:Ex.
    + apply NoDup_filter, HNfg.
    + apply NoDup_push; [apply HNfg |].
      intros Hin. apply Halready in Hin. congruence.
  - intros a. rewrite HE. case_decide; [| apply HR]. subst.
    destruct (existsb (N.eqb target) (E uid)) eqn:Ex.
    + rewrite list_elem_of_filter. intros [_ Hin]. by apply (HR uid).
    + rewrite elem_of_app, list_elem_of_singleton.
      intros [Hin | Heq]; [by apply (HR uid) | done].
Qed.

End FollowInvariant.

(** ** The follow arrays under the other routes *)

Section Frame.
Context (env : Env).
Implicit Types (db : Db).

Lemma login_users now b db : users (login env now b db).1 = users db.
Proof. unfold login. handler_cases. Qed.

Lemma createPost_users now uid r db :
  users (createPost env now uid r db).1 = users db.
Proof. unfold createPost. upload_stored db' Hus Hps. handler_cases. Qed.

Lemma listFeed_users q db : users (listFeed q db).1 = users db.
Proof. unfold listFeed. handler_cases. Qed.

Lemma getPost_users i db : users (getPost i db).1 = users db.
Proof. unfold getPost. handler_cases. Qed.

Lemma toggleLike_users uid i db : users (toggleLike uid i db).1 = users db.
Proof. unfold toggleLike. handler_cases. Qed.

Lemma addComment_users now uid i text db :
  users (addComment now uid i text db).1 = users db.
Proof. unfold addComment. handler_cases. Qed.

Lemma addReply_users now uid i cid text db :
  users (addReply now uid i cid text db).1 = users db.
Proof. unfold addReply. handler_cases. Qed.

(** [register] stores nothing or a new user who follows nobody. *)
Lemma register_users salt now b db :
  users (register env salt now b db).1 = users db
  ∨ ∃ i u, users db !! i = None ∧ followers u = [] ∧ following u = []
           ∧ users (register env salt now b db).1 = <[i := u]> (users db).
Proof.
  unfold register. handler_cases; try by left.
  right. exists (newObjectId db), (new_user env salt b). simpl.
  split; [apply newObjectId_no_user | done].
Qed.

Lemma follow_arrays_insert_new (us : gmap ObjectId User) i u :
  us !! i = None → followers u = [] → following u = [] →
  (∀ a, followers_of (<[i := u]> us) a = followers_of us a)
  ∧ (∀ a, following_of (<[i := u]> us) a = following_of us a).
Proof.
  intros Hi Hfr Hfg. unfold followers_of, following_of.
  split; intros a; (destruct (decide (a = i)) as [-> | Hne];
    [by rewrite lookup_insert_eq, Hi | by rewrite lookup_insert_ne]).
Qed.

Lemma follow_inv_ext (us us' : gmap ObjectId User) :
  (∀ a, followers_of us' a = followers_of us a) →
  (∀ a, following_of us' a = following_of us a) →
  follow_inv us → follow_inv us'.
Proof.
  intros Hfr Hfg [HS HNfr HNfg HR].
  split; intros; rewrite ?Hfr, ?Hfg; auto.
Qed.

(** Every request other than a user following themself keeps the
    invariant. *)
Lemma follow_inv_step db (r : Request) :
  ¬ self_follow r → follow_inv (users db) → follow_inv (users (step env db r)).
Proof.
  intros Hself Hinv. destruct r; simpl in *.
  - destruct (register_users salt now b db) as [-> | (i & u & Hi & Hfr & Hfg & ->)];
      [done |].
    destruct (follow_arrays_insert_new (users db) i u Hi Hfr Hfg) as [H1 H2].
    by apply (follow_inv_ext (users db)).
  - by rewrite login_users.
  - by rewrite createPost_users.
  - by rewrite listFeed_users.
  - by rewrite getPost_users.
  - by rewrite toggleLike_users.
  - by rewrite addComment_users.
  - by rewrite addReply_users.
  - by apply follow_inv_toggleFollow.
Qed.

Lemma follow_inv_run (rs : list Request) db :
  Forall (λ r, ¬ self_follow r) rs →
  follow_inv (users db) → follow_inv (users (run env rs db)).
Proof.
  unfold run. revert db. induction rs as [|r rs IH]; intros db Hrs Hinv; [done |].
  apply Forall_cons in Hrs as [Hr Hrs]. simpl.
  apply IH; [done |]. by apply follow_inv_step.
Qed.

End Frame.

Section FollowConsequences.
Implicit Types (us : gmap ObjectId User).

Lemma follow_inv_start us : no_follow_edges us → follow_inv us.
Proof.
  intros Hno.
  assert (Hfr : ∀ a, followers_of us a = []).
  { intros a. unfold followers_of. destruct (us !! a) as [u|] eqn:E; [| done].
    by destruct (Hno a u E). }
  assert (Hfg : ∀ a, following_of us a = []).
  { intros a. unfold following_of. destruct (us !! a) as [u|] eqn:E; [| done].
    by destruct (Hno a u E). }
  split; intros; rewrite ?Hfr, ?Hfg; try apply NoDup_nil_2.
  - by rewrite !elem_of_nil.
  - apply not_elem_of_nil.
Qed.

Lemma follow_inv_symmetric us : follow_inv us → follow_symmetric us.
Proof.
  intros [HS _ _ _] a b ua ub Ha Hb.
  rewrite <- (followers_of_lookup us b ub Hb), <- (following_of_lookup us a ua Ha).
  apply HS.
Qed.

Lemma follow_inv_no_self us : follow_inv us → no_self_follow us.
Proof.
  intros [HS _ _ HR] a ua Ha. pose proof (HR a) as Hfg. pose proof (HS a a) as Hs.
  rewrite (followers_of_lookup us a ua Ha), (following_of_lookup us a ua Ha) in *.
  tauto.
Qed.

End FollowConsequences.

Lemma follow_inv_count (us : gmap ObjectId User) :
  follow_inv us → follower_count_consistent us.
Proof.
  intros [HS HNfr _ _] b ub Hb.
  rewrite <- (length_fmap fst (filter _ (map_to_list us))).
  apply Permutation_length, NoDup_Permutation.
  - rewrite <- (followers_of_lookup us b ub Hb). apply HNfr.
  - apply NoDup_fmap_fst; [| apply NoDup_filter, NoDup_map_to_list].
    intros a u1 u2 [_ H1%elem_of_map_to_list]%list_elem_of_filter
                   [_ H2%elem_of_map_to_list]%list_elem_of_filter.
    congruence.
  - intros a. rewrite <- (followers_of_lookup us b ub Hb), HS.
    rewrite list_elem_of_fmap. unfold following_of. split.
    + destruct (us !! a) as [ua|] eqn:Ha; [| by intros ?%elem_of_nil].
      intros Hin. exists (a, ua). split; [done |].
      apply list_elem_of_filter. split; [done | by apply elem_of_map_to_list].
    + intros ([a' ua] & -> & [Hin Hlook%elem_of_map_to_list]%list_elem_of_filter).
      simpl in *. by rewrite Hlook.
Qed.

(** C2 (as amended). From a store without follow edges, after any sequence
    of requests in which no user asks to follow themself (in particular
    after any such sequence of [toggleFollow] calls), a user [a] is in the
    followers of a user [b] exactly when [b] is in the following of [a],
    and the length of the followers array of a user is the number of users
    whose following array holds that user. *)
Theorem follow_relation_consistent (env : Env) (rs : list Request) (db : Db) :
  no_follow_edges (users db) →
  Forall (λ r, ¬ self_follow r) rs →
  follow_symmetric (users (run env rs db))
  ∧ follower_count_consistent (users (run env rs db)).
Proof.
  intros Hstart Hrs.
  assert (Hinv : follow_inv (users (run env rs db)))
    by (by apply follow_inv_run, follow_inv_start).
  split; [by apply follow_inv_symmetric | by apply follow_inv_count].
Qed.

Lemma follow_relation_consistent_witness :
  follow_symmetric (users (run sample_env sample_follows sample_pair))
  ∧ follower_count_consistent (users (run sample_env sample_follows sample_pair)).
Proof.
  apply (follow_relation_consistent sample_env sample_follows sample_pair).
  - change (map_Forall (λ (_ : ObjectId) u, followers u = [] ∧ following u = [])
                       (users sample_pair)).
    apply (bool_decide_unpack _). vm_compute. exact I.
  - unfold sample_follows. repeat constructor; simpl; (done || tauto).
Defined.

(** C2 (as stated) fails: the user 1 of the sample store toggles following
    themself twice.  The first call pushes to both arrays through the two
    loaded copies of the one document; in the second call both copies
    assign a filtered array, the first save moves the stored version and
    the second save is refused, so the user stays in their own followers
    and is no longer in their own following. *)
Lemma self_follow_twice_not_symmetric :
  no_follow_edges (users sample_db)
  ∧ (toggleFollow 1%N 1%N (toggleFollow 1%N 1%N sample_db).1).2
    = Error 500 "Failed to follow/unfollow"
  ∧ (∃ u, users (run sample_env [ToggleFollow 1%N 1%N; ToggleFollow 1%N 1%N]
                     sample_db) !! 1%N = Some u
          ∧ followers u = [1%N] ∧ following u = [])
  ∧ ¬ follow_symmetric
        (users (run sample_env [ToggleFollow 1%N 1%N; ToggleFollow 1%N 1%N]
                    sample_db)).
Proof.
  assert (Hu : users (run sample_env [ToggleFollow 1%N 1%N; ToggleFollow 1%N 1%N]
                          sample_db) !! 1%N
               = Some (mkUser "alice" "alice@x.com" "h:secret1" None None None
                              [1%N] [] 3%N))
    by (vm_compute; reflexivity).
  split; [| split; [| split]].
  - change (map_Forall (λ (_ : ObjectId) u, followers u = [] ∧ following u = [])
                       (users sample_db)).
    apply (bool_decide_unpack _). vm_compute. exact I.
  - vm_compute. reflexivity.
  - eexists. split; [exact Hu | done].
  - intros Hsym. specialize (Hsym 1%N 1%N _ _ Hu Hu). simpl in Hsym.
    apply (not_elem_of_nil 1%N), Hsym, list_elem_of_here.
Qed.

(** C3 (as amended). From a store without follow edges, after any sequence
    of requests in which no user asks to follow themself, no user is in
    their own followers array or in their own following array. *)
Theorem never_follows_self (env : Env) (rs : list Request) (db : Db) :
  no_follow_edges (users db) →
  Forall (λ r, ¬ self_follow r) rs →
  no_self_follow (users (run env rs db)).
Proof.
  intros Hstart Hrs. by apply follow_inv_no_self, follow_inv_run, follow_inv_start.
Qed.

Lemma never_follows_self_witness :
  no_self_follow (users (run sample_env sample_follows sample_pair)).
Proof.
  apply (never_follows_self sample_env sample_follows sample_pair).
  - change (map_Forall (λ (_ : ObjectId) u, followers u = [] ∧ following u = [])
                       (users sample_pair)).
    apply (bool_decide_unpack _). vm_compute. exact I.
  - unfold sample_follows. repeat constructor; simpl; (done || tauto).
Defined.

(** C3 (as stated) fails: the handler has no check that the caller and the
    target differ, and one call of a user on themself puts the user into
    both of their own arrays. *)
Lemma self_follow_once :
  no_follow_edges (users sample_db)
  ∧ (∃ r, (toggleFollow 1%N 1%N sample_db).2 = Json r ∧ fr_following r = true)
  ∧ (∃ u, users (toggleFollow 1%N 1%N sample_db).1 !! 1%N = Some u
          ∧ 1%N ∈ followers u ∧ 1%N ∈ following u)
  ∧ ¬ no_self_follow (users (toggleFollow 1%N 1%N sample_db).1).
Proof.
  assert (Hu : users (toggleFollow 1%N 1%N sample_db).1 !! 1%N
               = Some (mkUser "alice" "alice@x.com" "h:secret1" None None None
                              [1%N] [1%N] 2%N))
    by (vm_compute; reflexivity).
  split; [| split; [| split]].
  - change (map_Forall (λ (_ : ObjectId) u, followers u = [] ∧ following u = [])
                       (users sample_db)).
    apply (bool_decide_unpack _). vm_compute. exact I.
  - eexists. split; [vm_compute; reflexivity | done].
  - eexists. split; [exact Hu |]. simpl. split; apply list_elem_of_here.
  - intros Hno. destruct (Hno 1%N _ Hu) as [H _]. apply H, list_elem_of_here.
Qed.

(** ** Likes in the stores that the service can reach *)

Section LikesInvariant.
Context (env : Env).
Implicit Types (db : Db) (p : Post) (i : ObjectId).

Lemma likes_are_sets_insert db i p :
  likes_are_sets db → NoDup (likes p) →
  likes_are_sets (set_posts (<[i := p]> (posts db)) db).
Proof.
  intros Hdb Hp j p'. simpl. destruct (decide (j = i)) as [-> | Hne].
  - rewrite lookup_insert_eq. by intros [= <-].
  - rewrite lookup_insert_ne by done. apply Hdb.
Qed.

Lemma likes_are_sets_same_posts db db' :
  posts db' = posts db → likes_are_sets db → likes_are_sets db'.
Proof. unfold likes_are_sets. by intros ->. Qed.

Lemma likes_are_sets_step db (r : Request) :
  likes_are_sets db → likes_are_sets (step env db r).
Proof.
  intros Hdb. destruct r; simpl.
  - apply (likes_are_sets_same_posts db); [| done].
    unfold register. handler_cases.
  - apply (likes_are_sets_same_posts db); [| done].
    unfold login. handler_cases.
  - unfold createPost. upload_stored db' Hus Hps.
    assert (Hdb' : likes_are_sets db')
      by (by apply (likes_are_sets_same_posts db)).
    handler_cases.
    by apply likes_are_sets_insert; [| apply NoDup_nil_2].
  - apply (likes_are_sets_same_posts db); [| done].
    unfold listFeed. handler_cases.
  - unfold getPost. destruct (posts db !! i) as [p|] eqn:Hp; [| done]. simpl.
    apply likes_are_sets_insert; [done |]. simpl. by apply (Hdb i).
  - destruct (posts db !! i) as [p|] eqn:Hp.
    + intros j p'. destruct (decide (j = i)) as [-> | Hne].
      * by apply (toggleLike_NoDup uid i db p), (Hdb i).
      * rewrite (toggleLike_found uid i db p Hp). simpl.
        rewrite lookup_insert_ne by done. apply Hdb.
    + by rewrite toggleLike_absent.
  - unfold addComment. handler_cases.
    apply likes_are_sets_insert; [done |]. simpl.
    match goal with H : posts db !! i = Some _ |- _ => by apply (Hdb i _ H) end.
  - unfold addReply. handler_cases.
    apply likes_are_sets_insert; [done |]. simpl.
    match goal with H : posts db !! i = Some _ |- _ => by apply (Hdb i _ H) end.
  - apply (likes_are_sets_same_posts db); [| done].
    unfold toggleFollow. handler_cases.
Qed.

Lemma likes_are_sets_run (rs : list Request) db :
  likes_are_sets db → likes_are_sets (run env rs db).
Proof.
  unfold run. revert db. induction rs as [|r rs IH]; intros db Hdb; [done |].
  simpl. by apply IH, likes_are_sets_step.
Qed.

Lemma likes_are_sets_reachable (rs : list Request) :
  likes_are_sets (run env rs empty_db).
Proof.
  apply likes_are_sets_run. intros i p H. simpl in H.
  by rewrite lookup_empty in H.
Qed.

End LikesInvariant.

(** C1. In a store that the service reaches from the empty store by any
    requests, for every stored post and every user, two calls of
    [toggleLike] for that post and user both succeed and leave the post
    with the same set of likes, the same number of likes and the same
    membership of every user as before the first call; the second call
    reports that number and the original membership of the user, the first
    call reports the opposite membership; nothing else in the store
    changes. *)
Theorem toggleLike_involution (env : Env) (rs : list Request)
    (uid i : ObjectId) (p : Post) :
  posts (run env rs empty_db) !! i = Some p →
  ∃ db1 r1 db2 r2 l2,
    toggleLike uid i (run env rs empty_db) = (db1, Json r1)
    ∧ toggleLike uid i db1 = (db2, Json r2)
    ∧ db2 = set_posts (<[i := set_likes l2 p]> (posts (run env rs empty_db)))
                      (run env rs empty_db)
    ∧ l2 ≡ₚ likes p
    ∧ list_to_set l2 =@{gset ObjectId} list_to_set (likes p)
    ∧ length l2 = length (likes p)
    ∧ (∀ x, x ∈ l2 ↔ x ∈ likes p)
    ∧ likesCount r2 = length (likes p)
    ∧ liked r2 = bool_decide (uid ∈ likes p)
    ∧ liked r1 = negb (liked r2).
Proof.
  intros Hp. apply toggleLike_twice; [done |].
  by apply (likes_are_sets_reachable env rs i).
Qed.

Lemma toggleLike_involution_witness :
  ∃ db1 r1 db2 r2 l2,
    toggleLike 5%N 0%N (run sample_env sample_history empty_db) = (db1, Json r1)
    ∧ toggleLike 5%N 0%N db1 = (db2, Json r2)
    ∧ db2 = set_posts
              (<[0%N := set_likes l2
                          (mkPost 1%N "http://host/uploads/a.mp4" "hello"
                                  ["fun"; "cats"] (45 # 1) [5%N; 7%N] [] 1
                                  false 1000)]>
                 (posts (run sample_env sample_history empty_db)))
              (run sample_env sample_history empty_db)
    ∧ l2 ≡ₚ [5%N; 7%N]
    ∧ list_to_set l2 =@{gset ObjectId} list_to_set [5%N; 7%N]
    ∧ length l2 = 2%nat
    ∧ (∀ x, x ∈ l2 ↔ x ∈ [5%N; 7%N])
    ∧ likesCount r2 = 2%nat
    ∧ liked r2 = bool_decide (5%N ∈ [5%N; 7%N])
    ∧ liked r1 = negb (liked r2).
Proof.
  apply (toggleLike_involution sample_env sample_history 5%N 0%N
           (mkPost 1%N "http://host/uploads/a.mp4" "hello" ["fun"; "cats"]
                   (45 # 1) [5%N; 7%N] [] 1 false 1000)).
  vm_compute. reflexivity.
Defined.

Example toggleLike_twice_on_fresh_post :
  let db := run sample_env [CreatePost 1000 1%N (sample_create "45")] empty_db in
  (toggleLike 5%N 0%N db).2 = Json (mkLikeReply 1 true)
  ∧ (toggleLike 5%N 0%N (toggleLike 5%N 0%N db).1).2 = Json (mkLikeReply 0 false).
Proof. vm_compute. done. Qed.

(** * Further properties of the handlers *)

(** ** One toggle of a like *)

(** X1. [toggleLike] on an identifier that no post has answers 404 and
    changes nothing.  On a stored post it flips the membership of the
    caller in the like array and of nobody else, and its answer describes
    the stored array: [likesCount] is its length and [liked] tells whether
    the caller is in it; nothing else in the store changes. *)
Theorem toggleLike_reply_matches_store (uid i : ObjectId) (db : Db) :
  match posts db !! i with
  | None => toggleLike uid i db = (db, Error 404 "Not found")
  | Some p =>
      ∃ r l',
        toggleLike uid i db
        = (set_posts (<[i := set_likes l' p]> (posts db)) db, Json r)
        ∧ likesCount r = length l'
        ∧ (liked r = true ↔ uid ∈ l')
        ∧ (uid ∈ l' ↔ uid ∉ likes p)
        ∧ (∀ x, x ≠ uid → (x ∈ l' ↔ x ∈ likes p))
  end.
Proof.
  destruct (posts db !! i) as [p|] eqn:Hp; [| by apply toggleLike_absent].
  rewrite (toggleLike_found uid i db p Hp).
  destruct (existsb (N.eqb uid) (likes p)) eqn:E.
  - apply some_equals in E. eexists _, _. split; [reflexivity |]. simpl.
    split; [done |]. pose proof (without_not_elem uid (likes p)) as Hnot.
    split; [naive_solver |]. split; [naive_solver |].
    intros x Hx. rewrite list_elem_of_filter. naive_solver.
  - apply some_equals_false in E. eexists _, _. split; [reflexivity |]. simpl.
    assert (Hin : uid ∈ likes p ++ [uid]).
    { apply elem_of_app. right. apply list_elem_of_here. }
    split; [done |]. split; [naive_solver |]. split; [naive_solver |].
    intros x Hx. rewrite elem_of_app, list_elem_of_singleton. naive_solver.
Qed.

(** ** Reads of one post *)

Lemma read_times_found (k : nat) (i : ObjectId) (db : Db) (p : Post) :
  posts db !! i = Some p →
  read_times k i db
  = set_posts (<[i := set_views (views p + Z.of_nat k) p]> (posts db)) db.
Proof.
  intros Hp. induction k as [|k IH].
  - simpl. rewrite Z.add_0_r. destruct db as [us ps fs]. unfold set_posts. simpl in *.
    f_equal. symmetry. apply insert_id. by destruct p.
  - unfold read_times in *. rewrite Nat.iter_succ, IH. unfold getPost. simpl.
    rewrite lookup_insert_eq. simpl. rewrite insert_insert_eq.
    unfold set_views, set_posts. simpl. do 3 f_equal. lia.
Qed.

(** X2. Every read of a stored post counts: after [k] calls of [getPost]
    the view counter is [k] higher, whoever reads, and nothing else in the
    store has changed. *)
Theorem getPost_counts_every_read (k : nat) (i : ObjectId) (db : Db) (p : Post) :
  posts db !! i = Some p →
  ∃ p', posts (read_times k i db) !! i = Some p'
        ∧ views p' = views p + Z.of_nat k
        ∧ p' = set_views (views p') p
        ∧ (∀ j, j ≠ i → posts (read_times k i db) !! j = posts db !! j)
        ∧ users (read_times k i db) = users db.
Proof.
  intros Hp. rewrite (read_times_found k i db p Hp). simpl.
  eexists. rewrite lookup_insert_eq. split; [reflexivity |]. simpl.
  split; [done |]. split; [done |]. split; [| done].
  intros j Hj. by rewrite lookup_insert_ne.
Qed.

Lemma getPost_counts_every_read_witness :
  ∃ p', posts (read_times 3 2%N sample_db) !! 2%N = Some p'
        ∧ views p' = views (sample_post [5%N; 7%N] [] 1000) + Z.of_nat 3
        ∧ p' = set_views (views p') (sample_post [5%N; 7%N] [] 1000)
        ∧ (∀ j, j ≠ 2%N → posts (read_times 3 2%N sample_db) !! j
                          = posts sample_db !! j)
        ∧ users (read_times 3 2%N sample_db) = users sample_db.
Proof.
  apply (getPost_counts_every_read 3 2%N sample_db
           (sample_post [5%N; 7%N] [] 1000)).
  reflexivity.
Defined.

(** ** Requests that fail *)

(** X3. A request that is not answered with its result changes neither
    collection, whatever the route and the reason (validation, a missing
    document, a conflict, a schema error).  What it can leave behind is
    the video of a request to create a post: [multer] writes it to the
    upload directory before the request is validated, and the handler does
    not remove it.  Apart from that file the store after the request is
    the store before it.  The one request left out is a user following
    themself. *)
Theorem failed_request_effect (env : Env) (db : Db) (r : Request) :
  ¬ self_follow r → succeeds env db r = false →
  step env db r = store_upload (uploaded_with r) db
  ∧ users (step env db r) = users db
  ∧ posts (step env db r) = posts db.
Proof.
  intros Hself Hfail.
  assert (H : step env db r = store_upload (uploaded_with r) db).
  { revert Hfail. destruct r; simpl in *.
    - unfold register. handler_cases.
    - unfold login. handler_cases.
    - unfold createPost. cbv zeta. handler_cases.
    - unfold listFeed. handler_cases.
    - unfold getPost. handler_cases.
    - unfold toggleLike. handler_cases.
    - unfold addComment. handler_cases.
    - unfold addReply. handler_cases.
    - destruct (users db !! target) as [toFollow|] eqn:Hto;
        [| intros _; apply toggleFollow_missing; auto].
      destruct (users db !! uid) as [me|] eqn:Hme;
        [| intros _; apply toggleFollow_missing; auto].
      destruct (toggleFollow_other uid target db me toFollow Hself Hme Hto)
        as (_ & _ & _ & Hjson & _).
      rewrite Hjson. done. }
  rewrite H. split; [done |].
  split; [apply store_upload_users | apply store_upload_posts].
Qed.

Lemma failed_request_effect_witness :
  (step sample_env sample_pair (CreatePost 2000 1%N (sample_create "400"))
   = store_upload (Some "a.mp4") sample_pair
   ∧ users (step sample_env sample_pair (CreatePost 2000 1%N (sample_create "400")))
     = users sample_pair
   ∧ posts (step sample_env sample_pair (CreatePost 2000 1%N (sample_create "400")))
     = posts sample_pair)
  ∧ step sample_env sample_db (AddReply 20 7%N 2%N 9%N (Some "thanks")) = sample_db
  ∧ step sample_env sample_db (ToggleFollow 1%N 9%N) = sample_db
  ∧ step sample_env sample_db
         (Register "salt" 100 (sample_register "alice" "new@x.com" "secret1"))
    = sample_db.
Proof.
  split; [| split; [| split]].
  - apply (failed_request_effect sample_env sample_pair
             (CreatePost 2000 1%N (sample_create "400"))); [simpl; tauto |].
    vm_compute. reflexivity.
  - apply (failed_request_effect sample_env sample_db
             (AddReply 20 7%N 2%N 9%N (Some "thanks"))); [simpl; tauto |].
    vm_compute. reflexivity.
  - apply (failed_request_effect sample_env sample_db
             (ToggleFollow 1%N 9%N)); [simpl; discriminate |].
    vm_compute. reflexivity.
  - apply (failed_request_effect sample_env sample_db
             (Register "salt" 100 (sample_register "alice" "new@x.com" "secret1")));
      [simpl; tauto |].
    vm_compute. reflexivity.
Defined.

(** The refused request has left its video in the upload directory. *)
Example failed_upload_stays :
  uploads sample_pair = ∅
  ∧ uploads (step sample_env sample_pair
               (CreatePost 2000 1%N (sample_create "400"))) = {[ "a.mp4" ]}.
Proof. split; vm_compute; reflexivity. Qed.

(** ** What the routes keep of a stored post *)

Section PostsGrow.
Context (env : Env).
Implicit Types (db : Db) (p : Post) (c : Comment) (cs : list Comment).

#[local] Instance comment_grew_refl : Reflexive comment_grew.
Proof. intros c. by repeat split. Qed.

#[local] Instance comment_grew_trans : Transitive comment_grew.
Proof.
  intros c1 c2 c3 (? & ? & ? & ? & Hp) (? & ? & ? & ? & Hq).
  repeat split; try congruence. by etrans.
Qed.

Lemma comments_grew_refl cs : comments_grew cs cs.
Proof.
  exists cs, []. split; [by rewrite app_nil_r |].
  apply Forall_Forall2_diag, Forall_forall. by intros c _.
Qed.

Lemma comments_grew_trans cs1 cs2 cs3 :
  comments_grew cs1 cs2 → comments_grew cs2 cs3 → comments_grew cs1 cs3.
Proof.
  intros (old & new & -> & H12) (old' & new' & -> & H23).
  apply Forall2_app_inv_l in H23 as (o1 & o2 & Ho1 & _ & ->).
  exists o1, (o2 ++ new'). split; [by rewrite app_assoc |].
  eapply Forall2_trans; [| exact H12 | exact Ho1].
  intros ???. apply comment_grew_trans.
Qed.

Lemma comments_grew_push cs c : comments_grew cs (cs ++ [c]).
Proof.
  exists cs, [c]. split; [done |].
  apply Forall_Forall2_diag, Forall_forall. by intros c' _.
Qed.

Lemma comments_grew_reply cs k c (r : Reply) :
  cs !! k = Some c →
  comments_grew cs (<[k := set_replies (comment_replies c ++ [r]) c]> cs).
Proof.
  intros Hk. eexists _, []. split; [by rewrite app_nil_r |].
  rewrite <- (list_insert_id cs k c Hk) at 1.
  apply Forall2_insert.
  - apply Forall_Forall2_diag, Forall_forall. by intros c' _.
  - repeat split. simpl. by apply prefix_app_r.
Qed.

Lemma post_grew_refl p : post_grew p p.
Proof. repeat split; try done; try lia. apply comments_grew_refl. Qed.

Lemma post_grew_trans p1 p2 p3 : post_grew p1 p2 → post_grew p2 p3 → post_grew p1 p3.
Proof.
  intros (? & ? & ? & ? & ? & ? & ? & ? & Hc) (? & ? & ? & ? & ? & ? & ? & ? & Hc').
  repeat split; try congruence; try lia. by eapply comments_grew_trans.
Qed.

(** Writing a grown version of a stored post, or a post under an unused
    identifier, keeps every stored post. *)
Lemma posts_grow_insert db i j p q :
  posts db !! i = Some p →
  (match posts db !! j with Some old => post_grew old q | None => True end) →
  ∃ p', posts (set_posts (<[j := q]> (posts db)) db) !! i = Some p'
        ∧ post_grew p p'.
Proof.
  intros Hp Hq. simpl. destruct (decide (i = j)) as [-> | Hne].
  - rewrite lookup_insert_eq. rewrite Hp in Hq. by exists q.
  - rewrite lookup_insert_ne by done. exists p. split; [done |].
    apply post_grew_refl.
Qed.

Lemma posts_grow_step db (r : Request) i p :
  posts db !! i = Some p →
  ∃ p', posts (step env db r) !! i = Some p' ∧ post_grew p p'.
Proof.
  intros Hp.
  assert (Hsame : ∀ db', posts db' = posts db →
                         ∃ p', posts db' !! i = Some p' ∧ post_grew p p').
  { intros db' ->. exists p. split; [done | apply post_grew_refl]. }
  destruct r; simpl.
  - apply Hsame. unfold register. handler_cases.
  - apply Hsame. unfold login. handler_cases.
  - unfold createPost. upload_stored db' Hus Hps.
    handler_cases; try by apply Hsame.
    rewrite <- Hps in Hp.
    apply (posts_grow_insert db'); [done |]. by rewrite newObjectId_no_post.
  - apply Hsame. unfold listFeed. handler_cases.
  - unfold getPost. destruct (posts db !! i0) as [q|] eqn:Hq; [| by apply Hsame].
    simpl. apply posts_grow_insert; [done |]. rewrite Hq.
    repeat split; simpl; try lia. apply comments_grew_refl.
  - destruct (posts db !! i0) as [q|] eqn:Hq.
    + rewrite (toggleLike_found uid i0 db q Hq). simpl.
      apply posts_grow_insert; [done |]. rewrite Hq.
      repeat split; simpl; try lia. apply comments_grew_refl.
    + rewrite toggleLike_absent by done. by apply Hsame.
  - unfold addComment. destruct (text_errors text); [| by apply Hsame].
    destruct (posts db !! i0) as [q|] eqn:Hq; [| by apply Hsame].
    rewrite last_snoc. apply posts_grow_insert; [done |]. rewrite Hq.
    repeat split; simpl; try lia. apply comments_grew_push.
  - unfold addReply. destruct (text_errors text); [| by apply Hsame].
    destruct (posts db !! i0) as [q|] eqn:Hq; [| by apply Hsame].
    destruct (comment_by_id cid (comments q)) as [[k c]|] eqn:Hc;
      [| by apply Hsame].
    rewrite last_snoc. apply posts_grow_insert; [done |]. rewrite Hq.
    apply list_find_Some in Hc as (Hk & _ & _).
    repeat split; simpl; try lia. by apply comments_grew_reply.
  - apply Hsame. unfold toggleFollow. handler_cases.
Qed.

Lemma posts_grow_run (rs : list Request) db i p :
  posts db !! i = Some p →
  ∃ p', posts (run env rs db) !! i = Some p' ∧ post_grew p p'.
Proof.
  unfold run. revert db p. induction rs as [|r rs IH]; intros db p Hp.
  - exists p. split; [done | apply post_grew_refl].
  - simpl. destruct (posts_grow_step db r i p Hp) as (p1 & Hp1 & Hg1).
    destruct (IH _ _ Hp1) as (p2 & Hp2 & Hg2).
    exists p2. split; [done |]. by eapply post_grew_trans.
Qed.

End PostsGrow.

(** X4. No sequence of requests deletes a post or rewrites it: a stored
    post stays stored under its identifier with the same author, video,
    caption, hashtags, duration, promotion flag and creation time, and its
    view counter never goes down. *)
Theorem post_never_lost (env : Env) (rs : list Request) (db : Db)
    (i : ObjectId) (p : Post) :
  posts db !! i = Some p →
  ∃ p', posts (run env rs db) !! i = Some p'
        ∧ author p' = author p ∧ videoUrl p' = videoUrl p
        ∧ caption p' = caption p ∧ hashtags p' = hashtags p
        ∧ durationSec p' = durationSec p ∧ isPromoted p' = isPromoted p
        ∧ createdAt p' = createdAt p
        ∧ views p ≤ views p'.
Proof.
  intros Hp. destruct (posts_grow_run env rs db i p Hp) as (p' & Hp' & Hg).
  exists p'. split; [done |].
  destruct Hg as (? & ? & ? & ? & ? & ? & ? & ? & _). done.
Qed.

Lemma post_never_lost_witness :
  ∃ p', posts (run sample_env sample_history sample_db) !! 2%N = Some p'
        ∧ author p' = 1%N ∧ videoUrl p' = "http://host/uploads/a.mp4"
        ∧ caption p' = "" ∧ hashtags p' = ["fun"]
        ∧ durationSec p' = 45 # 1 ∧ isPromoted p' = false
        ∧ createdAt p' = 1000
        ∧ 0 ≤ views p'.
Proof.
  apply (post_never_lost sample_env sample_history sample_db 2%N
           (sample_post [5%N; 7%N] [] 1000)).
  reflexivity.
Defined.

(** X5. Comments and replies are append-only: after any sequence of
    requests a post has at least as many comments, every comment it had is
    at the same place with the same identifier, author, text and time, and
    the replies that comment had are the first replies it has now. *)
Theorem comments_append_only (env : Env) (rs : list Request) (db : Db)
    (i : ObjectId) (p : Post) :
  posts db !! i = Some p →
  ∃ p', posts (run env rs db) !! i = Some p'
        ∧ (length (comments p) ≤ length (comments p'))%nat
        ∧ ∀ k c, comments p !! k = Some c →
                 ∃ c', comments p' !! k = Some c'
                       ∧ comment_id c' = comment_id c
                       ∧ comment_author c' = comment_author c
                       ∧ comment_text c' = comment_text c
                       ∧ comment_createdAt c' = comment_createdAt c
                       ∧ comment_replies c `prefix_of` comment_replies c'.
Proof.
  intros Hp. destruct (posts_grow_run env rs db i p Hp) as (p' & Hp' & Hg).
  exists p'. split; [done |].
  destruct Hg as (_ & _ & _ & _ & _ & _ & _ & _ & old & new & Hcs & Hall).
  rewrite Hcs. split.
  - rewrite length_app, <- (Forall2_length _ _ _ Hall). lia.
  - intros k c Hk.
    destruct (Forall2_lookup_l _ _ _ _ _ Hall Hk) as (c' & Hk' & Hcc).
    exists c'. split; [by apply lookup_app_l_Some | exact Hcc].
Qed.

Lemma comments_append_only_witness :
  ∃ p', posts (run sample_env sample_thread sample_commented) !! 2%N = Some p'
        ∧ (length [sample_comment] ≤ length (comments p'))%nat
        ∧ ∀ k c, [sample_comment] !! k = Some c →
                 ∃ c', comments p' !! k = Some c'
                       ∧ comment_id c' = comment_id c
                       ∧ comment_author c' = comment_author c
                       ∧ comment_text c' = comment_text c
                       ∧ comment_createdAt c' = comment_createdAt c
                       ∧ comment_replies c `prefix_of` comment_replies c'.
Proof.
  apply (comments_append_only sample_env sample_thread sample_commented 2%N
           (sample_post [5%N; 7%N] [sample_comment] 1000)).
  reflexivity.
Defined.

Example sample_thread_result :
  comments <$> posts (run sample_env sample_thread sample_commented) !! 2%N
  = Some [mkComment 3%N 5%N "nice" 10 [mkReply 4%N 7%N "thanks" 20];
          mkComment 5%N 7%N "again" 30 []].
Proof. vm_compute. reflexivity. Qed.

(** ** What the store holds *)

Section PostsWellFormed.
Context (env : Env).
Implicit Types (db : Db) (p : Post).

Lemma well_formed_insert db i p :
  all_posts_well_formed db → post_well_formed p →
  all_posts_well_formed (set_posts (<[i := p]> (posts db)) db).
Proof.
  intros Hdb Hp j q. simpl. destruct (decide (j = i)) as [-> | Hne].
  - rewrite lookup_insert_eq. by intros [= <-].
  - rewrite lookup_insert_ne by done. apply Hdb.
Qed.

Lemma post_grew_well_formed p p' :
  post_grew p p' → post_well_formed p → post_well_formed p'.
Proof.
  intros (_ & Hv & Hc & Hh & Hd & _) (? & ? & ? & ? & ?).
  unfold post_well_formed. by rewrite Hv, Hc, Hh, Hd.
Qed.

Lemma created_post_well_formed now uid r db db' i p :
  createPost env now uid r db = (db', Json (i, p)) → post_well_formed p.
Proof.
  unfold createPost. destruct (create_errors r) eqn:Herr; [| done].
  destruct (cp_file r) as [f|]; [| done].
  destruct (JsNumber.toNumber _) as [v| |] eqn:Hv; [| done | done].
  destruct (post_schema_ok _) eqn:Hok; [| done].
  intros [= <- <- <-].
  apply create_errors_nil, isFloat_duration, isFloat_reads in Herr
    as (v' & Hv' & _ & H0 & H300).
  rewrite Hv in Hv'. injection Hv' as <-.
  apply andb_true_iff in Hok as [Hurl Hcap]. simpl in *.
  repeat split; try done.
  - by apply Nat.leb_le.
  - intros E. simpl in E. by rewrite E in Hurl.
  - apply Forall_fmap, Forall_forall. intros s _.
    apply cast_hashtag_lower_trimmed.
Qed.

(** A post under an identifier that was unused comes from [POST /]. *)
Lemma post_origin db (r : Request) i p' :
  posts db !! i = None → posts (step env db r) !! i = Some p' →
  ∃ now uid cr db', r = CreatePost now uid cr
                    ∧ createPost env now uid cr db = (db', Json (i, p')).
Proof.
  intros Hnone.
  assert (Hsame : ∀ db', posts db' = posts db → posts db' !! i = Some p' → False).
  { intros db' ->. congruence. }
  assert (Hins : ∀ j q, is_Some (posts db !! j) →
                        posts (set_posts (<[j := q]> (posts db)) db) !! i = Some p'
                        → False).
  { intros j q [q' Hj]. simpl. destruct (decide (i = j)) as [-> | Hne].
    - congruence.
    - rewrite lookup_insert_ne by done. congruence. }
  destruct r as [salt now b | now b | now uid cr | q | j | uid j | now uid j text
                | now uid j cid text | uid target]; simpl.
  - intros H. exfalso. apply (Hsame (register env salt now b db).1); [| done].
    unfold register. handler_cases.
  - intros H. exfalso. apply (Hsame (login env now b db).1); [| done].
    unfold login. handler_cases.
  - intros H. exists now, uid, cr. revert H. unfold createPost.
    upload_stored db1 Hus Hps. rewrite <- Hps in Hnone.
    handler_cases; try congruence.
    destruct (decide (i = newObjectId db1)) as [-> | Hne].
    + rewrite lookup_insert_eq. intros [= <-]. by eexists.
    + rewrite lookup_insert_ne by done. congruence.
  - intros H. exfalso. apply (Hsame (listFeed q db).1); [| done].
    unfold listFeed. handler_cases.
  - unfold getPost. destruct (posts db !! j) as [q|] eqn:Hq; [| simpl; congruence].
    intros H. by destruct (Hins j _ ltac:(by eexists) H).
  - unfold toggleLike. destruct (posts db !! j) as [q|] eqn:Hq; [| simpl; congruence].
    intros H. by destruct (Hins j _ ltac:(by eexists) H).
  - unfold addComment. destruct (text_errors text); [| simpl; congruence].
    destruct (posts db !! j) as [q|] eqn:Hq; [| simpl; congruence].
    rewrite last_snoc. intros H. by destruct (Hins j _ ltac:(by eexists) H).
  - unfold addReply. destruct (text_errors text); [| simpl; congruence].
    destruct (posts db !! j) as [q|] eqn:Hq; [| simpl; congruence].
    destruct (comment_by_id cid (comments q)) as [[k c]|]; [| simpl; congruence].
    rewrite last_snoc. intros H. by destruct (Hins j _ ltac:(by eexists) H).
  - intros H. exfalso. apply (Hsame (toggleFollow uid target db).1); [| done].
    unfold toggleFollow. handler_cases.
Qed.

Lemma well_formed_step db (r : Request) :
  all_posts_well_formed db → all_posts_well_formed (step env db r).
Proof.
  intros Hdb i p' Hp'.
  destruct (posts db !! i) as [p|] eqn:Hp.
  - destruct (posts_grow_step env db r i p Hp) as (q & Hq & Hg).
    rewrite Hq in Hp'. injection Hp' as <-.
    by apply (post_grew_well_formed p), (Hdb i).
  - destruct (post_origin db r i p' Hp Hp') as (now & uid & cr & db' & _ & Hc).
    by apply (created_post_well_formed now uid cr db db' i).
Qed.

Lemma well_formed_run (rs : list Request) db :
  all_posts_well_formed db → all_posts_well_formed (run env rs db).
Proof.
  unfold run. revert db. induction rs as [|r rs IH]; intros db Hdb; [done |].
  simpl. by apply IH, well_formed_step.
Qed.

End PostsWellFormed.

(** X6. Every post in a store that the service reaches from the empty store
    has a duration above 0 and below 300, a caption of at most 280
    characters, a video address that is not empty, hashtags in lower case
    without white space at their ends, and a like array that holds no user
    twice. *)
Theorem stored_posts_well_formed (env : Env) (rs : list Request)
    (i : ObjectId) (p : Post) :
  posts (run env rs empty_db) !! i = Some p →
  (0 < durationSec p)%Q ∧ (durationSec p < 300 # 1)%Q
  ∧ (String.length (caption p) ≤ 280)%nat
  ∧ videoUrl p ≠ ""
  ∧ Forall (λ s, lowercase s ∧ trimmed s) (hashtags p)
  ∧ NoDup (likes p).
Proof.
  intros Hp.
  assert (Hwf : post_well_formed p).
  { apply (well_formed_run env rs empty_db) with i; [| done].
    intros j q Hq. simpl in Hq. by rewrite lookup_empty in Hq. }
  destruct Hwf as (? & ? & ? & ? & ?).
  repeat split; try done.
  by apply (likes_are_sets_reachable env rs i).
Qed.

Lemma stored_posts_well_formed_witness :
  (0 < 45 # 1)%Q ∧ (45 # 1 < 300 # 1)%Q
  ∧ (String.length "hello" ≤ 280)%nat
  ∧ "http://host/uploads/a.mp4" ≠ ""
  ∧ Forall (λ s, lowercase s ∧ trimmed s) ["fun"; "cats"]
  ∧ NoDup [5%N; 7%N].
Proof.
  apply (stored_posts_well_formed sample_env sample_history 0%N
           (mkPost 1%N "http://host/uploads/a.mp4" "hello" ["fun"; "cats"]
                   (45 # 1) [5%N; 7%N] [] 1 false 1000)).
  vm_compute. reflexivity.
Defined.

(** ** What the routes keep of a stored user *)

Section UsersKept.
Context (env : Env).
Implicit Types (db : Db) (us : gmap ObjectId User) (u : User).

Lemma user_kept_refl u : user_kept u u.
Proof. by repeat split. Qed.

Lemma users_kept_refl us : users_kept us us.
Proof. intros i. destruct (us !! i); [apply user_kept_refl | done]. Qed.

Lemma users_kept_trans us1 us2 us3 :
  users_kept us1 us2 → users_kept us2 us3 → users_kept us1 us3.
Proof.
  intros H12 H23 i. specialize (H12 i). specialize (H23 i).
  destruct (us1 !! i), (us2 !! i), (us3 !! i); try done.
  destruct H12 as (? & ? & ? & ? & ? & ?), H23 as (? & ? & ? & ? & ? & ?).
  repeat split; congruence.
Qed.

Lemma save_kept (d : UserDoc) us us' : save d us = Some us' → users_kept us us'.
Proof.
  unfold save. destruct (is_modified _ || is_modified _).
  - destruct (us !! doc_id d) as [stored|] eqn:Hs; [| done].
    destruct (_ && _); [done |]. intros [= <-] i.
    destruct (decide (i = doc_id d)) as [-> | Hne].
    + rewrite lookup_insert_eq, Hs. by repeat split.
    + rewrite lookup_insert_ne by done. apply users_kept_refl.
  - intros [= <-]. apply users_kept_refl.
Qed.

Lemma toggleFollow_kept uid target db :
  users_kept (users db) (users (toggleFollow uid target db).1).
Proof.
  unfold toggleFollow.
  destruct (users db !! target) as [toFollow|]; [| apply users_kept_refl].
  destruct (users db !! uid) as [me|]; [| apply users_kept_refl].
  cbv zeta.
  destruct (save (mkUserDoc uid me _ _) (users db)) as [us1|] eqn:H1;
    [| apply users_kept_refl].
  apply save_kept in H1.
  destruct (save (mkUserDoc target toFollow _ _) us1) as [us2|] eqn:H2; simpl.
  - apply save_kept in H2. by apply (users_kept_trans _ us1).
  - done.
Qed.

(** Every request other than a registration keeps the user collection;
    a registration keeps it or adds a user under an unused identifier. *)
Lemma users_step db (r : Request) :
  users_kept (users db) (users (step env db r))
  ∨ ∃ salt now b, r = Register salt now b
              ∧ register_errors env b = []
              ∧ ¬ taken b db
              ∧ user_schema_ok (new_user env salt b) = true
              ∧ users db !! newObjectId db = None
              ∧ users (step env db r)
                = <[newObjectId db := new_user env salt b]> (users db).
Proof.
  destruct r; simpl.
  - unfold register.
    destruct (register_errors env b) eqn:Herr; [| left; apply users_kept_refl].
    destruct (findOne _ (users db)) eqn:Hfind; [left; apply users_kept_refl |].
    destruct (user_schema_ok _) eqn:Hok; [| left; apply users_kept_refl].
    right. exists salt, now, b. simpl. repeat split; try done.
    + intros Ht%taken_found. rewrite Hfind in Ht. by destruct Ht.
    + apply newObjectId_no_user.
  - left. rewrite login_users. apply users_kept_refl.
  - left. rewrite createPost_users. apply users_kept_refl.
  - left. rewrite listFeed_users. apply users_kept_refl.
  - left. rewrite getPost_users. apply users_kept_refl.
  - left. rewrite toggleLike_users. apply users_kept_refl.
  - left. rewrite addComment_users. apply users_kept_refl.
  - left. rewrite addReply_users. apply users_kept_refl.
  - left. apply toggleFollow_kept.
Qed.

Lemma user_kept_step db (r : Request) i u :
  users db !! i = Some u →
  ∃ u', users (step env db r) !! i = Some u' ∧ user_kept u u'.
Proof.
  intros Hu.
  destruct (users_step db r)
    as [Hk | (salt & now & b & _ & _ & _ & _ & Hnew & ->)].
  - specialize (Hk i). rewrite Hu in Hk.
    destruct (users (step env db r) !! i) as [u'|]; [by exists u' | done].
  - exists u. split; [| apply user_kept_refl].
    rewrite lookup_insert_ne; [done | congruence].
Qed.

Lemma user_kept_run (rs : list Request) db i u :
  users db !! i = Some u →
  ∃ u', users (run env rs db) !! i = Some u' ∧ user_kept u u'.
Proof.
  unfold run. revert db u. induction rs as [|r rs IH]; intros db u Hu.
  - exists u. split; [done | apply user_kept_refl].
  - simpl. destruct (user_kept_step db r i u Hu) as (u1 & Hu1 & Hk1).
    destruct (IH _ _ Hu1) as (u2 & Hu2 & Hk2). exists u2. split; [done |].
    destruct Hk1 as (? & ? & ? & ? & ? & ?), Hk2 as (? & ? & ? & ? & ? & ?).
    repeat split; congruence.
Qed.

End UsersKept.

(** X7. No sequence of requests deletes a user or changes an account: a
    stored user stays stored under their identifier with the same user
    name, address, password hash, display name, bio and avatar.  Only the
    follow arrays of a stored user are ever written. *)
Theorem user_never_lost (env : Env) (rs : list Request) (db : Db)
    (i : ObjectId) (u : User) :
  users db !! i = Some u →
  ∃ u', users (run env rs db) !! i = Some u'
        ∧ username u' = username u ∧ email u' = email u
        ∧ passwordHash u' = passwordHash u ∧ displayName u' = displayName u
        ∧ bio u' = bio u ∧ avatarUrl u' = avatarUrl u.
Proof. apply user_kept_run. Qed.

Lemma user_never_lost_witness :
  ∃ u', users (run sample_env sample_follows sample_pair) !! 1%N = Some u'
        ∧ username u' = "alice" ∧ email u' = "alice@x.com"
        ∧ passwordHash u' = "h:secret1" ∧ displayName u' = None
        ∧ bio u' = None ∧ avatarUrl u' = None.
Proof.
  apply (user_never_lost sample_env sample_follows sample_pair 1%N
           (sample_user "alice" "alice@x.com")).
  reflexivity.
Defined.

(** ** Accounts are unique *)

Section UsersWellFormed.
Context (env : Env).
Implicit Types (db : Db) (us : gmap ObjectId User) (u : User).

Lemma users_well_formed_kept us us' :
  users_kept us us' → users_well_formed us → users_well_formed us'.
Proof.
  intros Hk [Hname Hmail Huniq].
  assert (Hback : ∀ i u', us' !! i = Some u' →
                          ∃ u, us !! i = Some u ∧ user_kept u u').
  { intros i u' Hu'. specialize (Hk i). rewrite Hu' in Hk.
    destruct (us !! i) as [u|]; [by exists u | done]. }
  split.
  - intros i u' (u & Hu & (-> & _))%Hback. by apply (Hname i).
  - intros i u' (u & Hu & (_ & -> & _))%Hback. by apply (Hmail i).
  - intros i j u' v' (u & Hu & (-> & -> & _))%Hback
                     (v & Hv & (-> & -> & _))%Hback.
    by apply Huniq.
Qed.

Lemma cast_email_normal (e : string) :
  lowercase (cast_email e) ∧ trimmed (cast_email e).
Proof. apply cast_hashtag_lower_trimmed. Qed.

Lemma users_well_formed_register us salt (b : RegisterBody) i :
  users_well_formed us → us !! i = None →
  user_schema_ok (new_user env salt b) = true →
  (∀ j u, us !! j = Some u →
          username u ≠ cast_username (field_text (reg_username b))
          ∧ email u ≠ cast_email (field_text (reg_email b))) →
  users_well_formed (<[i := new_user env salt b]> us).
Proof.
  intros [Hname Hmail Huniq] Hi Hok Hfree.
  assert (Hlook : ∀ j u, <[i := new_user env salt b]> us !! j = Some u →
                         (j = i ∧ u = new_user env salt b)
                         ∨ (j ≠ i ∧ us !! j = Some u)).
  { intros j u. destruct (decide (j = i)) as [-> | Hne].
    - rewrite lookup_insert_eq. intros [= <-]. by left.
    - rewrite lookup_insert_ne by done. by right. }
  split.
  - intros j u [[-> ->] | [_ Hu]]%Hlook; [| by apply (Hname j)]. simpl.
    split; [apply trim_idemp |].
    unfold user_schema_ok in Hok. simpl in Hok.
    apply andb_true_iff in Hok as [Hok _]. apply andb_true_iff in Hok as [Hok _].
    apply andb_true_iff in Hok as [_ Hok]. by apply Nat.leb_le.
  - intros j u [[-> ->] | [_ Hu]]%Hlook; [| by apply (Hmail j)]. simpl.
    apply cast_email_normal.
  - intros j k u v [[-> ->] | [Hj Hu]]%Hlook [[-> ->] | [Hk Hv]]%Hlook Hsame;
      simpl in Hsame.
    + done.
    + destruct (Hfree k v Hv). destruct Hsame; congruence.
    + destruct (Hfree j u Hu). destruct Hsame; congruence.
    + by apply (Huniq j k u v).
Qed.

Lemma users_well_formed_step db (r : Request) :
  users_well_formed (users db) → users_well_formed (users (step env db r)).
Proof.
  intros Hwf.
  destruct (users_step env db r)
    as [Hk | (salt & now & b & _ & _ & Hfree & Hok & Hnew & ->)].
  - by apply (users_well_formed_kept (users db)).
  - apply users_well_formed_register; try done.
    intros j u Hu. split; intros Heq; apply Hfree; exists j, u; auto.
Qed.

Lemma users_well_formed_run (rs : list Request) db :
  users_well_formed (users db) → users_well_formed (users (run env rs db)).
Proof.
  unfold run. revert db. induction rs as [|r rs IH]; intros db Hdb; [done |].
  simpl. by apply IH, users_well_formed_step.
Qed.

End UsersWellFormed.

(** X8. In every store that the service reaches from the empty store, a
    stored user name is trimmed and has at least three characters, a stored
    address is trimmed and in lower case, and no two users share a user
    name or an address. *)
Theorem accounts_unique (env : Env) (rs : list Request)
    (i j : ObjectId) (u v : User) :
  users (run env rs empty_db) !! i = Some u →
  users (run env rs empty_db) !! j = Some v →
  trimmed (username u) ∧ (3 ≤ String.length (username u))%nat
  ∧ lowercase (email u) ∧ trimmed (email u)
  ∧ (username u = username v ∨ email u = email v → i = j).
Proof.
  intros Hu Hv.
  assert (Hwf : users_well_formed (users (run env rs empty_db))).
  { apply users_well_formed_run. split; intros *; simpl;
      by rewrite lookup_empty. }
  destruct Hwf as [Hname Hmail Huniq].
  destruct (Hname i u Hu), (Hmail i u Hu).
  repeat split; try done. by apply (Huniq i j u v).
Qed.

Lemma accounts_unique_witness :
  trimmed "alice" ∧ (3 ≤ String.length "alice")%nat
  ∧ lowercase "alice@x.com" ∧ trimmed "alice@x.com"
  ∧ ("alice" = "bob" ∨ "alice@x.com" = "bob@x.com" → 0%N = 1%N).
Proof.
  apply (accounts_unique sample_env sample_signups 0%N 1%N
           (mkUser "alice" "alice@x.com" "h:secret1" None None None [] [] 0%N)
           (mkUser "bob" "bob@x.com" "h:secret2" None None None [] [] 0%N)).
  - vm_compute. reflexivity.
  - vm_compute. reflexivity.
Defined.

Example sample_signups_result :
  size (users (run sample_env sample_signups empty_db)) = 2%nat.
Proof. vm_compute. reflexivity. Qed.

(** ** Logging in, continued *)

(** X9. A login is answered with a token only for a stored user whose
    address is the given one (trimmed, in lower case) and whose stored hash
    matches the given password, a string; the token is signed for that user
    at the time of the login, the identity is that of the user, and the
    store is unchanged. *)
Theorem login_only_with_matching_hash (env : Env) (now : Z) (b : LoginBody)
    (db : Db) (reply : AuthReply) :
  (login env now b db).2 = Json reply →
  ∃ i u password,
    login_password b = Some (JString password)
    ∧ isEmail env (field_text (login_email b)) = true
    ∧ users db !! i = Some u
    ∧ email u = JsString.toLowerCase (JsString.trim (field_text (login_email b)))
    ∧ bcrypt_compare env password (passwordHash u) = true
    ∧ reply = mkAuthReply (jwt_sign env i now)
                          (mkIdentity i (username u) (email u) (displayName u))
    ∧ (login env now b db).1 = db.
Proof.
  unfold login. destruct (login_errors env b) as [|e es] eqn:Herr; [| done].
  apply failing_nil in Herr. apply Forall_cons in Herr as [Hmail _].
  simpl in Hmail.
  destruct (findOne _ (users db)) as [[i u]|] eqn:Hfind; [| done].
  apply findOne_Some in Hfind as [Hu Hmatch].
  apply bool_decide_eq_true in Hmatch.
  destruct (login_password b) as [[password| | | | |]|]; try done.
  destruct (bcrypt_compare env password (passwordHash u)) eqn:Hcmp; [| done].
  simpl. intros [= <-]. by exists i, u, password.
Qed.

Lemma login_only_with_matching_hash_witness :
  ∃ i u password,
    Some (JString "secret1") = Some (JString password)
    ∧ isEmail sample_env "Alice@X.com" = true
    ∧ users sample_db !! i = Some u
    ∧ email u = JsString.toLowerCase (JsString.trim "Alice@X.com")
    ∧ bcrypt_compare sample_env password (passwordHash u) = true
    ∧ mkAuthReply "jwt.1.100" (mkIdentity 1%N "alice" "alice@x.com" None)
      = mkAuthReply (jwt_sign sample_env i 100)
                    (mkIdentity i (username u) (email u) (displayName u))
    ∧ (login sample_env 100
             (mkLoginBody (Some "Alice@X.com") (Some (JString "secret1")))
             sample_db).1 = sample_db.
Proof.
  apply (login_only_with_matching_hash sample_env 100
           (mkLoginBody (Some "Alice@X.com") (Some (JString "secret1"))) sample_db
           (mkAuthReply "jwt.1.100" (mkIdentity 1%N "alice" "alice@x.com" None))).
  vm_compute. reflexivity.
Defined.



(** The token of the login is not the token of the registration: each
    carries its own time of issue. *)
Example register_then_login_tokens :
  token <$> reply_of (register sample_env "salt" 100
                        (sample_register "bob" "Bob@X.com" "secret2") sample_db).2
  = Some "jwt.3.100"
  ∧ token <$> reply_of
      (login sample_env 200
         (mkLoginBody (Some "BOB@x.com") (Some (JString "secret2")))
         (register sample_env "salt" 100
            (sample_register "bob" "Bob@X.com" "secret2") sample_db).1).2
    = Some "jwt.3.200".
Proof. split; vm_compute; reflexivity. Qed.

Lemma login_failure_hides_store_witness :
  (login sample_env 100
         (mkLoginBody (Some "alice@x.com") (Some (JString "guess"))) sample_db).2
  = (login sample_env 200
           (mkLoginBody (Some "alice@x.com") (Some (JString "guess"))) empty_db).2.
Proof.
  apply (login_failure_hides_store sample_env 100 200
           (mkLoginBody (Some "alice@x.com") (Some (JString "guess")))
           sample_db empty_db).
  - intros v [= <-]. by exists "guess".
  - reflexivity.
  - reflexivity.
Defined.

(** ** The feed, continued *)

Lemma cast_lower_hashtag (h : string) :
  cast_hashtag (JsString.toLowerCase h)
  = JsString.toLowerCase (JsString.trim h).
Proof. unfold cast_hashtag. by rewrite trim_lower, toLowerCase_idemp. Qed.

Lemma feed_all_matches q db i p :
  (i, p) ∈ feed_all q db →
  match q_hashtag q with
  | Some h => h ≠ "" → JsString.toLowerCase (JsString.trim h) ∈ hashtags p
  | None => True
  end.
Proof.
  unfold feed_all, sort_newest. rewrite merge_sort_Permutation.
  intros [_ H]%list_elem_of_In%filter_In. unfold feed_filter in H.
  destruct (q_hashtag q) as [h|]; [| done]. intros Hne.
  destruct h as [|c h]; [done |]. cbn [JsString.truthy] in H.
  rewrite cast_lower_hashtag in H. by apply bool_decide_eq_true in H.
Qed.

(** X12. With a limit of at least one (or none given), the feed answers at
    most [min 50 limit] posts, ordered newest first and without repeats;
    each of them is a stored post, and with a hashtag filter each of them
    carries the hashtag of the query, trimmed and in lower case. *)
Theorem listFeed_page (q : FeedQuery) (db : Db) :
  1 ≤ default 12 (q_limit q) →
  ∃ l, listFeed q db
       = (db, Json (mkFeedReply l (Z.max 0 (default 0 (q_page q)))
                                (Z.min 50 (default 12 (q_limit q)))))
       ∧ Z.of_nat (length l) ≤ Z.min 50 (default 12 (q_limit q))
       ∧ StronglySorted newer_first l
       ∧ NoDup l
       ∧ ∀ i p, (i, p) ∈ l →
                posts db !! i = Some p
                ∧ match q_hashtag q with
                  | Some h =>
                      h ≠ "" →
                      JsString.toLowerCase (JsString.trim h) ∈ hashtags p
                  | None => True
                  end.
Proof.
  intros Hl. destruct (listFeed_slice q db Hl) as [E [Hlim Hpage]].
  rewrite E. eexists. split; [reflexivity |].
  set (n := Z.to_nat (feed_limit_of q)).
  set (k := (Z.to_nat (feed_page_of q) * n)%nat).
  set (all := feed_all q db).
  assert (Hsub : take n (drop k all) `sublist_of` all).
  { etrans; [apply sublist_take | apply sublist_drop]. }
  split; [| split; [| split]].
  - rewrite length_take. fold (feed_limit_of q). lia.
  - pose proof (feed_all_sorted q db) as Hs. fold all in Hs.
    rewrite <- (take_drop k all) in Hs. apply StronglySorted_app_1_r in Hs.
    rewrite <- (take_drop n (drop k all)) in Hs.
    by apply StronglySorted_app_1_l in Hs.
  - apply (sublist_NoDup _ all); [apply feed_all_NoDup | done].
  - intros i p Hin. assert (Hall : (i, p) ∈ all)
      by (by apply (elem_of_sublist _ _ _ Hin)).
    split; [by apply (feed_all_stored q db) | by apply (feed_all_matches q db i)].
Qed.

Lemma listFeed_page_witness :
  ∃ l, listFeed (mkFeedQuery (Some 1) (Some 2) (Some " Fun ")) (feed_db 5)
       = (feed_db 5, Json (mkFeedReply l (Z.max 0 1) (Z.min 50 2)))
       ∧ Z.of_nat (length l) ≤ Z.min 50 2
       ∧ StronglySorted newer_first l
       ∧ NoDup l
       ∧ ∀ i p, (i, p) ∈ l →
                posts (feed_db 5) !! i = Some p
                ∧ (" Fun " ≠ "" →
                   JsString.toLowerCase (JsString.trim " Fun ") ∈ hashtags p).
Proof.
  apply (listFeed_page (mkFeedQuery (Some 1) (Some 2) (Some " Fun ")) (feed_db 5)).
  simpl. lia.
Defined.

Example listFeed_padded_hashtag :
  ∃ l, feed_of_tag " Fun " (feed_db 3) = Json (mkFeedReply l 0 12)
       ∧ l.*1 = [2%N; 1%N; 0%N].
Proof. eexists. split; [vm_compute; reflexivity | reflexivity]. Qed.

(** X13. With the same limit of at least one and the same filter, two
    different pages of the feed have no post in common. *)
Theorem listFeed_pages_disjoint (page page' limit : Z) (tag : option string)
    (db : Db) (l l' : list (ObjectId * Post)) (lim lim' : Z) :
  1 ≤ limit → 0 ≤ page < page' →
  (listFeed (mkFeedQuery (Some page) (Some limit) tag) db).2
  = Json (mkFeedReply l page lim) →
  (listFeed (mkFeedQuery (Some page') (Some limit) tag) db).2
  = Json (mkFeedReply l' page' lim') →
  ∀ x, x ∈ l → x ∉ l'.
Proof.
  intros Hl Hp.
  set (q := mkFeedQuery (Some page) (Some limit) tag).
  set (q' := mkFeedQuery (Some page') (Some limit) tag).
  destruct (listFeed_slice q db Hl) as [E [Hlim _]].
  destruct (listFeed_slice q' db Hl) as [E' _].
  rewrite E, E'. simpl.
  change (feed_limit_of q') with (feed_limit_of q).
  change (feed_all q' db) with (feed_all q db).
  replace (feed_page_of q) with page by (unfold feed_page_of; simpl; lia).
  replace (feed_page_of q') with page' by (unfold feed_page_of; simpl; lia).
  set (n := Z.to_nat (feed_limit_of q)). set (all := feed_all q db).
  intros [= <- _] [= <- _] x Hx Hx'.
  apply elem_of_take in Hx as (k & Hk & Hkn).
  apply elem_of_take in Hx' as (k' & Hk' & Hkn').
  rewrite lookup_drop in Hk, Hk'.
  pose proof (NoDup_lookup all _ _ x (feed_all_NoDup q db) Hk Hk') as Heq.
  assert (Z.to_nat page < Z.to_nat page')%nat by lia. nia.
Qed.

Lemma listFeed_pages_disjoint_witness :
  (2%N, sample_post [] [] 2) ∉ [(0%N, sample_post [] [] 0)].
Proof.
  apply (listFeed_pages_disjoint 1 2 2 None (feed_db 5)
           [(2%N, sample_post [] [] 2); (1%N, sample_post [] [] 1)]
           [(0%N, sample_post [] [] 0)] 2 2).
  - lia.
  - lia.
  - vm_compute. reflexivity.
  - vm_compute. reflexivity.
  - apply list_elem_of_here.
Defined.

(** X14. The hashtag filter of the feed does not depend on the letter case
    of the query: two hashtags that differ in letter case only select the
    same feed. *)
Theorem listFeed_hashtag_any_case (page limit : option Z) (h h' : string)
    (db : Db) :
  JsString.toLowerCase h = JsString.toLowerCase h' →
  listFeed (mkFeedQuery page limit (Some h)) db
  = listFeed (mkFeedQuery page limit (Some h')) db.
Proof.
  intros Hsame.
  assert (Htruthy : JsString.truthy h = JsString.truthy h').
  { destruct h, h'; try done; discriminate Hsame. }
  unfold listFeed.
  assert (Hfilter : ∀ kv, feed_filter (mkFeedQuery page limit (Some h)) kv
                          = feed_filter (mkFeedQuery page limit (Some h')) kv).
  { intros kv. unfold feed_filter. simpl. by rewrite Hsame, Htruthy. }
  by rewrite (List.filter_ext _ _ Hfilter).
Qed.

Lemma listFeed_hashtag_any_case_witness :
  listFeed (mkFeedQuery None None (Some "Fun")) (feed_db 3)
  = listFeed (mkFeedQuery None None (Some "FUN")) (feed_db 3).
Proof.
  apply (listFeed_hashtag_any_case None None "Fun" "FUN" (feed_db 3)).
  reflexivity.
Defined.

(** ** Following, continued *)

(** The answer of a call between two different stored users. *)
Lemma toggleFollow_other_reply (uid target : ObjectId) (db : Db)
    (me toFollow : User) :
  uid ≠ target →
  users db !! uid = Some me → users db !! target = Some toFollow →
  (toggleFollow uid target db).2
  = Json (mkFollowReply
            (length (if existsb (N.eqb target) (following me)
                     then filter (λ x, x ≠ target) (following me)
                     else following me ++ [target]))
            (length (if existsb (N.eqb target) (following me)
                     then filter (λ x, x ≠ uid) (followers toFollow)
                     else followers toFollow ++ [uid]))
            (negb (existsb (N.eqb target) (following me)))).
Proof.
  intros Hne Hme Hto. unfold toggleFollow. rewrite Hto, Hme. cbv zeta.
  set (me_following := if existsb (N.eqb target) (following me)
                       then assign (following me)
                              (filter (λ x, x ≠ target) (following me))
                       else Pushed target).
  set (to_followers := if existsb (N.eqb target) (following me)
                       then assign (followers toFollow)
                              (filter (λ x, x ≠ uid) (followers toFollow))
                       else Pushed uid).
  destruct (save_current (mkUserDoc uid me Unmodified me_following)
              (users db) me Hme eq_refl) as (me' & Hs1 & _).
  simpl in Hs1. rewrite Hs1.
  assert (Hto1 : <[uid := me']> (users db) !! target = Some toFollow)
    by (by rewrite lookup_insert_ne).
  destruct (save_current (mkUserDoc target toFollow to_followers Unmodified)
              _ toFollow Hto1 eq_refl) as (to' & Hs2 & _).
  simpl in Hs2. rewrite Hs2. simpl. unfold me_following, to_followers.
  destruct (existsb (N.eqb target) (following me));
    by rewrite ?changed_assign.
Qed.

(** X16. A call of [toggleFollow] between two different stored users is
    answered with what is stored after it: [followingCount] is the length
    of the caller's following array, [followersCount] the length of the
    target's followers array, and [following] tells whether the target is
    in the caller's following array, which is the opposite of before. *)
Theorem toggleFollow_reply_matches_store (uid target : ObjectId) (db : Db)
    (me toFollow : User) :
  uid ≠ target →
  users db !! uid = Some me → users db !! target = Some toFollow →
  ∃ r, (toggleFollow uid target db).2 = Json r
       ∧ followingCount r
         = length (following_of (users (toggleFollow uid target db).1) uid)
       ∧ followersCount r
         = length (followers_of (users (toggleFollow uid target db).1) target)
       ∧ (fr_following r = true
          ↔ target ∈ following_of (users (toggleFollow uid target db).1) uid)
       ∧ (fr_following r = true ↔ target ∉ following me).
Proof.
  intros Hne Hme Hto.
  destruct (toggleFollow_arrays uid target db me toFollow Hne Hme Hto)
    as [HE HF].
  rewrite (toggleFollow_other_reply uid target db me toFollow Hne Hme Hto).
  eexists. split; [reflexivity |]. simpl.
  rewrite HE, HF, !decide_True by done.
  split; [done |]. split; [done |].
  destruct (existsb (N.eqb target) (following me)) eqn:E; simpl.
  - apply some_equals in E. split; [| naive_solver].
    pose proof (without_not_elem target (following me)). naive_solver.
  - apply some_equals_false in E. split; [| naive_solver].
    split; [| done]. intros _. apply elem_of_app. right. apply list_elem_of_here.
Qed.

Lemma toggleFollow_reply_matches_store_witness :
  ∃ r, (toggleFollow 1%N 2%N sample_pair).2 = Json r
       ∧ followingCount r
         = length (following_of (users (toggleFollow 1%N 2%N sample_pair).1) 1%N)
       ∧ followersCount r
         = length (followers_of (users (toggleFollow 1%N 2%N sample_pair).1) 2%N)
       ∧ (fr_following r = true
          ↔ 2%N ∈ following_of (users (toggleFollow 1%N 2%N sample_pair).1) 1%N)
       ∧ (fr_following r = true
          ↔ 2%N ∉ following (sample_user "alice" "alice@x.com")).
Proof.
  apply (toggleFollow_reply_matches_store 1%N 2%N sample_pair
           (sample_user "alice" "alice@x.com") (sample_user "bob" "bob@x.com")).
  - discriminate.
  - reflexivity.
  - reflexivity.
Defined.

Section FollowTwice.
Implicit Types (db : Db) (uid target : ObjectId).

(** Under the invariant, two calls between two different stored users
    restore the follow arrays, up to their order. *)
Lemma toggleFollow_twice uid target db me toFollow :
  follow_inv (users db) → uid ≠ target →
  users db !! uid = Some me → users db !! target = Some toFollow →
  let db1 := (toggleFollow uid target db).1 in
  let db2 := (toggleFollow uid target db1).1 in
  (∀ a, following_of (users db2) a ≡ₚ following_of (users db) a)
  ∧ (∀ a, followers_of (users db2) a ≡ₚ followers_of (users db) a).
Proof.
  intros [HS HNfr HNfg _] Hne Hme Hto db1 db2.
  destruct (toggleFollow_other uid target db me toFollow Hne Hme Hto)
    as (me1 & to1 & Hdb1 & _ & _ & _ & Hfng1 & Hfrs1).
  fold db1 in Hdb1.
  assert (Hme1 : users db1 !! uid = Some me1).
  { rewrite Hdb1. simpl. by rewrite lookup_insert_ne, lookup_insert_eq. }
  assert (Hto1 : users db1 !! target = Some to1).
  { rewrite Hdb1. simpl. by rewrite lookup_insert_eq. }
  destruct (toggleFollow_arrays uid target db me toFollow Hne Hme Hto)
    as [HE1 HF1]. fold db1 in HE1, HF1.
  destruct (toggleFollow_arrays uid target db1 me1 to1 Hne Hme1 Hto1)
    as [HE2 HF2]. fold db2 in HE2, HF2.
  pose proof (HNfg uid) as Hnd. pose proof (HNfr target) as Hnd'.
  pose proof (HS uid target) as Hsym.
  rewrite (following_of_lookup _ _ _ Hme) in Hnd, Hsym.
  rewrite (followers_of_lookup _ _ _ Hto) in Hnd', Hsym.
  split.
  - intros a. rewrite HE2. case_decide as Ha; [| by rewrite HE1, decide_False].
    subst a. rewrite (following_of_lookup _ _ _ Hme), Hfng1.
    destruct (existsb (N.eqb target) (following me)) eqn:E.
    + apply some_equals in E.
      rewrite (proj2 (some_equals_false _ _) (without_not_elem _ _)).
      by apply push_without_perm.
    + apply some_equals_false in E.
      assert (E' : existsb (N.eqb target) (following me ++ [target]) = true).
      { apply some_equals, elem_of_app. right. apply list_elem_of_here. }
      rewrite E'. by rewrite without_push.
  - intros b. rewrite HF2. case_decide as Hb; [| by rewrite HF1, decide_False].
    subst b. rewrite (followers_of_lookup _ _ _ Hto), Hfng1, Hfrs1.
    destruct (existsb (N.eqb target) (following me)) eqn:E.
    + apply some_equals in E.
      rewrite (proj2 (some_equals_false _ _) (without_not_elem _ _)).
      apply push_without_perm; [done | by apply Hsym].
    + apply some_equals_false in E.
      assert (E' : existsb (N.eqb target) (following me ++ [target]) = true).
      { apply some_equals, elem_of_app. right. apply list_elem_of_here. }
      rewrite E'. rewrite without_push; [done |]. by rewrite Hsym.
Qed.

End FollowTwice.

(** X17. In a store reached from one without follow edges by requests in
    which no user follows themself, two calls of [toggleFollow] by a stored
    user on another stored user leave every user with the same followers
    and the same following as before the first call, up to the order of
    the arrays. *)
Theorem toggleFollow_involution (env : Env) (rs : list Request) (db0 : Db)
    (uid target : ObjectId) :
  no_follow_edges (users db0) →
  Forall (λ r, ¬ self_follow r) rs →
  uid ≠ target →
  is_Some (users (run env rs db0) !! uid) →
  is_Some (users (run env rs db0) !! target) →
  ∀ a,
    following_of
      (users (toggleFollow uid target
                (toggleFollow uid target (run env rs db0)).1).1) a
    ≡ₚ following_of (users (run env rs db0)) a
    ∧ followers_of
        (users (toggleFollow uid target
                  (toggleFollow uid target (run env rs db0)).1).1) a
      ≡ₚ followers_of (users (run env rs db0)) a.
Proof.
  intros Hstart Hrs Hne [me Hme] [toFollow Hto] a.
  assert (Hinv : follow_inv (users (run env rs db0)))
    by (by apply follow_inv_run, follow_inv_start).
  destruct (toggleFollow_twice uid target _ me toFollow Hinv Hne Hme Hto)
    as [HE HF].
  split; [apply HE | apply HF].
Qed.

Lemma toggleFollow_involution_witness :
  following_of
    (users (toggleFollow 2%N 1%N
              (toggleFollow 2%N 1%N
                 (run sample_env sample_follows sample_pair)).1).1) 2%N
  ≡ₚ following_of (users (run sample_env sample_follows sample_pair)) 2%N
  ∧ followers_of
      (users (toggleFollow 2%N 1%N
                (toggleFollow 2%N 1%N
                   (run sample_env sample_follows sample_pair)).1).1) 2%N
    ≡ₚ followers_of (users (run sample_env sample_follows sample_pair)) 2%N.
Proof.
  apply (toggleFollow_involution sample_env sample_follows sample_pair 2%N 1%N).
  - change (map_Forall (λ (_ : ObjectId) u, followers u = [] ∧ following u = [])
                       (users sample_pair)).
    apply (bool_decide_unpack _). vm_compute. exact I.
  - unfold sample_follows. repeat constructor; simpl; (done || tauto).
  - discriminate.
  - vm_compute. by eexists.
  - vm_compute. by eexists.
Defined.

(** X18. What [toggleFollow] does when a stored user calls it on
    themself.  The handler loads the user twice and saves both copies.  If
    the user is not in their own following array, the call succeeds and
    pushes the user to both of their own arrays.  If the user is in both
    of their own arrays, the first save takes the user out of the following
    array and moves the version, the second save is refused, and the call
    answers 500 with the user still in their own followers array. *)
Theorem toggleFollow_self (u : ObjectId) (db : Db) (me : User) :
  users db !! u = Some me →
  (u ∉ following me →
   ∃ me', toggleFollow u u db
          = (set_users (<[u := me']> (users db)) db,
             Json (mkFollowReply (S (length (following me)))
                                 (S (length (followers me))) true))
          ∧ following me' = following me ++ [u]
          ∧ followers me' = followers me ++ [u])
  ∧ (u ∈ following me → u ∈ followers me →
     ∃ me', toggleFollow u u db
            = (set_users (<[u := me']> (users db)) db,
               Error 500 "Failed to follow/unfollow")
            ∧ following me' = filter (λ x, x ≠ u) (following me)
            ∧ followers me' = followers me).
Proof.
  intros Hme. split.
  - intros Hnot%some_equals_false. unfold toggleFollow. rewrite Hme, Hnot.
    unfold save. simpl. rewrite Hme. simpl. rewrite lookup_insert_eq. simpl.
    rewrite insert_insert_eq, !length_app. simpl. rewrite !Nat.add_1_r.
    eexists. split; [reflexivity | done].
  - intros Hfng Hfrs.
    assert (Hne : ∀ l : list ObjectId, u ∈ l → filter (λ x, x ≠ u) l ≠ l).
    { intros l Hin Heq. rewrite <- Heq in Hin. by apply without_not_elem in Hin. }
    unfold toggleFollow. rewrite Hme.
    rewrite (proj2 (some_equals _ _) Hfng). unfold assign.
    rewrite !decide_False by auto.
    unfold save. simpl. rewrite Hme, N.eqb_refl. simpl.
    rewrite lookup_insert_eq. simpl.
    assert (Hv : (version me + 1 =? version me)%N = false)
      by (apply N.eqb_neq; lia).
    rewrite Hv. simpl. eexists. split; [reflexivity | done].
Qed.

Lemma toggleFollow_self_witness :
  (1%N ∉ following (sample_user "alice" "alice@x.com") →
   ∃ me', toggleFollow 1%N 1%N sample_db
          = (set_users (<[1%N := me']> (users sample_db)) sample_db,
             Json (mkFollowReply
                     (S (length (following (sample_user "alice" "alice@x.com"))))
                     (S (length (followers (sample_user "alice" "alice@x.com"))))
                     true))
          ∧ following me' = following (sample_user "alice" "alice@x.com") ++ [1%N]
          ∧ followers me' = followers (sample_user "alice" "alice@x.com") ++ [1%N])
  ∧ (1%N ∈ following (sample_user "alice" "alice@x.com") →
     1%N ∈ followers (sample_user "alice" "alice@x.com") →
     ∃ me', toggleFollow 1%N 1%N sample_db
            = (set_users (<[1%N := me']> (users sample_db)) sample_db,
               Error 500 "Failed to follow/unfollow")
            ∧ following me'
              = filter (λ x, x ≠ 1%N) (following (sample_user "alice" "alice@x.com"))
            ∧ followers me' = followers (sample_user "alice" "alice@x.com")).
Proof.
  apply (toggleFollow_self 1%N sample_db (sample_user "alice" "alice@x.com")).
  reflexivity.
Defined.

(** ** Refusals behind the validation chain *)

(** X19. A request to create a post whose duration is acceptable is still
    refused, and no post is stored, in two cases.  When no video came with
    it, the answer is status 400, [Video file required], and the store is
    as before.  When the video came but the caption has more than 280
    characters, the schema refuses the post and the handler answers status
    500; the collections are as before, and the video, which [multer] has
    written before the handler ran, stays in the upload directory. *)
Theorem createPost_rejections (env : Env) (now : Z) (uid : ObjectId)
    (r : CreatePostReq) (db : Db) :
  is_duration (cp_durationSec r) →
  (cp_file r = None →
   createPost env now uid r db = (db, Error 400 "Video file required"))
  ∧ (∀ filename,
       cp_file r = Some filename →
       (280 < String.length (field_text (cp_caption r)))%nat →
       createPost env now uid r db
       = (set_uploads ({[ filename ]} ∪ uploads db) db,
          Error 500 "Failed to create post")).
Proof.
  intros Hd. pose proof Hd as Hf. apply isFloat_duration in Hf.
  apply isFloat_reads in Hf as (v & Hv & _).
  apply create_errors_nil in Hd. unfold createPost. rewrite Hd. split.
  - by intros ->.
  - intros f -> Hlong. rewrite Hv.
    unfold post_schema_ok. simpl. rewrite video_url_truthy. simpl.
    by rewrite (proj2 (Nat.leb_gt _ _) Hlong).
Qed.

Lemma createPost_rejections_witness :
  createPost sample_env 2000 1%N sample_no_video sample_pair
  = (sample_pair, Error 400 "Video file required")
  ∧ createPost sample_env 2000 1%N sample_long_caption sample_pair
    = (set_uploads ({[ "a.mp4" ]} ∪ uploads sample_pair) sample_pair,
       Error 500 "Failed to create post").
Proof.
  assert (Hd : is_duration (Some "45")).
  { apply (isFloat_duration (Some "45")). vm_compute. reflexivity. }
  split.
  - apply (proj1 (createPost_rejections sample_env 2000 1%N sample_no_video
                    sample_pair Hd)).
    reflexivity.
  - apply (proj2 (createPost_rejections sample_env 2000 1%N sample_long_caption
                    sample_pair Hd) "a.mp4").
    + reflexivity.
    + apply Nat.ltb_lt. vm_compute. reflexivity.
Defined.

Example long_caption_leaves_video :
  posts (createPost sample_env 2000 1%N sample_long_caption sample_pair).1 = ∅
  ∧ uploads (createPost sample_env 2000 1%N sample_long_caption sample_pair).1
    = {[ "a.mp4" ]}.
Proof. split; vm_compute; reflexivity. Qed.

(** X20. The validation chain of [POST /register] measures the user name as
    it is sent, the schema measures it trimmed: a request that passes the
    chain and meets no stored account, but whose trimmed user name has
    fewer than three characters, is answered with status 500 and stores
    nothing. *)
Theorem register_short_trimmed_username (env : Env) (salt : string) (now : Z)
    (b : RegisterBody) (db : Db) :
  register_errors env b = [] →
  ¬ taken b db →
  (String.length (JsString.trim (field_text (reg_username b))) < 3)%nat →
  register env salt now b db = (db, Error 500 "Server error").
Proof.
  intros Herr Hfree Hshort. unfold register. rewrite Herr.
  destruct (findOne _ (users db)) as [x|] eqn:Hfind.
  - destruct Hfree. apply taken_found. by rewrite Hfind.
  - unfold user_schema_ok, new_user, cast_username. cbn [username].
    rewrite (proj2 (Nat.leb_gt _ _) Hshort). by rewrite andb_false_r.
Qed.

Lemma register_short_trimmed_username_witness :
  register sample_env "salt" 100 (sample_register "  a  " "a@x.com" "secret1") sample_db
  = (sample_db, Error 500 "Server error").
Proof.
  apply (register_short_trimmed_username sample_env "salt" 100
           (sample_register "  a  " "a@x.com" "secret1") sample_db).
  - reflexivity.
  - intros Ht%taken_found. vm_compute in Ht. by destruct Ht.
  - simpl. lia.
Defined.

(** ** Replies, in general *)

(** X21. On a stored post that has a comment with the given identifier,
    [addReply] with a valid text succeeds: it appends one reply, with the
    caller as author, the given text and an identifier that the post did
    not use, to the first comment with that identifier, and leaves every
    other comment, the number of comments and the rest of the store as
    they were. *)
Theorem addReply_effect (now : Z) (uid i cid : ObjectId) (t : string)
    (db : Db) (p : Post) :
  posts db !! i = Some p →
  valid_text t →
  (∃ c, c ∈ comments p ∧ comment_id c = cid) →
  ∃ k c r,
    comments p !! k = Some c ∧ comment_id c = cid
    ∧ (∀ j c', comments p !! j = Some c' → (j < k)%nat → comment_id c' ≠ cid)
    ∧ addReply now uid i cid (Some t) db
      = (set_posts
           (<[i := set_comments
                     (<[k := set_replies (comment_replies c ++ [r]) c]> (comments p))
                     p]> (posts db)) db,
         Json r)
    ∧ r = mkReply (reply_id r) uid t now
    ∧ (reply_id r ∉ post_oids p)
    ∧ length (<[k := set_replies (comment_replies c ++ [r]) c]> (comments p))
      = length (comments p)
    ∧ (∀ j, j ≠ k →
            <[k := set_replies (comment_replies c ++ [r]) c]> (comments p) !! j
            = comments p !! j).
Proof.
  intros Hp Ht (c0 & Hin & Hid).
  destruct (list_find_elem_of (λ c, comment_id c = cid) (comments p) c0 Hin Hid)
    as [[k c] Hfind].
  pose proof Hfind as (Hk & Hc & Hfirst)%list_find_Some.
  exists k, c, (mkReply (newObjectId db) uid t now).
  split; [done |]. split; [done |]. split; [exact Hfirst |].
  split; [by apply addReply_found |]. split; [done |]. simpl.
  split; [| split].
  - intros Hused. apply (newObjectId_fresh db).
    by apply (post_oids_used db i p).
  - apply length_insert.
  - intros j Hj. by apply list_lookup_insert_ne.
Qed.

Lemma addReply_effect_witness :
  ∃ k c r,
    [sample_comment] !! k = Some c ∧ comment_id c = 3%N
    ∧ (∀ j c', [sample_comment] !! j = Some c' → (j < k)%nat → comment_id c' ≠ 3%N)
    ∧ addReply 20 7%N 2%N 3%N (Some "thanks") sample_commented
      = (set_posts
           (<[2%N := set_comments
                       (<[k := set_replies (comment_replies c ++ [r]) c]>
                          [sample_comment])
                       (sample_post [5%N; 7%N] [sample_comment] 1000)]>
              (posts sample_commented)) sample_commented,
         Json r)
    ∧ r = mkReply (reply_id r) 7%N "thanks" 20
    ∧ (reply_id r ∉ post_oids (sample_post [5%N; 7%N] [sample_comment] 1000))
    ∧ length (<[k := set_replies (comment_replies c ++ [r]) c]> [sample_comment])
      = length [sample_comment]
    ∧ (∀ j, j ≠ k →
            <[k := set_replies (comment_replies c ++ [r]) c]> [sample_comment] !! j
            = [sample_comment] !! j).
Proof.
  apply (addReply_effect 20 7%N 2%N 3%N "thanks" sample_commented
           (sample_post [5%N; 7%N] [sample_comment] 1000)).
  - reflexivity.
  - unfold valid_text. simpl. lia.
  - exists sample_comment. split; [apply list_elem_of_here | reflexivity].
Defined.

(** ** Hashtags, continued *)

Section Separators.
Import JsString.
Implicit Types (s : string) (l : list ascii) (c : ascii).

Lemma split_run_no_separator prev l :
  Forall (Forall (λ c, is_separator c = false)) (split_run prev l).
Proof.
  revert prev. induction l as [|c l IH]; intros prev; simpl.
  - by repeat constructor.
  - destruct (is_separator c) eqn:Ec.
    + destruct prev; [apply IH | constructor; [constructor | apply IH]].
    + specialize (IH false). destruct (split_run false l) as [|piece pieces].
      * by repeat constructor.
      * apply Forall_cons in IH as [Hp Hps]. by repeat constructor.
Qed.

Lemma to_list_of_list l : to_list (of_list l) = l.
Proof. induction l as [|c l IH]; [done |]. simpl. by rewrite IH. Qed.

Lemma no_separator_trimStart s : no_separator s → no_separator (trimStart s).
Proof.
  unfold no_separator. induction s as [|c s IH]; [done |]. simpl.
  intros [Hc Hs]%Forall_cons. destruct (is_space c); [by apply IH |].
  by constructor.
Qed.

Lemma no_separator_trimEnd s : no_separator s → no_separator (trimEnd s).
Proof.
  unfold no_separator. induction s as [|c s IH]; [done |].
  rewrite trimEnd_cons. simpl. intros [Hc Hs]%Forall_cons.
  specialize (IH Hs). destruct (trimEnd s) as [|d r].
  - destruct (is_space c); simpl; by repeat constructor.
  - by constructor.
Qed.

Lemma is_separator_lower_char c : is_separator (lower_char c) = is_separator c.
Proof. by destruct c as [[] [] [] [] [] [] [] []]. Qed.

Lemma no_separator_lower s : no_separator s → no_separator (toLowerCase s).
Proof.
  unfold no_separator. induction s as [|c s IH]; [done |]. simpl.
  intros [Hc Hs]%Forall_cons. constructor; [| by apply IH].
  by rewrite is_separator_lower_char.
Qed.

Lemma parse_string_no_separator s :
  Forall no_separator (cast_hashtag <$> parse_hashtags (TagString s)).
Proof.
  apply Forall_fmap, Forall_forall. intros t Ht. simpl in Ht.
  apply list_elem_of_In, filter_In in Ht as [Ht _].
  apply list_elem_of_In, list_elem_of_fmap in Ht as (piece & -> & Hpiece).
  unfold split_tags in Hpiece.
  apply list_elem_of_fmap in Hpiece as (chars & -> & Hchars).
  pose proof (split_run_no_separator false (to_list s)) as Hall.
  rewrite Forall_forall in Hall. specialize (Hall chars Hchars).
  unfold cast_hashtag, trim. simpl.
  apply no_separator_lower, no_separator_trimEnd, no_separator_trimStart.
  apply no_separator_trimEnd, no_separator_trimStart.
  unfold no_separator. by rewrite to_list_of_list.
Qed.

End Separators.

(** X22. When the hashtags of a new post come as one string, no stored
    hashtag holds a comma or a space: the string is cut at every run of
    commas and spaces. *)
Theorem string_hashtags_have_no_separator (env : Env) (now : Z)
    (uid : ObjectId) (r : CreatePostReq) (db db' : Db) (i : ObjectId)
    (p : Post) (s : string) :
  cp_hashtags r = Some (TagString s) →
  createPost env now uid r db = (db', Json (i, p)) →
  Forall no_separator (hashtags p).
Proof.
  intros Hs. unfold createPost. destruct (create_errors r); [| done].
  destruct (cp_file r) as [f|]; [| done].
  destruct (JsNumber.toNumber _) as [v| |]; [| done | done].
  destruct (post_schema_ok _); [| done].
  intros [= <- <- <-]. simpl. rewrite Hs. simpl.
  apply parse_string_no_separator.
Qed.

Lemma string_hashtags_have_no_separator_witness :
  Forall no_separator ["fun"; "cats"].
Proof.
  apply (string_hashtags_have_no_separator sample_env 2000 1%N
           (sample_create "45") sample_db
           (createPost sample_env 2000 1%N (sample_create "45") sample_db).1
           3%N
           (mkPost 1%N "http://host/uploads/a.mp4" "hello" ["fun"; "cats"]
                   (45 # 1) [] [] 0 false 2000)
           "Fun, Cats").
  - reflexivity.
  - vm_compute. reflexivity.
Defined.

Lemma createPost_hashtags_witness :
  Forall (λ s, lowercase s ∧ trimmed s) ["fun"; "cats"]
  ∧ Forall normalized_hashtag ["fun"; "cats"].
Proof.
  apply (createPost_hashtags sample_env 2000 1%N (sample_create "45") sample_db
           (createPost sample_env 2000 1%N (sample_create "45") sample_db).1
           3%N
           (mkPost 1%N "http://host/uploads/a.mp4" "hello" ["fun"; "cats"]
                   (45 # 1) [] [] 0 false 2000)).
  vm_compute. reflexivity.
Defined.

